(** * Helium: lexer, parser and command line driver

    A shallow embedding of the C sources of the Helium front end
    ([lex.c], [parser.c], [common.c], [main.c]) together with the facts
    established about them.

    Conventions of the embedding.
    - C [int] fields are [Z]; [size_t] counters are [nat].  Sources are far
      below 2^31 bytes, so no wrap-around is written out.
    - The source buffer is the string of all bytes that can be read starting
      at the [src] pointer: the program text, its NUL terminator and whatever
      readable bytes follow it.  Reading beyond it is a [Fault].
    - A [vector] is a list in index order; [vector_push] appends at the end
      and [vector_pop] removes the last element.
    - Every C function that reads or moves a cursor is a function from the
      state to a [result]: the returned value with the new state, an error
      report followed by [exit], or a fault (undefined behaviour in C).
    - Of the heap only the token buffer of [lex] and the line buffer of
      [get_line] have their sizes modelled.  The blocks of
      [reduce_string_buffer], [paddchar] and [read_file], each allocated
      shorter than what is stored in it, are taken to hold what is stored:
      [reduce_string_buffer] is the copy of a C string and [paddchar] is
      left out.
    - What is printed is left out ([lxtoken_display], [astnode_tostr] and
      [disassemble] in [main]), so [Exit] marks the call of [lexerror] or
      [parsererror]; the line these copy with [get_line] before they reach
      [exit(0)] is [lexerror_line] and [parsererror_line].
    - Loops and recursive functions take a budget; the facts below show
      that the budgets used are never exhausted. *)

From Stdlib Require Import ZArith List String Ascii Bool Lia.
Import ListNotations.

Set Warnings "-register-all".

Open Scope string_scope.
Open Scope list_scope.
Open Scope Z_scope.

(* ================================================================= *)
(** ** Results of stateful, fallible code *)

Inductive result (S A : Type) : Type :=
| Ok (a : A) (s : S)             (* normal return *)
| Exit (status : Z) (msg : string) (s : S)
                                 (* diagnostic printed, then [exit(status)] *)
| Fault                          (* access outside an object *)
| OutOfFuel.                     (* recursion budget of the model exhausted *)

Arguments Ok {S A} a s.
Arguments Exit {S A} status msg s.
Arguments Fault {S A}.
Arguments OutOfFuel {S A}.

Definition M (S A : Type) : Type := S -> result S A.

Definition ret {S A : Type} (a : A) : M S A := fun s => Ok a s.

Definition bind {S A B : Type} (m : M S A) (k : A -> M S B) : M S B :=
  fun s =>
    match m s with
    | Ok a s' => k a s'
    | Exit status msg s' => Exit status msg s'
    | Fault => Fault
    | OutOfFuel => OutOfFuel
    end.

Declare Scope monad_scope.
Delimit Scope monad_scope with monad.
Notation "x <- m ;; k" := (bind m (fun x => k))
  (at level 61, m at next level, right associativity) : monad_scope.
Notation "m ;;; k" := (bind m (fun _ => k))
  (at level 61, right associativity) : monad_scope.
Open Scope monad_scope.

(* ================================================================= *)
(** ** Characters and C strings *)

Definition NUL : ascii := Ascii.zero.
Definition newline : ascii := "010"%char.
Definition carriage_return : ascii := "013"%char.
Definition tab : ascii := "009"%char.
Definition dquote : ascii := "034"%char.

Definition char_between (lo hi c : ascii) : bool :=
  (nat_of_ascii lo <=? nat_of_ascii c)%nat && (nat_of_ascii c <=? nat_of_ascii hi)%nat.

(** [<ctype.h>] in the C locale; the bytes above 127 are in no class. *)
Definition isdigit (c : ascii) : bool := char_between "0" "9" c.
Definition isalpha (c : ascii) : bool :=
  char_between "A" "Z" c || char_between "a" "z" c.
Definition isalnum (c : ascii) : bool := isalpha c || isdigit c.

(** The C string stored in a character buffer: the bytes before the first
    NUL. *)
Fixpoint cstr (buf : string) : string :=
  match buf with
  | EmptyString => EmptyString
  | String c rest => if Ascii.eqb c NUL then EmptyString else String c (cstr rest)
  end.

(** [streq(a, b)], that is [strcmp(a, b) == 0]. *)
Definition streq (a b : string) : bool := String.eqb a b.

(** [source[i]] for a signed index. *)
Definition source_at (source : string) (i : Z) : option ascii :=
  if i <? 0 then None else String.get (Z.to_nat i) source.

(** A program text as [read_file] hands it over: the text, its terminator
    and one more readable byte.  [read_file] stores the terminator right
    after its block of [fsize] bytes; that byte and the one after it, which
    [lexadvance] reads as lookahead at the end of the text, are taken to be
    readable. *)
Definition c_buffer (text : string) : string :=
  (text ++ String NUL (String NUL ""))%string.

(* ================================================================= *)
(** ** Lexer ([lex.c]) *)

(** Modelled from the spec: the enumeration [lxtype] of [lex.h], which is
    not among the sources.  The kinds are the token kinds of the spec under
    the names the sources use for them, with [LX_BLOCK], which [lex.c] and
    [parser.c] name as well. *)
Inductive lxtype : Type :=
| LX_SYMBOL | LX_INTEGER | LX_FLOAT | LX_OPERATOR | LX_EOF | LX_COMMENT
| LX_NEWLINE | LX_WHITESPACE | LX_LEFT_PAREN | LX_RIGHT_PAREN
| LX_LEFT_BRACE | LX_RIGHT_BRACE | LX_LEFT_SQUARE | LX_RIGHT_SQUARE
| LX_ASSIGN | LX_STRING | LX_FUNCTION | LX_CALL | LX_BLOCK | LX_SEPARATOR
| LX_COLON | LX_DOT | LX_BOOL | LX_NULL | LX_RETURN | LX_LOOP | LX_IF
| LX_ELSE | LX_INCLUDE.

Definition lxtype_eqb (a b : lxtype) : bool :=
  match a, b with
  | LX_SYMBOL, LX_SYMBOL | LX_INTEGER, LX_INTEGER | LX_FLOAT, LX_FLOAT
  | LX_OPERATOR, LX_OPERATOR | LX_EOF, LX_EOF | LX_COMMENT, LX_COMMENT
  | LX_NEWLINE, LX_NEWLINE | LX_WHITESPACE, LX_WHITESPACE
  | LX_LEFT_PAREN, LX_LEFT_PAREN | LX_RIGHT_PAREN, LX_RIGHT_PAREN
  | LX_LEFT_BRACE, LX_LEFT_BRACE | LX_RIGHT_BRACE, LX_RIGHT_BRACE
  | LX_LEFT_SQUARE, LX_LEFT_SQUARE | LX_RIGHT_SQUARE, LX_RIGHT_SQUARE
  | LX_ASSIGN, LX_ASSIGN | LX_STRING, LX_STRING | LX_FUNCTION, LX_FUNCTION
  | LX_CALL, LX_CALL | LX_BLOCK, LX_BLOCK | LX_SEPARATOR, LX_SEPARATOR
  | LX_COLON, LX_COLON | LX_DOT, LX_DOT | LX_BOOL, LX_BOOL
  | LX_NULL, LX_NULL | LX_RETURN, LX_RETURN | LX_LOOP, LX_LOOP
  | LX_IF, LX_IF | LX_ELSE, LX_ELSE | LX_INCLUDE, LX_INCLUDE => true
  | _, _ => false
  end.

(** [lxpos], [lxtoken] and [lexer] are declared in [lex.h]; their fields are
    those [lexer_new], [lxtoken_new] and [clone_pos] fill. *)
Record lxpos : Type := mk_lxpos {
  col_pos : Z;
  line_pos : Z;
  char_offset : Z;
  line_offset : Z
}.

Record lxtoken : Type := lxtoken_new {
  tk_value : string;
  tk_type : lxtype;
  tk_pos : lxpos
}.

Record lexer : Type := mk_lexer {
  lx_pos : lxpos;
  lx_source : string;
  lx_current : ascii;
  lx_lookahead : ascii
}.

(** Size of the character buffer [lex] allocates for a token. *)
Definition LEX_BUF_SIZE : Z := 10000.

(** [lexer_new]: reads [src[0]]. *)
Definition lexer_new (src : string) : option lexer :=
  match source_at src 0 with
  | None => None
  | Some c =>
      Some {| lx_pos := {| col_pos := -1; line_pos := 0;
                           char_offset := -1; line_offset := 0 |};
              lx_source := src;
              lx_current := NUL;
              lx_lookahead := c |}
  end.

Definition clone_pos (original : lxpos) : lxpos :=
  {| col_pos := col_pos original;
     line_pos := line_pos original;
     char_offset := char_offset original;
     line_offset := line_offset original |}.

(** [lexerror]: prints the message with the cursor position and calls
    [exit(0)].  [Exit] marks the call; the copy of the line it prints is
    [lexerror_line]. *)
Definition lexerror {A : Type} (msg : string) : M lexer A :=
  fun lx => Exit 0 msg lx.

Definition lexadvance : M lexer ascii :=
  fun lx =>
    let off := char_offset (lx_pos lx) + 1 in
    match source_at (lx_source lx) (off + 1) with
    | None => Fault
    | Some la =>
        let cur := lx_lookahead lx in
        let pos :=
          if Ascii.eqb cur newline
          then {| col_pos := -1;
                  line_pos := line_pos (lx_pos lx) + 1;
                  char_offset := off;
                  line_offset := off + 1 |}
          else {| col_pos := col_pos (lx_pos lx) + 1;
                  line_pos := line_pos (lx_pos lx);
                  char_offset := off;
                  line_offset := line_offset (lx_pos lx) |} in
        Ok cur {| lx_pos := pos; lx_source := lx_source lx;
                  lx_current := cur; lx_lookahead := la |}
    end.

(** [determine_nature]: the lex type of an identifier. *)
Definition determine_nature (s : string) : lxtype :=
  if streq s "false" || streq s "true" then LX_BOOL
  else if streq s "null" then LX_NULL
  else if streq s "return" then LX_RETURN
  else LX_SYMBOL.

(** The comparison loop of [check_pattern], from index [i] on: [None] when
    it reads outside the buffer. *)
Fixpoint pattern_matches (source : string) (i : Z) (pattern : string)
  : option bool :=
  match pattern with
  | EmptyString => Some true
  | String c rest =>
      match source_at source i with
      | None => None
      | Some d =>
          if Ascii.eqb d c then pattern_matches source (i + 1) rest
          else Some false
      end
  end.

(** [while (len-- > 0) lexadvance(lx);] *)
Fixpoint advance_times (len : nat) : M lexer unit :=
  match len with
  | O => ret tt
  | S n => lexadvance ;;; advance_times n
  end.

Definition check_pattern (pattern : string) : M lexer bool :=
  fun lx =>
    match pattern_matches (lx_source lx) (char_offset (lx_pos lx) + 1) pattern with
    | None => Fault
    | Some false => Ok false lx
    | Some true => (advance_times (String.length pattern) ;;; ret true) lx
    end.

(** [do buf[len++] = lexadvance(lx); while (cond(lx->lookahead));] *)
Fixpoint advance_while (cond : ascii -> bool) (fuel : nat) (buf : string)
  : M lexer string :=
  fun lx =>
    match fuel with
    | O => OutOfFuel
    | S fuel' =>
        (c <- lexadvance ;;
         fun lx' =>
           let buf' := (buf ++ String c "")%string in
           if cond (lx_lookahead lx')
           then advance_while cond fuel' buf' lx'
           else Ok buf' lx') lx
    end.

(** The loop of the string branch: [c = lexadvance(lx)] until [c] is the
    closing quote, every other [c] being stored by [buf[len++] = c]. *)
Fixpoint string_body (fuel : nat) (buf : string) : M lexer string :=
  fun lx =>
    match fuel with
    | O => OutOfFuel
    | S fuel' =>
        (c <- lexadvance ;;
         if Ascii.eqb c dquote then ret buf
         else string_body fuel' (buf ++ String c "")%string) lx
    end.

Definition ident_char (c : ascii) : bool :=
  isalnum c || isdigit c || Ascii.eqb c "_".

(** The [switch] of the last branch of [lex]. *)
Definition lex_single (c : ascii) : M lexer (string * lxtype) :=
  if Ascii.eqb c NUL then ret ("", LX_EOF)
  else if Ascii.eqb c newline then ret ("", LX_NEWLINE)
  else if Ascii.eqb c " " || Ascii.eqb c carriage_return || Ascii.eqb c tab
  then ret ("", LX_WHITESPACE)
  else if Ascii.eqb c "{" then ret ("", LX_LEFT_BRACE)
  else if Ascii.eqb c "}" then ret ("", LX_RIGHT_BRACE)
  else if Ascii.eqb c "+" || Ascii.eqb c "-" || Ascii.eqb c "/"
          || Ascii.eqb c "*" || Ascii.eqb c "%" || Ascii.eqb c "<"
          || Ascii.eqb c ">" || Ascii.eqb c "&" || Ascii.eqb c "|"
          || Ascii.eqb c "^" || Ascii.eqb c "~"
  then ret (String c "", LX_OPERATOR)
  else if Ascii.eqb c "(" then ret ("", LX_LEFT_PAREN)
  else if Ascii.eqb c ")" then ret ("", LX_RIGHT_PAREN)
  else if Ascii.eqb c "#" then ret ("", LX_COMMENT)
  else if Ascii.eqb c "@" then ret ("", LX_CALL)
  else if Ascii.eqb c "," then ret ("", LX_SEPARATOR)
  else if Ascii.eqb c "$" then ret ("", LX_FUNCTION)
  else lexerror "Syntax error! Failed to identify symbol".

(** The branches of [lex]: the filled part of [buf] and the token type.
    Each iteration of an inner loop moves the cursor, so the length of the
    buffer bounds their number. *)
Definition lex_scan : M lexer (string * lxtype) :=
  fun lx =>
    let fuel := S (String.length (lx_source lx)) in
    let la := lx_lookahead lx in
    (if isalpha la || Ascii.eqb la "_" then
       buf <- advance_while ident_char fuel "" ;;
       ret (buf, determine_nature (cstr buf))
     else if isdigit la then
       buf <- advance_while isdigit fuel "" ;;
       ret (buf, LX_INTEGER)
     else if Ascii.eqb la dquote then
       lexadvance ;;;
       buf <- string_body fuel "" ;;
       ret (buf, LX_STRING)
     else
       assign <- check_pattern "<-" ;;
       if assign then ret ("", LX_ASSIGN)
       else
         le <- check_pattern "<=" ;;
         if le then ret ("", LX_OPERATOR)
         else
           ge <- check_pattern ">=" ;;
           if ge then ret ("", LX_OPERATOR)
           else
             c <- lexadvance ;;
             lex_single c) lx.

(** [lex]: the token starts one character after the cursor; its value is
    the C string left in [buf], which holds [LEX_BUF_SIZE] characters
    including the terminator. *)
Definition lex : M lexer lxtoken :=
  fun lx =>
    let pos := {| col_pos := col_pos (lx_pos lx) + 1;
                  line_pos := line_pos (lx_pos lx);
                  char_offset := char_offset (lx_pos lx) + 1;
                  line_offset := line_offset (lx_pos lx) |} in
    (scanned <- lex_scan ;;
     let '(buf, type) := scanned in
     if LEX_BUF_SIZE <=? Z.of_nat (String.length buf) then (fun _ => Fault)
     else ret (lxtoken_new (cstr buf) type pos)) lx.

Definition vector_push {A : Type} (v : list A) (item : A) : list A :=
  v ++ [item].

(** The loop of [lexify]. *)
Fixpoint lexify_loop (fuel : nat) (tokens : list lxtoken)
  : M lexer (list lxtoken) :=
  fun lx =>
    match fuel with
    | O => OutOfFuel
    | S fuel' =>
        (token <- lex ;;
         if lxtype_eqb (tk_type token) LX_EOF
         then ret (vector_push tokens token)
         else if negb (lxtype_eqb (tk_type token) LX_WHITESPACE)
                 && negb (lxtype_eqb (tk_type token) LX_COMMENT)
         then lexify_loop fuel' (vector_push tokens token)
         else lexify_loop fuel' tokens) lx
    end.

(** [lexify]: every call of [lex] moves the cursor, so the length of the
    buffer bounds the number of iterations. *)
Definition lexify (tokens : list lxtoken) : M lexer (list lxtoken) :=
  fun lx => lexify_loop (S (String.length (lx_source lx))) tokens lx.

(** Lexing a whole buffer, as [main] does. *)
Definition lex_source (src : string) : result lexer (list lxtoken) :=
  match lexer_new src with
  | None => Fault
  | Some lx => lexify [] lx
  end.


(* ================================================================= *)
(** ** Syntax trees and parser state ([parser.h]) *)

(** Modelled from the spec: the enumeration [asttype] of [parser.h], which
    is not among the sources; the kinds are the node kinds of the spec under
    the names [parser.c] uses.  [parse_block] stores the lexer enumerator
    [LX_BLOCK] in the [type] field of the node it creates; the numbering of
    the two enumerations is not known, so a token kind stored in that field
    is kept apart as [AST_of_lxtype]. *)
Inductive asttype : Type :=
| AST_BLOCK | AST_ASSIGN | AST_REFERENCE | AST_INTEGER | AST_FLOAT
| AST_BOOL | AST_STRING | AST_NULL | AST_UNARY_EXPRESSION
| AST_BINARY_EXPRESSION | AST_CALL | AST_FUNCTION | AST_PARAMS | AST_PARAM
| AST_LOOP | AST_BRANCHES | AST_RETURN | AST_INCLUDE | AST_TABLE
| AST_KV_PAIR | AST_PUT | AST_GET
| AST_of_lxtype (t : lxtype).

Definition is_AST_STRING (t : asttype) : bool :=
  match t with AST_STRING => true | _ => false end.

(** [astnode] and [parser] are declared in [parser.h]; their fields are
    those [astnode_new] fills and [main] initialises. *)
Inductive astnode : Type :=
| astnode_new (value : string) (type : asttype) (pos : lxpos)
              (children : list astnode).

Definition node_value (n : astnode) : string :=
  match n with astnode_new v _ _ _ => v end.
Definition node_type (n : astnode) : asttype :=
  match n with astnode_new _ t _ _ => t end.
Definition node_pos (n : astnode) : lxpos :=
  match n with astnode_new _ _ p _ => p end.
Definition node_children (n : astnode) : list astnode :=
  match n with astnode_new _ _ _ c => c end.

(** [vector_push(&node->children, child)]. *)
Definition push_child (node child : astnode) : astnode :=
  match node with
  | astnode_new v t p c => astnode_new v t p (vector_push c child)
  end.

Fixpoint node_size (n : astnode) : nat :=
  match n with
  | astnode_new _ _ _ c =>
      S ((fix sum (l : list astnode) : nat :=
            match l with
            | [] => O
            | x :: l' => (node_size x + sum l')%nat
            end) c)
  end.

Record parser : Type := mk_parser {
  position : nat;
  p_source : string;
  tokens : list lxtoken
}.

(** Following a pointer: a null or dangling one is a fault. *)
Definition deref {S A : Type} (ptr : option A) : M S A :=
  fun s => match ptr with Some a => Ok a s | None => Fault end.

(** The vector functions are declared in [datatypes.h]: [vector_get] returns
    an element by index, [vector_top] the final item, [vector_pop] removes
    and returns the final item.  Their definitions are not among the
    sources; what they return outside the vector is taken to be a pointer
    that cannot be followed. *)
Definition vector_get {A : Type} (v : list A) (index : nat) : option A :=
  nth_error v index.

Definition vector_top {A : Type} (v : list A) : option A :=
  last (map Some v) None.

(** [vector_pop]: the removed last item and the shortened vector. *)
Definition vector_pop {A : Type} (v : list A) : option (A * list A) :=
  match vector_top v with
  | Some x => Some (x, removelast v)
  | None => None
  end.

(* ----------------------------------------------------------------- *)
(** *** Token traversal *)

Definition peek (p : parser) : option lxtoken :=
  vector_get (tokens p) (position p).

Definition lookahead (p : parser) : option lxtoken :=
  if (position p + 1 <? List.length (tokens p))%nat
  then vector_get (tokens p) (position p + 1)
  else None.

Definition is_empty (p : parser) : bool :=
  (List.length (tokens p) <=? position p)%nat
  || match peek p with
     | Some tk => lxtype_eqb (tk_type tk) LX_EOF
     | None => true
     end.

(** [peek(p)->type == type]; the sources test it after [!is_empty(p)] only,
    where [peek(p)] is a token. *)
Definition peek_is (type : lxtype) (p : parser) : bool :=
  match peek p with
  | Some tk => lxtype_eqb (tk_type tk) type
  | None => false
  end.

(** [parsererror]: reads the position of [peek(p)], prints the message and
    calls [exit(0)]; it never returns to its caller.  [Exit] marks the call;
    the copy of the line it prints is [parsererror_line]. *)
Definition parsererror {A : Type} (msg : string) : M parser A :=
  fun p =>
    match peek p with
    | Some tk => Exit 0 msg p
    | None => Fault
    end.

(** [eat]: the returned pointer is null at the end of the input. *)
Definition eat : M parser (option lxtoken) :=
  fun p =>
    if negb (is_empty p)
    then Ok (vector_get (tokens p) (position p))
            {| position := S (position p);
               p_source := p_source p;
               tokens := tokens p |}
    else Ok None p.

Definition consume (type : lxtype) : M parser (option lxtoken) :=
  fun p =>
    if negb (is_empty p) && peek_is type p
    then eat p
    else parsererror "Unexpected token" p.

Definition consume_optional (type : lxtype) : M parser bool :=
  fun p =>
    if negb (is_empty p) && peek_is type p
    then (eat ;;; ret true) p
    else Ok false p.

(** [while (consume_optional(p, LX_NEWLINE));] — an iteration that goes on
    moves the position, so the number of tokens left bounds the loop. *)
Fixpoint strip_loop (n : nat) : M parser unit :=
  b <- consume_optional LX_NEWLINE ;;
  if b
  then match n with
       | O => fun _ => OutOfFuel
       | S n' => strip_loop n'
       end
  else ret tt.

Definition strip_newlines : M parser unit :=
  fun p => strip_loop (List.length (tokens p) - position p) p.

(** The token under the cursor, followed as a pointer. *)
Definition peek_token : M parser lxtoken := fun p => deref (peek p) p.
Definition lookahead_token : M parser lxtoken := fun p => deref (lookahead p) p.
Definition eat_token : M parser lxtoken := tk <- eat ;; deref tk.
Definition consume_token (type : lxtype) : M parser lxtoken :=
  tk <- consume type ;; deref tk.

(* ----------------------------------------------------------------- *)
(** *** Operators *)

(** [s[0]] of a C string. *)
Definition first_char (s : string) : ascii :=
  match s with
  | EmptyString => NUL
  | String c _ => c
  end.

Definition precedence (op : lxtoken) : M parser Z :=
  if streq (tk_value op) "<=" || streq (tk_value op) ">=" then ret 8
  else if streq (tk_value op) "==" || streq (tk_value op) "!=" then ret 7
  else if streq (tk_value op) "&&" then ret 3
  else if streq (tk_value op) "||" then ret 2
  else
    let c := first_char (tk_value op) in
    if Ascii.eqb c "|" then ret 4
    else if Ascii.eqb c "^" then ret 5
    else if Ascii.eqb c "&" then ret 6
    else if Ascii.eqb c "<" || Ascii.eqb c ">" then ret 8
    else if Ascii.eqb c "+" || Ascii.eqb c "-" then ret 9
    else if Ascii.eqb c "*" || Ascii.eqb c "/" || Ascii.eqb c "%" then ret 10
    else parsererror "Unknown operator recieved".

(** [apply_op]: pops the operator and two operands and builds the binary
    node; the result carries the node and both shortened vectors. *)
Definition apply_op (operands : list astnode) (operators : list lxtoken)
  : option (astnode * list astnode * list lxtoken) :=
  match vector_pop operators with
  | None => None
  | Some (op, operators') =>
      match vector_pop operands with
      | None => None
      | Some (v1, operands1) =>
          match vector_pop operands1 with
          | None => None
          | Some (v0, operands0) =>
              let expression :=
                astnode_new (tk_value op) AST_BINARY_EXPRESSION
                            (clone_pos (tk_pos op)) [] in
              let expression := push_child expression v0 in
              let expression := push_child expression v1 in
              Some (expression, operands0, operators')
          end
      end
  end.

(** [vector_push(&primaries, apply_op(&primaries, &operators))]. *)
Definition reduce_top (primaries : list astnode) (operators : list lxtoken)
  : M parser (list astnode * list lxtoken) :=
  r <- deref (apply_op primaries operators) ;;
  let '(expression, primaries', operators') := r in
  ret (vector_push primaries' expression, operators').

(** The inner loop of [parse_expression]; [size] is [operators.size], which
    every iteration lowers by one. *)
Fixpoint shunting_yard (size : nat) (op : lxtoken)
    (primaries : list astnode) (operators : list lxtoken)
  : M parser (list astnode * list lxtoken) :=
  match size with
  | O => ret (primaries, operators)
  | S size' =>
      top <- deref (vector_top operators) ;;
      a <- precedence op ;;
      b <- precedence top ;;
      if a <=? b
      then r <- reduce_top primaries operators ;;
           shunting_yard size' op (fst r) (snd r)
      else ret (primaries, operators)
  end.

(** The last loop of [parse_expression] and its final [vector_pop]. *)
Fixpoint apply_remaining (size : nat)
    (primaries : list astnode) (operators : list lxtoken)
  : M parser astnode :=
  match size with
  | O => r <- deref (vector_pop primaries) ;; ret (fst r)
  | S size' =>
      r <- reduce_top primaries operators ;;
      apply_remaining size' (fst r) (snd r)
  end.

Definition is_unary_operator (value : string) : bool :=
  streq value "-" || streq value "+" || streq value "!" || streq value "~".

(* ----------------------------------------------------------------- *)
(** *** Parsing methods

    The parsing functions call each other recursively and loop over the
    token vector.  [call] names a parsing function or one of its loops with
    the arguments it is entered with; [parse_body self c] is the body of [c]
    in which every recursive call and every next loop iteration goes through
    [self]; [parse_rec fuel] ties the knot with a bound on the nesting. *)

Inductive call : Type :=
| Block (terminal : lxtype)
| BlockLoop (terminal : lxtype) (block : astnode)
| Statement
| Expression
| ExpressionLoop (primaries : list astnode) (operators : list lxtoken)
| Primary
| FunctionCall
| CallArguments (fcall : astnode)
| FunctionDefinition
| Parameters (params : astnode)
| Loop
| Branching
| ElseLoop (chain : list astnode)
| TableInstance
| TableEntries (table : astnode)
| TablePut
| TableGet.

(** The tree reached from [branch0] once the loop of [parse_branching] is
    over.  The loop pushes the pointer [branch] onto the children of
    [branchx] and goes on filling the same node through [branchx = branch],
    so each branch created by the loop ends up, completed, as the last child
    of the branch created before it.  [chain] lists the branches in the
    order of their creation, each with the children pushed onto it directly. *)
Fixpoint link_branches (branch0 : astnode) (chain : list astnode) : astnode :=
  match chain with
  | [] => branch0
  | branch :: rest => push_child branch0 (link_branches branch rest)
  end.

Definition link_chain (chain : list astnode) : M parser astnode :=
  match chain with
  | [] => fun _ => Fault
  | branch0 :: rest => ret (link_branches branch0 rest)
  end.

(** [strip_newlines; consume '{'; parse_block(p, '}'); consume '}'] pushing
    the block onto [node]: the body of a function, loop or branch. *)
Definition braced_block (self : call -> M parser astnode) (node : astnode)
  : M parser astnode :=
  strip_newlines ;;;
  consume LX_LEFT_BRACE ;;;
  block <- self (Block LX_RIGHT_BRACE) ;;
  consume LX_RIGHT_BRACE ;;;
  ret (push_child node block).

(** The index part shared by [parse_table_put] and [parse_table_get]. *)
Definition table_key (self : call -> M parser astnode) (node : astnode)
  : M parser astnode :=
  square <- consume_optional LX_LEFT_SQUARE ;;
  if square then
    key <- self Expression ;;
    consume LX_RIGHT_SQUARE ;;;
    ret (push_child node key)
  else
    dot <- consume_optional LX_DOT ;;
    if dot then
      tk <- consume_token LX_SYMBOL ;;
      ret (push_child node
             (astnode_new (tk_value tk) AST_STRING (clone_pos (tk_pos tk)) []))
    else ret node.

Definition parse_body (self : call -> M parser astnode) (c : call)
  : M parser astnode :=
  match c with
  (* parse_block *)
  | Block terminal =>
      tk <- peek_token ;;
      let block := astnode_new "block" (AST_of_lxtype LX_BLOCK)
                               (clone_pos (tk_pos tk)) [] in
      strip_newlines ;;;
      self (BlockLoop terminal block)
  | BlockLoop terminal block =>
      fun p =>
        if negb (is_empty p) && negb (peek_is terminal p)
        then (st <- self Statement ;;
              let block := push_child block st in
              strip_newlines ;;;
              self (BlockLoop terminal block)) p
        else Ok block p
  (* parse_statement *)
  | Statement =>
      tk <- peek_token ;;
      let pos := clone_pos (tk_pos tk) in
      match tk_type tk with
      | LX_SYMBOL =>
          la <- lookahead_token ;;
          if lxtype_eqb (tk_type la) LX_LEFT_SQUARE
             || lxtype_eqb (tk_type la) LX_DOT
          then self TablePut
          else
            name <- eat_token ;;
            consume LX_ASSIGN ;;;
            e <- self Expression ;;
            ret (astnode_new (tk_value name) AST_ASSIGN pos [e])
      | LX_CALL => self FunctionCall
      | LX_LOOP => self Loop
      | LX_IF => self Branching
      | LX_INCLUDE =>
          eat ;;;
          fp <- self Primary ;;
          (if negb (is_AST_STRING (node_type fp))
           then parsererror "Expected string in include statement!"
           else ret tt) ;;;
          ret (astnode_new "include" AST_INCLUDE pos [fp])
      | LX_RETURN =>
          eat ;;;
          e <- self Expression ;;
          ret (astnode_new "ret" AST_RETURN pos [e])
      | _ => parsererror "Invalid statement!"
      end
  (* parse_expression *)
  | Expression =>
      first <- self Primary ;;
      self (ExpressionLoop [first] [])
  | ExpressionLoop primaries operators =>
      fun p =>
        if negb (is_empty p) && peek_is LX_OPERATOR p
        then (op <- eat_token ;;
              r <- shunting_yard (List.length operators) op primaries operators ;;
              let '(primaries, operators) := r in
              let operators := vector_push operators op in
              next <- self Primary ;;
              self (ExpressionLoop (vector_push primaries next) operators)) p
        else apply_remaining (List.length operators) primaries operators p
  (* parse_primary *)
  | Primary =>
      (fun p => if is_empty p
                then parsererror "Program has ended prematurely!" p
                else Ok tt p) ;;;
      tk <- peek_token ;;
      let pos := clone_pos (tk_pos tk) in
      match tk_type tk with
      | LX_INTEGER =>
          v <- eat_token ;; ret (astnode_new (tk_value v) AST_INTEGER pos [])
      | LX_FLOAT =>
          v <- eat_token ;; ret (astnode_new (tk_value v) AST_FLOAT pos [])
      | LX_BOOL =>
          v <- eat_token ;; ret (astnode_new (tk_value v) AST_BOOL pos [])
      | LX_STRING =>
          v <- eat_token ;; ret (astnode_new (tk_value v) AST_STRING pos [])
      | LX_NULL =>
          v <- eat_token ;; ret (astnode_new (tk_value v) AST_NULL pos [])
      | LX_LEFT_BRACE => self TableInstance
      | LX_SYMBOL =>
          la <- lookahead_token ;;
          if lxtype_eqb (tk_type la) LX_LEFT_SQUARE
             || lxtype_eqb (tk_type la) LX_DOT
          then self TableGet
          else
            v <- eat_token ;;
            ret (astnode_new (tk_value v) AST_REFERENCE pos [])
      | LX_FUNCTION => self FunctionDefinition
      | LX_CALL => self FunctionCall
      | LX_LEFT_PAREN =>
          consume LX_LEFT_PAREN ;;;
          node <- self Expression ;;
          consume LX_RIGHT_PAREN ;;;
          ret node
      | LX_OPERATOR =>
          (if negb (is_unary_operator (tk_value tk))
           then parsererror "Invalid unary operator"
           else ret tt) ;;;
          v <- eat_token ;;
          operand <- self Primary ;;
          ret (astnode_new (tk_value v) AST_UNARY_EXPRESSION pos [operand])
      | _ => parsererror "Unexpected token found"
      end
  (* parse_function_call *)
  | FunctionCall =>
      consume LX_CALL ;;;
      tk <- peek_token ;;
      let fcall := astnode_new (tk_value tk) AST_CALL (clone_pos (tk_pos tk)) [] in
      callee <- self Expression ;;
      let fcall := push_child fcall callee in
      consume LX_LEFT_PAREN ;;;
      fcall <- (fun p => if negb (is_empty p) && negb (peek_is LX_RIGHT_PAREN p)
                         then self (CallArguments fcall) p
                         else Ok fcall p) ;;
      consume LX_RIGHT_PAREN ;;;
      ret fcall
  | CallArguments fcall =>
      argument <- self Expression ;;
      let fcall := push_child fcall argument in
      more <- consume_optional LX_SEPARATOR ;;
      if more then self (CallArguments fcall) else ret fcall
  (* parse_function_definition: the C code pushes [params] onto [func]
     before it fills it; the node is shared, so [func] sees it filled *)
  | FunctionDefinition =>
      fn <- consume_token LX_FUNCTION ;;
      let func := astnode_new "code" AST_FUNCTION (clone_pos (tk_pos fn)) [] in
      lp <- consume_token LX_LEFT_PAREN ;;
      let params := astnode_new "args" AST_PARAMS (clone_pos (tk_pos lp)) [] in
      tk <- peek_token ;;
      params <- (if negb (lxtype_eqb (tk_type tk) LX_RIGHT_PAREN)
                 then self (Parameters params)
                 else ret params) ;;
      let func := push_child func params in
      consume LX_RIGHT_PAREN ;;;
      braced_block self func
  | Parameters params =>
      param <- consume_token LX_SYMBOL ;;
      let params :=
        push_child params
          (astnode_new (tk_value param) AST_PARAM (clone_pos (tk_pos param)) []) in
      more <- consume_optional LX_SEPARATOR ;;
      if more then self (Parameters params) else ret params
  (* parse_loop *)
  | Loop =>
      kw <- consume_token LX_LOOP ;;
      let loop := astnode_new "loop" AST_LOOP (clone_pos (tk_pos kw)) [] in
      condition <- self Expression ;;
      braced_block self (push_child loop condition)
  (* parse_branching *)
  | Branching =>
      kw <- consume_token LX_IF ;;
      let branch0 :=
        astnode_new "conditional" AST_BRANCHES (clone_pos (tk_pos kw)) [] in
      condition <- self Expression ;;
      branch0 <- braced_block self (push_child branch0 condition) ;;
      strip_newlines ;;;
      self (ElseLoop [branch0])
  | ElseLoop chain =>
      tk <- peek_token ;;
      if lxtype_eqb (tk_type tk) LX_ELSE then
        kw <- eat_token ;;
        let pos := clone_pos (tk_pos kw) in
        elif <- consume_optional LX_IF ;;
        branch <- (if elif
                   then condition <- self Expression ;;
                        ret (astnode_new "conditional" AST_BRANCHES pos [condition])
                   else ret (astnode_new "alt" AST_BRANCHES pos [])) ;;
        branch <- braced_block self branch ;;
        strip_newlines ;;;
        let chain := vector_push chain branch in
        if streq (node_value branch) "alt"
        then link_chain chain
        else self (ElseLoop chain)
      else link_chain chain
  (* parse_table_instance *)
  | TableInstance =>
      lb <- consume_token LX_LEFT_BRACE ;;
      let table := astnode_new "table" AST_TABLE (clone_pos (tk_pos lb)) [] in
      strip_newlines ;;;
      tk <- peek_token ;;
      table <- (if negb (lxtype_eqb (tk_type tk) LX_RIGHT_BRACE)
                then self (TableEntries table)
                else ret table) ;;
      consume LX_RIGHT_BRACE ;;;
      ret table
  | TableEntries table =>
      strip_newlines ;;;
      tk <- peek_token ;;
      let element := astnode_new "pair" AST_KV_PAIR (clone_pos (tk_pos tk)) [] in
      key <- self Expression ;;
      consume LX_COLON ;;;
      val <- self Expression ;;
      let element := push_child (push_child element key) val in
      strip_newlines ;;;
      let table := push_child table element in
      more <- consume_optional LX_SEPARATOR ;;
      if more then self (TableEntries table) else ret table
  (* parse_table_put *)
  | TablePut =>
      var <- consume_token LX_SYMBOL ;;
      let put := astnode_new (tk_value var) AST_PUT (clone_pos (tk_pos var)) [] in
      put <- table_key self put ;;
      consume LX_ASSIGN ;;;
      e <- self Expression ;;
      ret (push_child put e)
  (* parse_table_get *)
  | TableGet =>
      var <- consume_token LX_SYMBOL ;;
      let get := astnode_new (tk_value var) AST_GET (clone_pos (tk_pos var)) [] in
      table_key self get
  end.

Fixpoint parse_rec (fuel : nat) (c : call) : M parser astnode :=
  match fuel with
  | O => fun _ => OutOfFuel
  | S fuel' => parse_body (parse_rec fuel') c
  end.

Definition parse_block (fuel : nat) (terminal : lxtype) : M parser astnode :=
  parse_rec fuel (Block terminal).
Definition parse_statement (fuel : nat) : M parser astnode :=
  parse_rec fuel Statement.
Definition parse_expression (fuel : nat) : M parser astnode :=
  parse_rec fuel Expression.
Definition parse_primary (fuel : nat) : M parser astnode :=
  parse_rec fuel Primary.
Definition parse_function_call (fuel : nat) : M parser astnode :=
  parse_rec fuel FunctionCall.
Definition parse_function_definition (fuel : nat) : M parser astnode :=
  parse_rec fuel FunctionDefinition.
Definition parse_loop (fuel : nat) : M parser astnode :=
  parse_rec fuel Loop.
Definition parse_branching (fuel : nat) : M parser astnode :=
  parse_rec fuel Branching.
Definition parse_table_instance (fuel : nat) : M parser astnode :=
  parse_rec fuel TableInstance.
Definition parse_table_put (fuel : nat) : M parser astnode :=
  parse_rec fuel TablePut.
Definition parse_table_get (fuel : nat) : M parser astnode :=
  parse_rec fuel TableGet.

(** [parse]. *)
Definition parse (fuel : nat) : M parser astnode :=
  parse_block fuel LX_EOF.

(* ================================================================= *)
(** ** Command line driver ([common.c], [main.c]) *)

(** How a run of the process ends. *)
Inductive outcome : Type :=
| Exited (status : Z)   (* [exit(status)], or [return status] from [main] *)
| Crashed               (* a fault *)
| StoppedInCompile      (* [compile] did not return to [main] *)
| Unfinished.           (* recursion budget of the model exhausted *)

(** [file_error] and [failure]: print and call [exit(0)]. *)
Definition file_error {A : Type} (msg fname : string) : M unit A :=
  fun u => Exit 0 (msg ++ ": " ++ fname)%string u.

Definition failure {A : Type} (msg : string) : M unit A :=
  fun u => Exit 0 msg u.

(** What the C library reports for the file named on the command line. *)
Inductive file_state : Type :=
| FopenFails
| FseekFails
| FtellFails
| FreadFails
| Readable (buffer : string).

(** [read_file]: [buffer] is what can be read at the returned pointer. *)
Definition read_file (filepath : string) (file : file_state) : M unit string :=
  match file with
  | FopenFails => file_error "Failed to open file" filepath
  | FseekFails => file_error "Failed to read file" filepath
  | FtellFails => file_error "Failed to read file" filepath
  | FreadFails => file_error "Failed to read file" filepath
  | Readable buffer => ret buffer
  end.

Definition end_of {S A : Type} (r : result S A) (continue : A -> outcome)
  : outcome :=
  match r with
  | Ok a _ => continue a
  | Exit status _ _ => Exited status
  | Fault => Crashed
  | OutOfFuel => Unfinished
  end.

Section Driver.

(** [compile] is defined in [compiler.c], which is not among these
    sources: only whether it returns to [main] is taken from it. *)
Variable compile_returns : astnode -> bool.

(** [main]: [argc] arguments, [filepath] is [argv[2]] and [file] the state
    of that file; [fuel] bounds the nesting of the parser.  The steps that
    print the source, the tokens, the tree and the code are left out. *)
Definition main (fuel : nat) (argc : Z) (filepath : string)
    (file : file_state) : outcome :=
  if argc <? 3 then Exited 0
  else
    end_of (read_file filepath file tt) (fun src =>
    end_of (lex_source src) (fun tokens =>
    let p := {| position := 0; p_source := src; tokens := tokens |} in
    end_of (parse fuel p) (fun tree =>
    if compile_returns tree then Exited 0 else StoppedInCompile))).

End Driver.

(* ================================================================= *)
(** ** Measures and shapes used in the statements *)

(** Number of characters the cursor can still be moved over. *)
Definition chars_left (lx : lexer) : Z :=
  Z.of_nat (String.length (lx_source lx)) - (char_offset (lx_pos lx) + 2).

(** A state reached by moving the cursor: same buffer, fewer characters
    left. *)
Definition moved (lx lx' : lexer) : Prop :=
  lx_source lx' = lx_source lx /\
  chars_left lx' < chars_left lx /\ 0 <= chars_left lx' /\
  0 <= char_offset (lx_pos lx) + 2.

(** The characters of [pattern] are in the buffer right after the cursor:
    the test [check_pattern] makes before it moves. *)
Definition at_cursor (pattern : string) (lx : lexer) : Prop :=
  pattern_matches (lx_source lx) (char_offset (lx_pos lx) + 1) pattern = Some true.

(** The glyphs of the operator case of the [switch] in [lex]. *)
Definition single_operators : list ascii :=
  ["+"; "-"; "/"; "*"; "%"; "<"; ">"; "&"; "|"; "^"; "~"]%char.

(** Every character of a string passes a test. *)
Fixpoint string_forall (f : ascii -> bool) (s : string) : bool :=
  match s with
  | EmptyString => true
  | String c rest => f c && string_forall f rest
  end.

(** [fuel] iterations suffice for a loop that moves the cursor each time. *)
Definition enough_fuel (fuel : nat) (lx : lexer) : Prop :=
  (1 <= fuel)%nat /\
  (chars_left lx < Z.of_nat fuel \/ char_offset (lx_pos lx) + 2 < 0).

(** Number of tokens of a kind in a vector. *)
Definition count_type (type : lxtype) (tokens : list lxtoken) : nat :=
  List.length (filter (fun tk => lxtype_eqb (tk_type tk) type) tokens).

(** A token [lexify] pushes inside its loop. *)
Definition kept_in_loop (tk : lxtoken) : bool :=
  negb (lxtype_eqb (tk_type tk) LX_EOF)
  && negb (lxtype_eqb (tk_type tk) LX_WHITESPACE)
  && negb (lxtype_eqb (tk_type tk) LX_COMMENT).

(** The lookahead character is the one after the cursor, as [lexer_new]
    and [lexadvance] leave it. *)
Definition cursor_ok (lx : lexer) : Prop :=
  source_at (lx_source lx) (char_offset (lx_pos lx) + 1) = Some (lx_lookahead lx).

(** Values and kinds of a token vector. *)
Definition token_list (tokens : list lxtoken) : list (string * lxtype) :=
  map (fun tk => (tk_value tk, tk_type tk)) tokens.

(* ================================================================= *)
(** ** Sample inputs *)

(** The lexer [main] starts with on a program text. *)
Definition initial_lexer (text : string) : lexer :=
  match lexer_new (c_buffer text) with
  | Some lx => lx
  | None => mk_lexer (mk_lxpos (-1) 0 (-1) 0) (c_buffer text) NUL NUL
  end.

Definition value_of {S A : Type} (r : result S A) (default : A) : A :=
  match r with Ok a _ => a | _ => default end.

Definition state_of {S A : Type} (r : result S A) (default : S) : S :=
  match r with Ok _ s => s | Exit _ _ s => s | _ => default end.

Definition no_token : lxtoken := lxtoken_new "" LX_EOF (mk_lxpos 0 0 0 0).

Definition keyword_lexer : lexer := initial_lexer "include lib".
Definition keyword_token : lxtoken :=
  Eval vm_compute in value_of (lex keyword_lexer) no_token.
Definition keyword_lexer' : lexer :=
  Eval vm_compute in state_of (lex keyword_lexer) keyword_lexer.

Definition assign_lexer : lexer := initial_lexer "<- 1".
Definition assign_token : lxtoken :=
  Eval vm_compute in value_of (lex assign_lexer) no_token.
Definition assign_lexer' : lexer :=
  Eval vm_compute in state_of (lex assign_lexer) assign_lexer.

Definition equality_lexer : lexer := initial_lexer "== 1".

Definition statement_lexer : lexer := initial_lexer "x <- y1 >= 2 # note".
Definition statement_tokens : list lxtoken :=
  Eval vm_compute in value_of (lexify [] statement_lexer) [].
Definition statement_lexer' : lexer :=
  Eval vm_compute in state_of (lexify [] statement_lexer) statement_lexer.

(** An opening quote that is never closed, and the same text followed in
    memory by bytes among which there is a quote. *)
Definition unterminated : string := String dquote "abc".
Definition unterminated_then_quote : string :=
  (unterminated ++ String NUL ("xx" ++ String dquote (String NUL (String NUL ""))))%string.

(* ================================================================= *)
(** ** Relations used for the parser *)

(** [r'] is [r] computed with a larger budget. *)
Definition res_le {S A : Type} (r r' : result S A) : Prop :=
  r = OutOfFuel \/ r = r'.

(** [c], entered at [p], returns [n] and leaves the parser at [p']. *)
Definition parses (c : call) (p : parser) (n : astnode) (p' : parser) : Prop :=
  exists fuel, parse_rec fuel c p = Ok n p'.

(** The parser after [eat] has taken the token under the cursor. *)
Definition advance (p : parser) : parser :=
  {| position := S (position p); p_source := p_source p; tokens := tokens p |}.

(** The binary node [apply_op] builds for [op] over [left] and [right]. *)
Definition binary (op : lxtoken) (left right : astnode) : astnode :=
  astnode_new (tk_value op) AST_BINARY_EXPRESSION (clone_pos (tk_pos op))
              [left; right].

(** [precedence] returns [l] for [op]. *)
Definition level (op : lxtoken) (l : Z) : Prop :=
  forall p, precedence op p = Ok l p.

(** No operator follows: the loop of [parse_expression] is over. *)
Definition expression_ends (p : parser) : Prop :=
  negb (is_empty p) && peek_is LX_OPERATOR p = false.

(** The glyphs [precedence] compares as whole strings. *)
Definition compared_glyphs : list string :=
  ["<="; ">="; "=="; "!="; "&&"; "||"].

(** The characters the [switch] of [precedence] has a case for. *)
Definition switch_characters : list ascii :=
  ["|"; "^"; "&"; "<"; ">"; "+"; "-"; "*"; "/"; "%"]%char.

(** The glyphs of the precedence table with their levels, row by row. *)
Definition precedence_table : list (string * Z) :=
  [("*", 10); ("/", 10); ("%", 10); ("+", 9); ("-", 9);
   ("<", 8); (">", 8); ("<=", 8); (">=", 8); ("==", 7); ("!=", 7);
   ("&", 6); ("^", 5); ("|", 4); ("&&", 3); ("||", 2)].

(** Tokens and parsers for examples; positions play no part in them. *)
Definition token (value : string) (type : lxtype) : lxtoken :=
  lxtoken_new value type (mk_lxpos 0 0 0 0).

Definition operator (value : string) : lxtoken := token value LX_OPERATOR.

Definition parser_on (tokens : list lxtoken) : parser :=
  {| position := 0; p_source := ""; tokens := tokens |}.

Definition parser_at (position : nat) (tokens : list lxtoken) : parser :=
  {| position := position; p_source := ""; tokens := tokens |}.

(** The parser on the [LX_EOF] token that ends [x]. *)
Definition at_eof : parser :=
  parser_at 1 [token "x" LX_SYMBOL; token "" LX_EOF].

(* ================================================================= *)
(** ** The shape of an else-chain *)

(** A node made by [parse_block]. *)
Definition is_block (n : astnode) : Prop :=
  node_value n = "block" /\ node_type n = AST_of_lxtype LX_BLOCK.

(** A right-leaning chain of branches: a conditional branch holds its
    condition, its body block and, when the chain goes on, the next branch as
    its last child; an [alt] branch holds its body block only. *)
Inductive else_chain : astnode -> Prop :=
| chain_conditional pos condition body :
    is_block body ->
    else_chain (astnode_new "conditional" AST_BRANCHES pos [condition; body])
| chain_alt pos body :
    is_block body ->
    else_chain (astnode_new "alt" AST_BRANCHES pos [body])
| chain_link pos condition body next :
    is_block body ->
    else_chain next ->
    else_chain (astnode_new "conditional" AST_BRANCHES pos
                            [condition; body; next]).

(** A conditional branch before the next one is pushed onto it, and the
    branch of a bare [else]. *)
Definition open_conditional (n : astnode) : Prop :=
  exists pos condition body,
    is_block body /\
    n = astnode_new "conditional" AST_BRANCHES pos [condition; body].

Definition closing_alt (n : astnode) : Prop :=
  exists pos body,
    is_block body /\ n = astnode_new "alt" AST_BRANCHES pos [body].

(** The body of a branch in the token vector: newlines, a braced block,
    newlines. *)
Definition body_at (p : parser) (body : astnode) (p' : parser) : Prop :=
  exists p1 lb p2 p3 rb p4,
    strip_newlines p = Ok tt p1 /\
    consume LX_LEFT_BRACE p1 = Ok lb p2 /\
    parses (Block LX_RIGHT_BRACE) p2 body p3 /\
    consume LX_RIGHT_BRACE p3 = Ok rb p4 /\
    strip_newlines p4 = Ok tt p'.

(** The branches that follow the first one, as the grammar has them:
    [{ else [ if Expression ] Block }], nothing being read after a bare
    [else].  The list holds the branches in source order, each with the
    children of its own. *)
Inductive else_branches : parser -> list astnode -> parser -> Prop :=
| branches_end p tk :
    peek p = Some tk -> tk_type tk <> LX_ELSE ->
    else_branches p [] p
| branches_else p kw body p' :
    peek p = Some kw -> tk_type kw = LX_ELSE ->
    peek_is LX_IF (advance p) = false ->
    body_at (advance p) body p' ->
    else_branches p
      [astnode_new "alt" AST_BRANCHES (clone_pos (tk_pos kw)) [body]] p'
| branches_else_if p kw condition p1 body p2 rest p' :
    peek p = Some kw -> tk_type kw = LX_ELSE ->
    peek_is LX_IF (advance p) = true ->
    parses Expression (advance (advance p)) condition p1 ->
    body_at p1 body p2 ->
    else_branches p2 rest p' ->
    else_branches p
      (astnode_new "conditional" AST_BRANCHES (clone_pos (tk_pos kw))
                   [condition; body] :: rest) p'.

(** An if statement in the token vector, with the tree it stands for. *)
Definition if_statement (p : parser) (tree : astnode) (p' : parser) : Prop :=
  exists kw condition p1 body p2 rest,
    peek p = Some kw /\ tk_type kw = LX_IF /\
    parses Expression (advance p) condition p1 /\
    body_at p1 body p2 /\
    else_branches p2 rest p' /\
    tree = link_branches
             (astnode_new "conditional" AST_BRANCHES (clone_pos (tk_pos kw))
                          [condition; body]) rest.

(* ================================================================= *)
(** ** Termination of the parser *)

(** Tokens from the cursor to the end of the vector. *)
Definition remaining (p : parser) : nat :=
  List.length (tokens p) - position p.

(** How many nested calls can follow [c] without a token being taken. *)
Definition rank (c : call) : nat :=
  match c with
  | Block _ => 5
  | BlockLoop _ _ => 4
  | Statement => 3
  | CallArguments _ => 3
  | TableEntries _ => 3
  | Expression => 2
  | Primary => 1
  | _ => 0
  end.

(** The calls that take at least one token when they return. *)
Definition consuming (c : call) : bool :=
  match c with
  | Block _ | BlockLoop _ _ | ExpressionLoop _ _ | ElseLoop _ => false
  | _ => true
  end.

(** A budget that is enough for [c] at [p]. *)
Definition parse_fuel (c : call) (p : parser) : nat :=
  S (rank c + 6 * remaining p).

(** A budget that is enough for [main] on a file. *)
Definition main_fuel (file : file_state) : nat :=
  match file with
  | Readable buffer =>
      match lex_source buffer with
      | Ok tokens _ =>
          parse_fuel (Block LX_EOF)
                     {| position := 0; p_source := buffer; tokens := tokens |}
      | _ => O
      end
  | _ => O
  end.

(* ================================================================= *)
(** ** Exit statuses *)

(** A result that, when it is an [exit], is an [exit(0)]. *)
Definition exit0 {S A : Type} (r : result S A) : Prop :=
  forall status msg s, r = Exit status msg s -> status = 0.

(* ================================================================= *)
(** ** Sample token vectors and runs *)

(** [1 - 2 + 3]. *)
Definition sum_tokens : list lxtoken :=
  [token "1" LX_INTEGER; operator "-"; token "2" LX_INTEGER; operator "+";
   token "3" LX_INTEGER; token "" LX_EOF].

Definition integer (value : string) : astnode :=
  astnode_new value AST_INTEGER (clone_pos (mk_lxpos 0 0 0 0)) [].

(** [if a { } else if b { } else { } else { }]. *)
Definition chain_tokens : list lxtoken :=
  [token "if" LX_IF; token "a" LX_SYMBOL;
   token "" LX_LEFT_BRACE; token "" LX_RIGHT_BRACE;
   token "else" LX_ELSE; token "if" LX_IF; token "b" LX_SYMBOL;
   token "" LX_LEFT_BRACE; token "" LX_RIGHT_BRACE;
   token "else" LX_ELSE; token "" LX_LEFT_BRACE; token "" LX_RIGHT_BRACE;
   token "else" LX_ELSE; token "" LX_LEFT_BRACE; token "" LX_RIGHT_BRACE;
   token "" LX_EOF].

Definition no_node : astnode := astnode_new "" AST_NULL (mk_lxpos 0 0 0 0) [].

Definition chain_tree : astnode :=
  Eval vm_compute in value_of (parse_branching 8 (parser_on chain_tokens)) no_node.

Definition empty_block : astnode :=
  astnode_new "block" (AST_of_lxtype LX_BLOCK) (clone_pos (mk_lxpos 0 0 0 0)) [].

Definition reference (name : string) : astnode :=
  astnode_new name AST_REFERENCE (clone_pos (mk_lxpos 0 0 0 0)) [].

From Stdlib Require Import Sorted.

(* ================================================================= *)
(** ** The text around the cursor of the lexer *)

(** Number of newline characters in a text. *)
Fixpoint newlines (text : string) : Z :=
  match text with
  | EmptyString => 0
  | String c rest => (if Ascii.eqb c newline then 1 else 0) + newlines rest
  end.

(** Number of characters after the last newline of a text: the column
    reached by reading it; [column_from n text] starts in column [n]. *)
Fixpoint column_from (n : Z) (text : string) : Z :=
  match text with
  | EmptyString => n
  | String c rest => column_from (if Ascii.eqb c newline then 0 else n + 1) rest
  end.

Definition column (text : string) : Z := column_from 0 text.

(** The lexer has read [before], and [ahead] is what is left of its buffer;
    its position fields are those of the text read. *)
Definition scanning (lx : lexer) (before ahead : string) : Prop :=
  lx_source lx = (before ++ ahead)%string /\
  (exists rest, ahead = String (lx_lookahead lx) rest) /\
  char_offset (lx_pos lx) = Z.of_nat (String.length before) - 1 /\
  line_pos (lx_pos lx) = newlines before /\
  col_pos (lx_pos lx) = column before - 1 /\
  line_offset (lx_pos lx) = Z.of_nat (String.length before) - column before.

(** A position that points at the text that follows [before] in [source]:
    zero-based offset, line and column, and the offset of the line. *)
Definition located (source : string) (pos : lxpos) (before : string) : Prop :=
  (exists ahead, source = (before ++ ahead)%string) /\
  char_offset pos = Z.of_nat (String.length before) /\
  line_pos pos = newlines before /\
  col_pos pos = column before /\
  line_offset pos = Z.of_nat (String.length before) - column before.

(** The position [lex] gives the token it reads from state [lx]. *)
Definition token_pos (lx : lexer) : lxpos :=
  {| col_pos := col_pos (lx_pos lx) + 1;
     line_pos := line_pos (lx_pos lx);
     char_offset := char_offset (lx_pos lx) + 1;
     line_offset := line_offset (lx_pos lx) |}.

(* ================================================================= *)
(** ** Words and their tokens *)

(** The characters the [switch] of [lex] turns into a token without a value,
    with the kind of that token. *)
Definition plain_kind (c : ascii) : option lxtype :=
  if Ascii.eqb c NUL then Some LX_EOF
  else if Ascii.eqb c newline then Some LX_NEWLINE
  else if Ascii.eqb c " " || Ascii.eqb c carriage_return || Ascii.eqb c tab
  then Some LX_WHITESPACE
  else if Ascii.eqb c "{" then Some LX_LEFT_BRACE
  else if Ascii.eqb c "}" then Some LX_RIGHT_BRACE
  else if Ascii.eqb c "(" then Some LX_LEFT_PAREN
  else if Ascii.eqb c ")" then Some LX_RIGHT_PAREN
  else if Ascii.eqb c "#" then Some LX_COMMENT
  else if Ascii.eqb c "@" then Some LX_CALL
  else if Ascii.eqb c "," then Some LX_SEPARATOR
  else if Ascii.eqb c "$" then Some LX_FUNCTION
  else None.

Definition not_quote (c : ascii) : bool := negb (Ascii.eqb c dquote).

Definition not_nul (c : ascii) : bool := negb (Ascii.eqb c NUL).

Definition not_newline (c : ascii) : bool := negb (Ascii.eqb c newline).

(** A character with which some token starts: one that passes a test of
    [lex] or has a case in its [switch]. *)
Definition starts_token (c : ascii) : bool :=
  isalpha c || Ascii.eqb c "_" || isdigit c || Ascii.eqb c dquote
  || existsb (Ascii.eqb c) single_operators
  || match plain_kind c with Some _ => true | None => false end.

(** The message of the [default] case of [lex]. *)
Definition unidentified : string := "Syntax error! Failed to identify symbol".

(** The token that stands for the word [w] of the source text, with the
    character [next] that follows the word. *)
Inductive token_of (next : ascii) : string -> string -> lxtype -> Prop :=
| word_identifier c rest :
    isalpha c || Ascii.eqb c "_" = true ->
    string_forall ident_char rest = true ->
    ident_char next = false ->
    token_of next (String c rest) (String c rest)
             (determine_nature (String c rest))
| word_integer c rest :
    isdigit c = true ->
    string_forall isdigit rest = true ->
    isdigit next = false ->
    token_of next (String c rest) (String c rest) LX_INTEGER
| word_string body :
    string_forall not_quote body = true ->
    token_of next (String dquote (body ++ String dquote ""))%string
             (cstr body) LX_STRING
| word_assign : token_of next "<-" "" LX_ASSIGN
| word_less_equal : token_of next "<=" "" LX_OPERATOR
| word_greater_equal : token_of next ">=" "" LX_OPERATOR
| word_operator c :
    In c single_operators ->
    (c = "<"%char -> next <> "-"%char /\ next <> "="%char) ->
    (c = ">"%char -> next <> "="%char) ->
    token_of next (String c "") (String c "") LX_OPERATOR
| word_plain c type :
    plain_kind c = Some type ->
    token_of next (String c "") "" type.


(** A token [lexify] leaves out of the vector. *)
Definition skipped (tk : lxtoken) : bool :=
  lxtype_eqb (tk_type tk) LX_WHITESPACE || lxtype_eqb (tk_type tk) LX_COMMENT.

(** The tokens of the consecutive words of a buffer [before ++ ahead], from
    the first word of [ahead] to the first word of kind [LX_EOF]. *)
Inductive words (source : string) : string -> string -> list lxtoken -> Prop :=
| words_last before word next rest tk :
    source = (before ++ word ++ String next rest)%string ->
    token_of next word (tk_value tk) (tk_type tk) ->
    located source (tk_pos tk) before ->
    tk_type tk = LX_EOF ->
    words source before (word ++ String next rest) [tk]
| words_more before word next rest tk tokens :
    source = (before ++ word ++ String next rest)%string ->
    token_of next word (tk_value tk) (tk_type tk) ->
    located source (tk_pos tk) before ->
    tk_type tk <> LX_EOF ->
    words source (before ++ word) (String next rest) tokens ->
    words source before (word ++ String next rest) (tk :: tokens).

(** An identifier: a letter or underscore followed by letters, digits and
    underscores. *)
Definition is_identifier (s : string) : bool :=
  match s with
  | EmptyString => false
  | String c rest => (isalpha c || Ascii.eqb c "_") && string_forall ident_char rest
  end.

(** What the value of a token of each kind looks like. *)
Definition well_formed (tk : lxtoken) : Prop :=
  match tk_type tk with
  | LX_SYMBOL =>
      is_identifier (tk_value tk) = true /\
      ~ In (tk_value tk) ["true"; "false"; "null"; "return"]
  | LX_BOOL => tk_value tk = "true" \/ tk_value tk = "false"
  | LX_NULL => tk_value tk = "null"
  | LX_RETURN => tk_value tk = "return"
  | LX_INTEGER =>
      tk_value tk <> "" /\ string_forall isdigit (tk_value tk) = true
  | LX_STRING => string_forall not_quote (tk_value tk) = true
  | LX_OPERATOR =>
      tk_value tk = "" \/
      exists c, tk_value tk = String c "" /\ In c single_operators
  | LX_ASSIGN | LX_EOF | LX_NEWLINE | LX_LEFT_BRACE | LX_RIGHT_BRACE
  | LX_LEFT_PAREN | LX_RIGHT_PAREN | LX_CALL | LX_SEPARATOR | LX_FUNCTION =>
      tk_value tk = ""
  | _ => False
  end.

(* ================================================================= *)
(** ** [get_line] ([common.c]) *)

(** Size of the buffer [get_line] allocates. *)
Definition LINE_BUF_SIZE : Z := 1000.

(** The characters at which [get_line] stops. *)
Definition line_end (c : ascii) : bool :=
  Ascii.eqb c newline || Ascii.eqb c NUL.

(** The loop of [get_line] and the store of the terminator after it; [i] is
    the length of the filled part of [buf].  A read outside the source or a
    write outside [buf] is a fault. *)
Fixpoint get_line_loop (fuel : nat) (source : string) (start : Z)
    (buf : string) : M unit string :=
  fun u =>
    match fuel with
    | O => OutOfFuel
    | S fuel' =>
        let i := Z.of_nat (String.length buf) in
        match source_at source (start + i) with
        | None => Fault
        | Some c =>
            if LINE_BUF_SIZE <=? i then Fault
            else if negb (Ascii.eqb c newline) && negb (Ascii.eqb c NUL)
            then get_line_loop fuel' source start (buf ++ String c "")%string u
            else Ok buf u
        end
    end.

(** [get_line]: each iteration reads one more character of the source. *)
Definition get_line (source : string) (start : Z) : result unit string :=
  get_line_loop (S (String.length source)) source start "" tt.

Definition not_line_end (c : ascii) : bool := negb (line_end c).

(** The line [lexerror] prints, copied by its call
    [get_line(lx->source, lx->pos.line_offset)] before it reaches
    [exit(0)]. *)
Definition lexerror_line (lx : lexer) : result unit string :=
  get_line (lx_source lx) (line_offset (lx_pos lx)).

(** The line [parsererror] prints, copied by its call
    [get_line(p->source, tk->pos.line_offset)] for the token [tk] under the
    cursor before it reaches [exit(0)]. *)
Definition parsererror_line (p : parser) : result unit string :=
  match peek p with
  | Some tk => get_line (p_source p) (line_offset (tk_pos tk))
  | None => Fault
  end.

(* ================================================================= *)
(** ** More sample inputs *)

(** Two assignments on two lines, and the token of [b]. *)
Definition two_lines : string :=
  ("a <- 1" ++ String newline "b <- a + 2")%string.
Definition two_lines_tokens : list lxtoken :=
  Eval vm_compute in value_of (lex_source (c_buffer two_lines)) [].
Definition two_lines_lexer' : lexer :=
  Eval vm_compute in state_of (lex_source (c_buffer two_lines)) (initial_lexer "").
Definition second_line_token : lxtoken :=
  Eval vm_compute in nth 4 two_lines_tokens no_token.

(** [n+1] and its tokens. *)
Definition sum_buffer : string := c_buffer "n+1".
Definition sum_words : list lxtoken :=
  Eval vm_compute in value_of (lex_source sum_buffer) [].

(** A text with a character the lexer does not know. *)
Definition unknown_buffer : string := c_buffer "x <- 1 ? 2".
Definition unknown_lexer' : lexer :=
  Eval vm_compute in state_of (lex_source unknown_buffer) (initial_lexer "").

(** A line of 1000 spaces and one more character, with the state in which
    the lexer stops on [?] and the parser on the tokens of the line that
    ends with [)]. *)
Fixpoint spaces (n : nat) : string :=
  match n with
  | O => ""
  | S n' => String " " (spaces n')
  end.

Definition long_line (last : string) : string := (spaces 1000 ++ last)%string.

Definition unknown_line_lexer : lexer :=
  Eval vm_compute in
    state_of (lex_source (c_buffer (long_line "?"))) (initial_lexer "").

Definition stray_line_tokens : list lxtoken :=
  Eval vm_compute in value_of (lex_source (c_buffer (long_line ")"))) [].

Definition stray_line_parser : parser :=
  {| position := 0; p_source := c_buffer (long_line ")");
     tokens := stray_line_tokens |}.

(* ================================================================= *)
(** ** Token vectors that end with [LX_EOF] *)


(** A state the parser reaches from [p0]: the same vector and source, the
    cursor not before that of [p0]. *)
Definition follows (p0 p : parser) : Prop :=
  tokens p = tokens p0 /\ p_source p = p_source p0 /\
  (position p0 <= position p)%nat.

(** The parser [k] tokens further. *)
Definition moved_by (k : nat) (p : parser) : parser :=
  {| position := position p + k; p_source := p_source p; tokens := tokens p |}.

(* ================================================================= *)
(** ** Chains of binary operators *)

(** What [parse_expression] reads after its first operand: operator tokens,
    each with its level and the operand [parse_primary] returns after it,
    up to a token that is no operator. *)
Inductive operands : parser -> list (lxtoken * Z * astnode) -> parser -> Prop :=
| operands_end p : expression_ends p -> operands p [] p
| operands_more p op l a p1 rest p' :
    peek p = Some op -> tk_type op = LX_OPERATOR -> level op l ->
    parses Primary (advance p) a p1 ->
    operands p1 rest p' ->
    operands p ((op, l, a) :: rest) p'.

Definition chain_operator (item : lxtoken * Z * astnode) : lxtoken :=
  fst (fst item).
Definition chain_operand (item : lxtoken * Z * astnode) : astnode := snd item.

(** [((first op1 a1) op2 a2) ...]. *)
Definition left_fold (first : astnode) (rest : list (lxtoken * Z * astnode))
  : astnode :=
  fold_left (fun acc item => binary (chain_operator item) acc (chain_operand item))
            rest first.

(** [first op1 (a1 op2 (a2 ...))]. *)
Fixpoint right_fold (first : astnode) (rest : list (lxtoken * Z * astnode))
  : astnode :=
  match rest with
  | [] => first
  | item :: rest' =>
      binary (chain_operator item) first (right_fold (chain_operand item) rest')
  end.

(** No operator of the chain has a higher level than the one before it,
    [l] being the level before the chain. *)
Fixpoint falling (l : Z) (rest : list (lxtoken * Z * astnode)) : Prop :=
  match rest with
  | [] => True
  | (_, l', _) :: rest' => l' <= l /\ falling l' rest'
  end.

(** Every operator of the chain has a higher level than the one before it. *)
Fixpoint rising (l : Z) (rest : list (lxtoken * Z * astnode)) : Prop :=
  match rest with
  | [] => True
  | (_, l', _) :: rest' => l < l' /\ rising l' rest'
  end.

Definition levels_fall (rest : list (lxtoken * Z * astnode)) : Prop :=
  match rest with
  | [] => True
  | (_, l, _) :: rest' => falling l rest'
  end.

Definition levels_rise (rest : list (lxtoken * Z * astnode)) : Prop :=
  match rest with
  | [] => True
  | (_, l, _) :: rest' => rising l rest'
  end.

(* ================================================================= *)
(** ** The syntax of calls and function definitions *)

(** The test [!is_empty(p) && peek(p)->type == type]. *)
Definition at_token (type : lxtype) (p : parser) : bool :=
  negb (is_empty p) && peek_is type p.

(** Expressions separated by [LX_SEPARATOR] tokens, with the nodes
    [parse_expression] returns for them. *)
Inductive arguments : parser -> list astnode -> parser -> Prop :=
| arguments_last p a p1 :
    parses Expression p a p1 ->
    at_token LX_SEPARATOR p1 = false ->
    arguments p [a] p1
| arguments_more p a p1 rest p' :
    parses Expression p a p1 ->
    at_token LX_SEPARATOR p1 = true ->
    arguments (advance p1) rest p' ->
    arguments p (a :: rest) p'.

(** [@ callee ( arguments )]: the node of the call carries the value and
    position of the first token of the callee. *)
Definition call_syntax (p : parser) (n : astnode) (p' : parser) : Prop :=
  exists name callee p1 args p2,
    at_token LX_CALL p = true /\
    peek (advance p) = Some name /\
    parses Expression (advance p) callee p1 /\
    at_token LX_LEFT_PAREN p1 = true /\
    (negb (is_empty (advance p1))
     && negb (peek_is LX_RIGHT_PAREN (advance p1)) = false
     /\ args = [] /\ p2 = advance p1
     \/ negb (is_empty (advance p1))
        && negb (peek_is LX_RIGHT_PAREN (advance p1)) = true
        /\ arguments (advance p1) args p2) /\
    at_token LX_RIGHT_PAREN p2 = true /\
    p' = advance p2 /\
    n = astnode_new (tk_value name) AST_CALL (clone_pos (tk_pos name))
                    (callee :: args).

(** Symbols separated by [LX_SEPARATOR] tokens. *)
Inductive parameters : parser -> list lxtoken -> parser -> Prop :=
| parameters_last p tk :
    at_token LX_SYMBOL p = true -> peek p = Some tk ->
    at_token LX_SEPARATOR (advance p) = false ->
    parameters p [tk] (advance p)
| parameters_more p tk rest p' :
    at_token LX_SYMBOL p = true -> peek p = Some tk ->
    at_token LX_SEPARATOR (advance p) = true ->
    parameters (advance (advance p)) rest p' ->
    parameters p (tk :: rest) p'.

Definition parameter_node (tk : lxtoken) : astnode :=
  astnode_new (tk_value tk) AST_PARAM (clone_pos (tk_pos tk)) [].

(** Newlines, [{], a block up to [}], and [}]. *)
Definition braced (p : parser) (block : astnode) (p' : parser) : Prop :=
  exists p1 p2,
    strip_newlines p = Ok tt p1 /\
    at_token LX_LEFT_BRACE p1 = true /\
    parses (Block LX_RIGHT_BRACE) (advance p1) block p2 /\
    at_token LX_RIGHT_BRACE p2 = true /\
    p' = advance p2.

(** [$ ( parameters ) { block }]. *)
Definition definition_syntax (p : parser) (n : astnode) (p' : parser) : Prop :=
  exists fn lp tk params p2 block,
    at_token LX_FUNCTION p = true /\ peek p = Some fn /\
    at_token LX_LEFT_PAREN (advance p) = true /\ peek (advance p) = Some lp /\
    peek (advance (advance p)) = Some tk /\
    (tk_type tk = LX_RIGHT_PAREN /\ params = [] /\ p2 = advance (advance p)
     \/ tk_type tk <> LX_RIGHT_PAREN
        /\ parameters (advance (advance p)) params p2) /\
    at_token LX_RIGHT_PAREN p2 = true /\
    braced (advance p2) block p' /\
    n = astnode_new "code" AST_FUNCTION (clone_pos (tk_pos fn))
          [astnode_new "args" AST_PARAMS (clone_pos (tk_pos lp))
                       (map parameter_node params);
           block].

(** [loop condition { block }]. *)
Definition loop_syntax (p : parser) (n : astnode) (p' : parser) : Prop :=
  exists kw condition p1 block,
    at_token LX_LOOP p = true /\ peek p = Some kw /\
    parses Expression (advance p) condition p1 /\
    braced p1 block p' /\
    n = astnode_new "loop" AST_LOOP (clone_pos (tk_pos kw)) [condition; block].

(* ================================================================= *)
(** ** The syntax of blocks and tables *)

(** Statements up to the token [terminal] or the end of the input, with
    the newlines after each of them. *)
Inductive statements (terminal : lxtype)
  : parser -> list astnode -> parser -> Prop :=
| statements_end p :
    negb (is_empty p) && negb (peek_is terminal p) = false ->
    statements terminal p [] p
| statements_more p st p1 p2 rest p' :
    negb (is_empty p) && negb (peek_is terminal p) = true ->
    parses Statement p st p1 ->
    strip_newlines p1 = Ok tt p2 ->
    statements terminal p2 rest p' ->
    statements terminal p (st :: rest) p'.

Definition block_syntax (terminal : lxtype) (p : parser) (n : astnode)
    (p' : parser) : Prop :=
  exists tk p1 sts,
    peek p = Some tk /\
    strip_newlines p = Ok tt p1 /\
    statements terminal p1 sts p' /\
    n = astnode_new "block" (AST_of_lxtype LX_BLOCK) (clone_pos (tk_pos tk)) sts.

(** The index after the name of a table: [[ key ]], [. symbol] or nothing. *)
Definition key_syntax (p : parser) (key : list astnode) (p' : parser) : Prop :=
  (exists e p1,
      at_token LX_LEFT_SQUARE p = true /\
      parses Expression (advance p) e p1 /\
      at_token LX_RIGHT_SQUARE p1 = true /\
      key = [e] /\ p' = advance p1)
  \/ (exists tk,
         at_token LX_LEFT_SQUARE p = false /\ at_token LX_DOT p = true /\
         at_token LX_SYMBOL (advance p) = true /\
         peek (advance p) = Some tk /\
         key = [astnode_new (tk_value tk) AST_STRING (clone_pos (tk_pos tk)) []] /\
         p' = advance (advance p))
  \/ (at_token LX_LEFT_SQUARE p = false /\ at_token LX_DOT p = false /\
      key = [] /\ p' = p).

(** [name], [name [ key ]] or [name . symbol]. *)
Definition get_syntax (p : parser) (n : astnode) (p' : parser) : Prop :=
  exists var key,
    at_token LX_SYMBOL p = true /\ peek p = Some var /\
    key_syntax (advance p) key p' /\
    n = astnode_new (tk_value var) AST_GET (clone_pos (tk_pos var)) key.

(** [name <- e], [name [ key ] <- e] or [name . symbol <- e]. *)
Definition put_syntax (p : parser) (n : astnode) (p' : parser) : Prop :=
  exists var key p1 e,
    at_token LX_SYMBOL p = true /\ peek p = Some var /\
    key_syntax (advance p) key p1 /\
    at_token LX_ASSIGN p1 = true /\
    parses Expression (advance p1) e p' /\
    n = astnode_new (tk_value var) AST_PUT (clone_pos (tk_pos var)) (key ++ [e]).

(** One entry [key : value] of a table, with the newlines around it. *)
Definition entry_syntax (p : parser) (element : astnode) (p' : parser) : Prop :=
  exists p1 tk key p2 val p3,
    strip_newlines p = Ok tt p1 /\
    peek p1 = Some tk /\
    parses Expression p1 key p2 /\
    at_token LX_COLON p2 = true /\
    parses Expression (advance p2) val p3 /\
    strip_newlines p3 = Ok tt p' /\
    element = astnode_new "pair" AST_KV_PAIR (clone_pos (tk_pos tk)) [key; val].

(** Entries separated by [LX_SEPARATOR] tokens. *)
Inductive entries : parser -> list astnode -> parser -> Prop :=
| entries_last p element p1 :
    entry_syntax p element p1 ->
    at_token LX_SEPARATOR p1 = false ->
    entries p [element] p1
| entries_more p element p1 rest p' :
    entry_syntax p element p1 ->
    at_token LX_SEPARATOR p1 = true ->
    entries (advance p1) rest p' ->
    entries p (element :: rest) p'.

(** [{ key : value , ... }]. *)
Definition table_syntax (p : parser) (n : astnode) (p' : parser) : Prop :=
  exists lb p1 tk elements p2,
    at_token LX_LEFT_BRACE p = true /\ peek p = Some lb /\
    strip_newlines (advance p) = Ok tt p1 /\
    peek p1 = Some tk /\
    (tk_type tk = LX_RIGHT_BRACE /\ elements = [] /\ p2 = p1
     \/ tk_type tk <> LX_RIGHT_BRACE /\ entries p1 elements p2) /\
    at_token LX_RIGHT_BRACE p2 = true /\
    p' = advance p2 /\
    n = astnode_new "table" AST_TABLE (clone_pos (tk_pos lb)) elements.

(* ================================================================= *)
(** ** [strhash] ([common.c]) *)

Section Hash.

(** The width of [size_t] and the signedness of [char] are left to the
    platform by the C standard. *)
Variable size_bits : nat.
Variable char_signed : bool.

(** Conversion to [size_t]. *)
Definition to_size (n : Z) : Z := n mod 2 ^ Z.of_nat size_bits.

(** [c = *str], a [char] converted to [int]. *)
Definition char_to_int (c : ascii) : Z :=
  let n := Z.of_nat (nat_of_ascii c) in
  if char_signed && (128 <=? n) then n - 256 else n.

(** [hash = ((hash << 5) + hash) + c] in [size_t] arithmetic. *)
Definition hash_step (hash : Z) (c : ascii) : Z :=
  to_size (to_size (to_size (Z.shiftl hash 5) + hash) + to_size (char_to_int c)).

(** The loop of [strhash] over the bytes readable at [str]; reading past
    them is a fault. *)
Fixpoint strhash_loop (str : string) (hash : Z) : M unit Z :=
  match str with
  | EmptyString => fun _ => Fault
  | String c rest =>
      if Ascii.eqb c NUL then ret hash else strhash_loop rest (hash_step hash c)
  end.

(** [strhash]: [size_t hash = 5381] and the loop. *)
Definition strhash (str : string) : result unit Z :=
  strhash_loop str (to_size 5381) tt.

(** [hash * 33 + c] for every character of a text, without wrap-around. *)
Definition djb2 (text : string) : Z :=
  fold_left (fun hash c => hash * 33 + char_to_int c)
            (list_ascii_of_string text) 5381.

End Hash.

(* ================================================================= *)
(** ** Sample token vectors *)

(** The parser on the tokens of the two assignments, and its run. *)
Definition two_lines_parser : parser := parser_on two_lines_tokens.
Definition two_lines_tree : astnode :=
  Eval vm_compute in value_of (parse 80 two_lines_parser) no_node.
Definition two_lines_parser' : parser :=
  Eval vm_compute in state_of (parse 80 two_lines_parser) two_lines_parser.


(** [8 - 4 + 2 - 1] and [1 | 2 + 3 * 4]. *)
Definition falling_tokens : list lxtoken :=
  [token "8" LX_INTEGER; operator "-"; token "4" LX_INTEGER; operator "+";
   token "2" LX_INTEGER; operator "-"; token "1" LX_INTEGER; token "" LX_EOF].

Definition falling_chain : list (lxtoken * Z * astnode) :=
  [(operator "-", 9, integer "4"); (operator "+", 9, integer "2");
   (operator "-", 9, integer "1")].

Definition rising_tokens : list lxtoken :=
  [token "1" LX_INTEGER; operator "|"; token "2" LX_INTEGER; operator "+";
   token "3" LX_INTEGER; operator "*"; token "4" LX_INTEGER; token "" LX_EOF].

Definition rising_chain : list (lxtoken * Z * astnode) :=
  [(operator "|", 4, integer "2"); (operator "+", 9, integer "3");
   (operator "*", 10, integer "4")].

(** [@f(1, x)]. *)
Definition call_tokens : list lxtoken :=
  [token "" LX_CALL; token "f" LX_SYMBOL; token "" LX_LEFT_PAREN;
   token "1" LX_INTEGER; token "" LX_SEPARATOR; token "x" LX_SYMBOL;
   token "" LX_RIGHT_PAREN; token "" LX_EOF].
Definition call_tree : astnode :=
  Eval vm_compute in
    value_of (parse_rec 20 FunctionCall (parser_on call_tokens)) no_node.

(** [$(a, b) { }]. *)
Definition definition_tokens : list lxtoken :=
  [token "" LX_FUNCTION; token "" LX_LEFT_PAREN; token "a" LX_SYMBOL;
   token "" LX_SEPARATOR; token "b" LX_SYMBOL; token "" LX_RIGHT_PAREN;
   token "" LX_LEFT_BRACE; token "" LX_RIGHT_BRACE; token "" LX_EOF].
Definition definition_tree : astnode :=
  Eval vm_compute in
    value_of (parse_rec 20 FunctionDefinition (parser_on definition_tokens))
             no_node.

(** [loop x { }]. *)
Definition loop_tokens : list lxtoken :=
  [token "loop" LX_LOOP; token "x" LX_SYMBOL; token "" LX_LEFT_BRACE;
   token "" LX_RIGHT_BRACE; token "" LX_EOF].
Definition loop_tree : astnode :=
  Eval vm_compute in
    value_of (parse_rec 20 Loop (parser_on loop_tokens)) no_node.

(** [t.k]. *)
Definition field_tokens : list lxtoken :=
  [token "t" LX_SYMBOL; token "" LX_DOT; token "k" LX_SYMBOL; token "" LX_EOF].
Definition field_tree : astnode :=
  Eval vm_compute in
    value_of (parse_rec 20 TableGet (parser_on field_tokens)) no_node.

(** [{ 1 : 2 }]. *)
Definition table_tokens : list lxtoken :=
  [token "" LX_LEFT_BRACE; token "1" LX_INTEGER; token "" LX_COLON;
   token "2" LX_INTEGER; token "" LX_RIGHT_BRACE; token "" LX_EOF].
Definition table_tree : astnode :=
  Eval vm_compute in
    value_of (parse_rec 20 TableInstance (parser_on table_tokens)) no_node.

(* ================================================================= *)
(** ** The grouping of an expression *)

(** Operand nodes joined by binary operators with their levels. *)
Inductive grouping : Type :=
| Operand (a : astnode)
| Joined (op : lxtoken) (l : Z) (lhs rhs : grouping).

(** The tree [apply_op] builds for a grouping. *)
Fixpoint grouping_node (t : grouping) : astnode :=
  match t with
  | Operand a => a
  | Joined op _ lhs rhs =>
      binary op (grouping_node lhs) (grouping_node rhs)
  end.

(** A grouping read from left to right: its first operand, then each
    operator with its level and the operand after it. *)
Fixpoint first_operand (t : grouping) : astnode :=
  match t with
  | Operand a => a
  | Joined _ _ lhs _ => first_operand lhs
  end.

Fixpoint chain_of (t : grouping) : list (lxtoken * Z * astnode) :=
  match t with
  | Operand _ => []
  | Joined op l lhs rhs =>
      chain_of lhs ++ (op, l, first_operand rhs) :: chain_of rhs
  end.

Definition chain_level (item : lxtoken * Z * astnode) : Z := snd (fst item).

(** Every operator of [t] has a level of at least [l], or above [l]. *)
Definition at_least (l : Z) (t : grouping) : Prop :=
  Forall (fun item => l <= chain_level item) (chain_of t).
Definition above (l : Z) (t : grouping) : Prop :=
  Forall (fun item => l < chain_level item) (chain_of t).

(** Precedence is respected: under every operator, the operators of the
    right operand bind tighter, and those of the left operand at least as
    tight (so that operators of one level group to the left). *)
Fixpoint grouped (t : grouping) : Prop :=
  match t with
  | Operand _ => True
  | Joined _ l lhs rhs =>
      grouped lhs /\ grouped rhs /\ at_least l lhs /\ above l rhs
  end.

(** The two stacks of [parse_expression], top first: each operator on the
    operator stack with its level and the operand below it; [top] is the
    last operand. *)
Definition pending : Type := list (grouping * lxtoken * Z).

Definition stack_operands (s : pending) (top : grouping) : list astnode :=
  map (fun e => grouping_node (fst (fst e))) (rev s) ++ [grouping_node top].

Definition stack_operators (s : pending) : list lxtoken :=
  map (fun e => snd (fst e)) (rev s).

(** What the inner loop of [parse_expression] does for an operator of level
    [l], and what the last loop does. *)
Fixpoint pop_while (l : Z) (s : pending) (top : grouping)
  : pending * grouping :=
  match s with
  | [] => ([], top)
  | (t, op, lo) :: s' =>
      if l <=? lo then pop_while l s' (Joined op lo t top) else (s, top)
  end.

Fixpoint close (s : pending) (top : grouping) : grouping :=
  match s with
  | [] => top
  | (t, op, lo) :: s' => close s' (Joined op lo t top)
  end.

(** The levels on the operator stack rise strictly towards the top, every
    operand is grouped, binds tighter than the operator below it and at
    least as tight as the operator above it. *)
Fixpoint stacked (s : pending) (top : grouping) : Prop :=
  match s with
  | [] => grouped top
  | (t, op, lo) :: s' =>
      level op lo /\ grouped top /\ above lo top /\ at_least lo t /\
      match s' with
      | [] => True
      | (_, _, l') :: _ => l' < lo
      end /\
      stacked s' t
  end.

(** The stacks read from the bottom to the top. *)
Fixpoint stack_first (s : pending) (top : grouping) : astnode :=
  match s with
  | [] => first_operand top
  | (t, _, _) :: s' => stack_first s' t
  end.

Fixpoint stack_chain (s : pending) (top : grouping)
  : list (lxtoken * Z * astnode) :=
  match s with
  | [] => chain_of top
  | (t, op, lo) :: s' =>
      stack_chain s' t ++ (op, lo, first_operand top) :: chain_of top
  end.

(* ================================================================= *)
(** ** The shape of syntax trees *)

(** The node types of expressions ([parse_primary], [apply_op]) and of
    statements ([parse_statement]). *)
Definition is_expression (t : asttype) : bool :=
  match t with
  | AST_INTEGER | AST_FLOAT | AST_BOOL | AST_STRING | AST_NULL
  | AST_REFERENCE | AST_TABLE | AST_GET | AST_FUNCTION | AST_CALL
  | AST_UNARY_EXPRESSION | AST_BINARY_EXPRESSION => true
  | _ => false
  end.

Definition is_statement (t : asttype) : bool :=
  match t with
  | AST_ASSIGN | AST_PUT | AST_CALL | AST_LOOP | AST_BRANCHES
  | AST_INCLUDE | AST_RETURN => true
  | _ => false
  end.

Definition is_block_type (t : asttype) : bool :=
  match t with AST_of_lxtype LX_BLOCK => true | _ => false end.
Definition is_AST_CALL (t : asttype) : bool :=
  match t with AST_CALL => true | _ => false end.
Definition is_AST_FUNCTION (t : asttype) : bool :=
  match t with AST_FUNCTION => true | _ => false end.
Definition is_AST_PARAMS (t : asttype) : bool :=
  match t with AST_PARAMS => true | _ => false end.
Definition is_AST_PARAM (t : asttype) : bool :=
  match t with AST_PARAM => true | _ => false end.
Definition is_AST_LOOP (t : asttype) : bool :=
  match t with AST_LOOP => true | _ => false end.
Definition is_AST_BRANCHES (t : asttype) : bool :=
  match t with AST_BRANCHES => true | _ => false end.
Definition is_AST_TABLE (t : asttype) : bool :=
  match t with AST_TABLE => true | _ => false end.
Definition is_AST_KV_PAIR (t : asttype) : bool :=
  match t with AST_KV_PAIR => true | _ => false end.
Definition is_AST_PUT (t : asttype) : bool :=
  match t with AST_PUT => true | _ => false end.
Definition is_AST_GET (t : asttype) : bool :=
  match t with AST_GET => true | _ => false end.

(** The children a node of each type is given, by the types of the
    children: how many, and of which kind. *)
Definition shape (value : string) (type : asttype) (children : list asttype)
  : bool :=
  match type with
  | AST_INTEGER | AST_FLOAT | AST_BOOL | AST_STRING | AST_NULL
  | AST_REFERENCE | AST_PARAM =>
      match children with [] => true | _ => false end
  | AST_UNARY_EXPRESSION | AST_ASSIGN | AST_RETURN | AST_GET =>
      match children with [e] => is_expression e | _ => false end
  | AST_BINARY_EXPRESSION | AST_KV_PAIR | AST_PUT =>
      match children with
      | [a; b] => is_expression a && is_expression b
      | _ => false
      end
  | AST_INCLUDE =>
      match children with [path] => is_AST_STRING path | _ => false end
  | AST_CALL =>
      match children with
      | [] => false
      | _ => forallb is_expression children
      end
  | AST_FUNCTION =>
      match children with
      | [params; body] => is_AST_PARAMS params && is_block_type body
      | _ => false
      end
  | AST_PARAMS => forallb is_AST_PARAM children
  | AST_LOOP =>
      match children with
      | [condition; body] => is_expression condition && is_block_type body
      | _ => false
      end
  | AST_BRANCHES =>
      match children with
      | [body] => streq value "alt" && is_block_type body
      | [condition; body] =>
          negb (streq value "alt") && is_expression condition
          && is_block_type body
      | [condition; body; next] =>
          negb (streq value "alt") && is_expression condition
          && is_block_type body && is_AST_BRANCHES next
      | _ => false
      end
  | AST_TABLE => forallb is_AST_KV_PAIR children
  | AST_of_lxtype LX_BLOCK => forallb is_statement children
  | _ => false
  end.

(** Every node of the tree has the children of its type. *)
Fixpoint shaped (n : astnode) : bool :=
  match n with
  | astnode_new value type _ children =>
      forallb shaped children && shape value type (map node_type children)
  end.

(** The node types a parsing function returns. *)
Definition returns (c : call) (t : asttype) : bool :=
  match c with
  | Block _ | BlockLoop _ _ => is_block_type t
  | Statement => is_statement t
  | Expression | ExpressionLoop _ _ | Primary => is_expression t
  | FunctionCall | CallArguments _ => is_AST_CALL t
  | FunctionDefinition => is_AST_FUNCTION t
  | Parameters _ => is_AST_PARAMS t
  | Loop => is_AST_LOOP t
  | Branching | ElseLoop _ => is_AST_BRANCHES t
  | TableInstance | TableEntries _ => is_AST_TABLE t
  | TablePut => is_AST_PUT t
  | TableGet => is_AST_GET t
  end.

(** A branch the loop of [parse_branching] may still hang a branch on. *)
Definition open_branch (n : astnode) : bool :=
  shaped n && is_AST_BRANCHES (node_type n)
  && (List.length (node_children n) =? 2)%nat.

(** The token after the cursor opens an index: [parse_statement] and
    [parse_primary] test it before they call [parse_table_put] and
    [parse_table_get]. *)
Definition indexed (p : parser) : bool :=
  match lookahead p with
  | Some la =>
      lxtype_eqb (tk_type la) LX_LEFT_SQUARE || lxtype_eqb (tk_type la) LX_DOT
  | None => false
  end.

(** What holds when a parsing function or one of its loops is entered: the
    node a loop fills, or the operands it has stacked, are in shape. *)
Definition entered (c : call) (p : parser) : Prop :=
  match c with
  | BlockLoop _ node | CallArguments node | Parameters node
  | TableEntries node =>
      shaped node = true /\ returns c (node_type node) = true
  | ExpressionLoop primaries _ =>
      forallb (fun n => shaped n && is_expression (node_type n)) primaries
      = true
  | ElseLoop chain => forallb open_branch chain = true
  | TablePut | TableGet => indexed p = true
  | _ => True
  end.

(** [1 + 2 * 3 - 4 | 5]. *)
Definition mixed_tokens : list lxtoken :=
  [token "1" LX_INTEGER; operator "+"; token "2" LX_INTEGER; operator "*";
   token "3" LX_INTEGER; operator "-"; token "4" LX_INTEGER; operator "|";
   token "5" LX_INTEGER; token "" LX_EOF].

Definition mixed_chain : list (lxtoken * Z * astnode) :=
  [(operator "+", 9, integer "2"); (operator "*", 10, integer "3");
   (operator "-", 9, integer "4"); (operator "|", 4, integer "5")].

(** [x <- $(a) { ret @f(a) + 1 }]. *)
Definition function_program : list lxtoken :=
  [token "x" LX_SYMBOL; token "" LX_ASSIGN; token "" LX_FUNCTION;
   token "" LX_LEFT_PAREN; token "a" LX_SYMBOL; token "" LX_RIGHT_PAREN;
   token "" LX_LEFT_BRACE; token "" LX_RETURN; token "" LX_CALL;
   token "f" LX_SYMBOL; token "" LX_LEFT_PAREN; token "a" LX_SYMBOL;
   token "" LX_RIGHT_PAREN; operator "+"; token "1" LX_INTEGER;
   token "" LX_RIGHT_BRACE; token "" LX_EOF].
Definition function_program_tree : astnode :=
  Eval vm_compute in
    value_of (parse_rec 40 (Block LX_EOF) (parser_on function_program)) no_node.
(* ================================================================= *)
(** * Facts *)

(* ----------------------------------------------------------------- *)
(** ** The source buffer and the cursor *)

Lemma string_get_bound (s : string) (n : nat) (c : ascii) :
  String.get n s = Some c -> (n < String.length s)%nat.
Proof.
  revert n; induction s as [|d s IH]; intros n H; simpl in *.
  - discriminate.
  - destruct n as [|n]; [lia|]. apply IH in H. lia.
Qed.

Lemma source_at_bound (s : string) (i : Z) (c : ascii) :
  source_at s i = Some c -> 0 <= i < Z.of_nat (String.length s).
Proof.
  unfold source_at. destruct (i <? 0) eqn:E; [discriminate|].
  intros H. apply string_get_bound in H. lia.
Qed.

(* ----------------------------------------------------------------- *)
(** ** Sequencing *)

Lemma bind_ok_inv {S A B : Type} (m : M S A) (k : A -> M S B) s b s' :
  bind m k s = Ok b s' ->
  exists a s1, m s = Ok a s1 /\ k a s1 = Ok b s'.
Proof.
  unfold bind. destruct (m s) as [a s1| | |]; try discriminate.
  intros H. exists a, s1. split; [reflexivity | exact H].
Qed.

Lemma bind_ok {S A B : Type} (m : M S A) (k : A -> M S B) s a s1 :
  m s = Ok a s1 -> bind m k s = k a s1.
Proof. unfold bind. intros ->. reflexivity. Qed.

Lemma bind_exit_inv {S A B : Type} (m : M S A) (k : A -> M S B) s st msg s' :
  bind m k s = Exit st msg s' ->
  m s = Exit st msg s' \/ exists a s1, m s = Ok a s1 /\ k a s1 = Exit st msg s'.
Proof.
  unfold bind. destruct (m s) as [a s1|st1 msg1 s1| |]; try discriminate.
  - intros H. right. exists a, s1. split; [reflexivity | exact H].
  - intros H. injection H as -> -> ->. left. reflexivity.
Qed.

Lemma bind_fuel_inv {S A B : Type} (m : M S A) (k : A -> M S B) s :
  bind m k s = OutOfFuel ->
  m s = OutOfFuel \/ exists a s1, m s = Ok a s1 /\ k a s1 = OutOfFuel.
Proof.
  unfold bind. destruct (m s) as [a s1| | |]; try discriminate.
  - intros H. right. exists a, s1. split; [reflexivity | exact H].
  - intros _. left. reflexivity.
Qed.

(* ----------------------------------------------------------------- *)
(** ** Moving the cursor *)

Lemma lexadvance_ok lx c lx' :
  lexadvance lx = Ok c lx' ->
  c = lx_lookahead lx /\ lx_current lx' = c /\
  lx_source lx' = lx_source lx /\
  char_offset (lx_pos lx') = char_offset (lx_pos lx) + 1 /\
  source_at (lx_source lx) (char_offset (lx_pos lx) + 2) = Some (lx_lookahead lx').
Proof.
  unfold lexadvance.
  replace (char_offset (lx_pos lx) + 1 + 1) with (char_offset (lx_pos lx) + 2) by lia.
  destruct (source_at (lx_source lx) (char_offset (lx_pos lx) + 2)) as [la|] eqn:E;
    [|discriminate].
  intros H. injection H as <- <-. simpl.
  repeat split; try reflexivity.
  destruct (Ascii.eqb (lx_lookahead lx) newline); reflexivity.
Qed.

Lemma lexadvance_not_exit lx st msg lx' : lexadvance lx <> Exit st msg lx'.
Proof.
  unfold lexadvance.
  destruct (source_at (lx_source lx) (char_offset (lx_pos lx) + 1 + 1)); discriminate.
Qed.

Lemma lexadvance_not_fuel lx : lexadvance lx <> OutOfFuel.
Proof.
  unfold lexadvance.
  destruct (source_at (lx_source lx) (char_offset (lx_pos lx) + 1 + 1)); discriminate.
Qed.

Lemma lexadvance_left lx c lx' :
  lexadvance lx = Ok c lx' ->
  lx_source lx' = lx_source lx /\
  chars_left lx' = chars_left lx - 1 /\ 0 <= chars_left lx'.
Proof.
  intros H. apply lexadvance_ok in H as (_ & _ & Hs & Ho & Hl).
  apply source_at_bound in Hl. unfold chars_left. rewrite Hs, Ho.
  repeat split; lia.
Qed.

Lemma moved_trans a b c : moved a b -> moved b c -> moved a c.
Proof.
  unfold moved. intros (Hs1 & Hl1 & Hp1 & Ho1) (Hs2 & Hl2 & Hp2 & Ho2).
  repeat split; [congruence | lia | lia | lia].
Qed.

Lemma lexadvance_moved lx c lx' : lexadvance lx = Ok c lx' -> moved lx lx'.
Proof.
  intros H. pose proof (lexadvance_left _ _ _ H) as (Hs & Hl & Hp).
  apply lexadvance_ok in H as (_ & _ & _ & _ & Hb).
  apply source_at_bound in Hb.
  repeat split; [exact Hs | lia | exact Hp | lia].
Qed.

Lemma string_forall_app f a b :
  string_forall f (a ++ b)%string = string_forall f a && string_forall f b.
Proof.
  induction a as [|c a IH]; simpl; [reflexivity|].
  rewrite IH. apply andb_assoc.
Qed.

Lemma string_app_assoc (a b c : string) :
  ((a ++ b) ++ c = a ++ (b ++ c))%string.
Proof. induction a as [|x a IH]; simpl; [reflexivity | now rewrite IH]. Qed.

(* ----------------------------------------------------------------- *)
(** ** The loops of [lex] *)

Lemma enough_fuel_moved fuel lx lx' :
  enough_fuel (S fuel) lx -> moved lx lx' -> enough_fuel fuel lx'.
Proof.
  intros [H1 Hl] (Hs & Hlt & Hp & Ho).
  unfold enough_fuel. split; [lia | left; lia].
Qed.

Lemma enough_fuel_weaken fuel lx lx' :
  enough_fuel fuel lx -> moved lx lx' -> enough_fuel fuel lx'.
Proof.
  intros [H1 Hl] (Hs & Hlt & Hp & Ho).
  unfold enough_fuel. split; [lia | left; lia].
Qed.

Lemma enough_fuel_step fuel lx c lx' :
  enough_fuel (S fuel) lx -> lexadvance lx = Ok c lx' -> enough_fuel fuel lx'.
Proof.
  intros H Ha. eapply enough_fuel_moved; [exact H|].
  eapply lexadvance_moved; exact Ha.
Qed.

Lemma enough_fuel_source lx : enough_fuel (S (String.length (lx_source lx))) lx.
Proof.
  split; [lia|].
  destruct (Z_lt_dec (char_offset (lx_pos lx) + 2) 0); [right; lia|].
  left. unfold chars_left. lia.
Qed.

Lemma advance_while_ok cond fuel : forall buf lx b lx',
  advance_while cond fuel buf lx = Ok b lx' ->
  moved lx lx' /\
  exists rest, b = (buf ++ String (lx_lookahead lx) rest)%string /\
               string_forall cond rest = true.
Proof.
  induction fuel as [|fuel IH]; intros buf lx b lx' H; simpl in H; [discriminate|].
  apply bind_ok_inv in H as (c & lx1 & Ha & H).
  pose proof (lexadvance_moved _ _ _ Ha) as Hm.
  apply lexadvance_ok in Ha as (-> & _).
  destruct (cond (lx_lookahead lx1)) eqn:Ec.
  - apply IH in H as (Hm' & rest & -> & Hr).
    split; [eapply moved_trans; eassumption|].
    exists (String (lx_lookahead lx1) rest). split.
    + rewrite string_app_assoc. reflexivity.
    + simpl. rewrite Ec, Hr. reflexivity.
  - injection H as <- <-. split; [exact Hm|].
    exists EmptyString. split; reflexivity.
Qed.

Lemma advance_while_not_exit cond fuel : forall buf lx st msg lx',
  advance_while cond fuel buf lx <> Exit st msg lx'.
Proof.
  induction fuel as [|fuel IH]; intros buf lx st msg lx' H; simpl in H; [discriminate|].
  apply bind_exit_inv in H as [H | (c & lx1 & _ & H)].
  - exact (lexadvance_not_exit _ _ _ _ H).
  - destruct (cond (lx_lookahead lx1)); [exact (IH _ _ _ _ _ H) | discriminate].
Qed.

Lemma advance_while_fuel cond fuel : forall buf lx,
  enough_fuel fuel lx -> advance_while cond fuel buf lx <> OutOfFuel.
Proof.
  induction fuel as [|fuel IH]; intros buf lx He H; [destruct He; lia|]. simpl in H.
  apply bind_fuel_inv in H as [H | (c & lx1 & Ha & H)].
  - exact (lexadvance_not_fuel _ H).
  - destruct (cond (lx_lookahead lx1)); [|discriminate].
    apply IH in H; [exact H|]. eapply enough_fuel_step; eassumption.
Qed.

Lemma string_body_ok fuel : forall buf lx b lx',
  string_body fuel buf lx = Ok b lx' -> moved lx lx'.
Proof.
  induction fuel as [|fuel IH]; intros buf lx b lx' H; simpl in H; [discriminate|].
  apply bind_ok_inv in H as (c & lx1 & Ha & H).
  apply lexadvance_moved in Ha.
  destruct (Ascii.eqb c dquote).
  - injection H as _ <-. exact Ha.
  - apply IH in H. eapply moved_trans; eassumption.
Qed.

Lemma string_body_not_exit fuel : forall buf lx st msg lx',
  string_body fuel buf lx <> Exit st msg lx'.
Proof.
  induction fuel as [|fuel IH]; intros buf lx st msg lx' H; simpl in H; [discriminate|].
  apply bind_exit_inv in H as [H | (c & lx1 & _ & H)].
  - exact (lexadvance_not_exit _ _ _ _ H).
  - destruct (Ascii.eqb c dquote); [discriminate | exact (IH _ _ _ _ _ H)].
Qed.

Lemma string_body_fuel fuel : forall buf lx,
  enough_fuel fuel lx -> string_body fuel buf lx <> OutOfFuel.
Proof.
  induction fuel as [|fuel IH]; intros buf lx He H; [destruct He; lia|]. simpl in H.
  apply bind_fuel_inv in H as [H | (c & lx1 & Ha & H)].
  - exact (lexadvance_not_fuel _ H).
  - destruct (Ascii.eqb c dquote); [discriminate|].
    apply IH in H; [exact H|]. eapply enough_fuel_step; eassumption.
Qed.

(* ----------------------------------------------------------------- *)
(** ** [check_pattern] *)

Lemma advance_times_ok n : forall lx lx',
  advance_times n lx = Ok tt lx' ->
  lx_source lx' = lx_source lx /\
  char_offset (lx_pos lx') = char_offset (lx_pos lx) + Z.of_nat n /\
  (n = O /\ lx' = lx \/ moved lx lx').
Proof.
  induction n as [|n IH]; intros lx lx' H; simpl in H.
  - injection H as <-. repeat split; [lia | left; split; reflexivity].
  - apply bind_ok_inv in H as (c & lx1 & Ha & H).
    pose proof (lexadvance_moved _ _ _ Ha) as Hm.
    apply lexadvance_ok in Ha as (_ & _ & Hs & Ho & _).
    apply IH in H as (Hs' & Ho' & Hc).
    repeat split; [congruence | lia |]. right.
    destruct Hc as [[_ ->] | Hm']; [exact Hm | eapply moved_trans; eassumption].
Qed.

Lemma advance_times_not_exit n : forall lx st msg lx',
  advance_times n lx <> Exit st msg lx'.
Proof.
  induction n as [|n IH]; intros lx st msg lx' H; simpl in H; [discriminate|].
  apply bind_exit_inv in H as [H | (c & lx1 & _ & H)].
  - exact (lexadvance_not_exit _ _ _ _ H).
  - exact (IH _ _ _ _ H).
Qed.

Lemma advance_times_not_fuel n : forall lx, advance_times n lx <> OutOfFuel.
Proof.
  induction n as [|n IH]; intros lx H; simpl in H; [discriminate|].
  apply bind_fuel_inv in H as [H | (c & lx1 & _ & H)].
  - exact (lexadvance_not_fuel _ H).
  - exact (IH _ H).
Qed.

Lemma check_pattern_true pattern lx lx' :
  check_pattern pattern lx = Ok true lx' ->
  at_cursor pattern lx /\
  advance_times (String.length pattern) lx = Ok tt lx'.
Proof.
  unfold check_pattern, at_cursor.
  destruct (pattern_matches _ _ _) as [[|]|]; try discriminate.
  intros H. split; [reflexivity|].
  apply bind_ok_inv in H as ([] & lx1 & Ha & H).
  injection H as <-. exact Ha.
Qed.

Lemma check_pattern_false pattern lx lx' :
  check_pattern pattern lx = Ok false lx' ->
  lx' = lx /\ ~ at_cursor pattern lx.
Proof.
  unfold check_pattern, at_cursor.
  destruct (pattern_matches _ _ _) as [[|]|]; try discriminate.
  - intros H. apply bind_ok_inv in H as ([] & lx1 & _ & H). discriminate.
  - intros H. injection H as <-. split; [reflexivity | discriminate].
Qed.

Lemma check_pattern_not_exit pattern lx st msg lx' :
  check_pattern pattern lx <> Exit st msg lx'.
Proof.
  unfold check_pattern.
  destruct (pattern_matches _ _ _) as [[|]|]; try discriminate.
  intros H. apply bind_exit_inv in H as [H | (c & lx1 & _ & H)].
  - exact (advance_times_not_exit _ _ _ _ _ H).
  - discriminate.
Qed.

Lemma check_pattern_not_fuel pattern lx : check_pattern pattern lx <> OutOfFuel.
Proof.
  unfold check_pattern.
  destruct (pattern_matches _ _ _) as [[|]|]; try discriminate.
  intros H. apply bind_fuel_inv in H as [H | (c & lx1 & _ & H)].
  - exact (advance_times_not_fuel _ _ H).
  - discriminate.
Qed.

(** When a pattern is found and two more bytes can be read, the cursor moves
    over it. *)
Lemma check_pattern_found (c1 c2 c3 : ascii) lx :
  at_cursor (String c1 (String c2 "")) lx ->
  lx_lookahead lx = c1 ->
  source_at (lx_source lx) (char_offset (lx_pos lx) + 3) = Some c3 ->
  exists lx',
    check_pattern (String c1 (String c2 "")) lx = Ok true lx' /\
    lx_source lx' = lx_source lx /\
    char_offset (lx_pos lx') = char_offset (lx_pos lx) + 2 /\
    lx_current lx' = c2 /\ lx_lookahead lx' = c3.
Proof.
  unfold at_cursor, check_pattern. intros H Hla H3. rewrite H.
  simpl in H.
  destruct (source_at (lx_source lx) (char_offset (lx_pos lx) + 1)) as [d1|] eqn:E1;
    [|discriminate].
  destruct (Ascii.eqb d1 c1); [|discriminate].
  replace (char_offset (lx_pos lx) + 1 + 1) with (char_offset (lx_pos lx) + 2) in H by lia.
  destruct (source_at (lx_source lx) (char_offset (lx_pos lx) + 2)) as [d2|] eqn:E2;
    [|discriminate].
  destruct (Ascii.eqb d2 c2) eqn:E; [|discriminate].
  apply Ascii.eqb_eq in E. subst d2.
  unfold bind; simpl. unfold bind, lexadvance; simpl.
  replace (char_offset (lx_pos lx) + 1 + 1) with (char_offset (lx_pos lx) + 2) by lia.
  rewrite E2. simpl.
  assert (Hpos : forall (b : bool) (x y : lxpos),
             char_offset (if b then x else y) = if b then char_offset x else char_offset y)
    by (intros []; reflexivity).
  rewrite Hpos. simpl.
  replace ((if Ascii.eqb (lx_lookahead lx) newline
            then char_offset (lx_pos lx) + 1
            else char_offset (lx_pos lx) + 1) + 1 + 1)
    with (char_offset (lx_pos lx) + 3) by (destruct (Ascii.eqb _ _); lia).
  rewrite H3. simpl. eexists. split; [reflexivity|].
  simpl. repeat split.
  destruct (Ascii.eqb c2 newline); simpl; destruct (Ascii.eqb _ newline); simpl; lia.
Qed.

(* ----------------------------------------------------------------- *)
(** ** [lex] *)

Lemma lex_single_state c lx r lx' :
  lex_single c lx = Ok r lx' -> lx' = lx.
Proof.
  unfold lex_single, ret, lexerror.
  repeat match goal with
         | |- context [if ?b then _ else _] => destruct b
         end; intros H; try discriminate; injection H as _ <-; reflexivity.
Qed.

Lemma lex_single_not_fuel c lx : lex_single c lx <> OutOfFuel.
Proof.
  unfold lex_single, ret, lexerror.
  repeat match goal with
         | |- context [if ?b then _ else _] => destruct b
         end; discriminate.
Qed.

(** The branches of [lex], read back from a successful scan. *)
Lemma lex_scan_inv lx buf type lx' :
  lex_scan lx = Ok (buf, type) lx' ->
  let la := lx_lookahead lx in
  (* identifier or keyword *)
  (isalpha la || Ascii.eqb la "_" = true /\
   (exists rest, buf = String la rest /\ string_forall ident_char rest = true) /\
   type = determine_nature (cstr buf))
  \/ (* number *)
  (isalpha la || Ascii.eqb la "_" = false /\ isdigit la = true /\
   type = LX_INTEGER)
  \/ (* string *)
  (isalpha la || Ascii.eqb la "_" = false /\ isdigit la = false /\
   la = dquote /\ type = LX_STRING)
  \/ (* two-character patterns *)
  (isalpha la || Ascii.eqb la "_" = false /\ isdigit la = false /\
   la <> dquote /\ buf = "" /\
   (type = LX_ASSIGN /\ at_cursor "<-" lx
    \/ type = LX_OPERATOR /\ ~ at_cursor "<-" lx /\
       (at_cursor "<=" lx \/ ~ at_cursor "<=" lx /\ at_cursor ">=" lx)) /\
   advance_times 2 lx = Ok tt lx')
  \/ (* single characters *)
  (isalpha la || Ascii.eqb la "_" = false /\ isdigit la = false /\
   la <> dquote /\
   ~ at_cursor "<-" lx /\ ~ at_cursor "<=" lx /\ ~ at_cursor ">=" lx /\
   lexadvance lx = Ok la lx' /\ lex_single la lx' = Ok (buf, type) lx').
Proof.
  unfold lex_scan. intros H. cbv zeta in *. set (la := lx_lookahead lx) in *.
  destruct (isalpha la || Ascii.eqb la "_") eqn:E1.
  { left. apply bind_ok_inv in H as (b & lx1 & Ha & H).
    injection H as <- <- <-.
    apply advance_while_ok in Ha as (_ & rest & -> & Hr).
    split; [reflexivity|]. split; [|reflexivity].
    exists rest. split; [reflexivity | exact Hr]. }
  destruct (isdigit la) eqn:E2.
  { right; left. apply bind_ok_inv in H as (b & lx1 & Ha & H).
    injection H as <- <- <-. repeat split. }
  destruct (Ascii.eqb la dquote) eqn:E3.
  { right; right; left. apply Ascii.eqb_eq in E3.
    apply bind_ok_inv in H as (c & lx1 & _ & H).
    apply bind_ok_inv in H as (b & lx2 & _ & H).
    injection H as <- <- <-. repeat split; [exact E3]. }
  apply Ascii.eqb_neq in E3.
  apply bind_ok_inv in H as (b1 & lx1 & Hp1 & H).
  destruct b1.
  { right; right; right; left. injection H as <- <- <-.
    apply check_pattern_true in Hp1 as (Hc & Ha).
    do 4 (split; [solve [reflexivity | assumption]|]).
    split; [left; split; [reflexivity | exact Hc] | exact Ha]. }
  apply check_pattern_false in Hp1 as (-> & Hn1).
  apply bind_ok_inv in H as (b2 & lx2 & Hp2 & H).
  destruct b2.
  { right; right; right; left. injection H as <- <- <-.
    apply check_pattern_true in Hp2 as (Hc & Ha).
    do 4 (split; [solve [reflexivity | assumption]|]). split; [|exact Ha].
    right. split; [reflexivity|]. split; [exact Hn1 | left; exact Hc]. }
  apply check_pattern_false in Hp2 as (-> & Hn2).
  apply bind_ok_inv in H as (b3 & lx3 & Hp3 & H).
  destruct b3.
  { right; right; right; left. injection H as <- <- <-.
    apply check_pattern_true in Hp3 as (Hc & Ha).
    do 4 (split; [solve [reflexivity | assumption]|]). split; [|exact Ha].
    right. split; [reflexivity|]. split; [exact Hn1 | right; split; assumption]. }
  apply check_pattern_false in Hp3 as (-> & Hn3).
  apply bind_ok_inv in H as (c & lx4 & Ha & H).
  right; right; right; right.
  pose proof (lexadvance_ok _ _ _ Ha) as (-> & _).
  pose proof (lex_single_state _ _ _ _ H) as ->.
  repeat split; assumption.
Qed.

Lemma lex_inv lx tok lx' :
  lex lx = Ok tok lx' ->
  exists buf type,
    lex_scan lx = Ok (buf, type) lx' /\
    Z.of_nat (String.length buf) < LEX_BUF_SIZE /\
    tk_value tok = cstr buf /\ tk_type tok = type /\
    char_offset (tk_pos tok) = char_offset (lx_pos lx) + 1.
Proof.
  unfold lex. intros H.
  apply bind_ok_inv in H as ([buf type] & lx1 & Hs & H).
  destruct (LEX_BUF_SIZE <=? Z.of_nat (String.length buf)) eqn:E; [discriminate|].
  injection H as <- <-. apply Z.leb_gt in E.
  exists buf, type. repeat split; assumption.
Qed.

Lemma lex_scan_moved lx r lx' : lex_scan lx = Ok r lx' -> moved lx lx'.
Proof.
  unfold lex_scan. intros H.
  destruct (isalpha _ || Ascii.eqb _ "_").
  { apply bind_ok_inv in H as (b & lx1 & Ha & H). injection H as _ <-.
    apply advance_while_ok in Ha as (Hm & _). exact Hm. }
  destruct (isdigit _).
  { apply bind_ok_inv in H as (b & lx1 & Ha & H). injection H as _ <-.
    apply advance_while_ok in Ha as (Hm & _). exact Hm. }
  destruct (Ascii.eqb _ dquote).
  { apply bind_ok_inv in H as (c & lx1 & Ha & H).
    apply bind_ok_inv in H as (b & lx2 & Hb & H). injection H as _ <-.
    apply lexadvance_moved in Ha. apply string_body_ok in Hb.
    eapply moved_trans; eassumption. }
  assert (Hpat : forall pattern l l',
             (String.length pattern = 2)%nat ->
             check_pattern pattern l = Ok true l' -> moved l l').
  { intros pattern l l' Hlen Hp. apply check_pattern_true in Hp as (_ & Ha).
    apply advance_times_ok in Ha as (_ & _ & [[Hz _] | Hm]); [lia | exact Hm]. }
  apply bind_ok_inv in H as ([|] & lx1 & Hp1 & H).
  { injection H as _ <-. eapply Hpat; [|exact Hp1]. reflexivity. }
  apply check_pattern_false in Hp1 as (-> & _).
  apply bind_ok_inv in H as ([|] & lx2 & Hp2 & H).
  { injection H as _ <-. eapply Hpat; [|exact Hp2]. reflexivity. }
  apply check_pattern_false in Hp2 as (-> & _).
  apply bind_ok_inv in H as ([|] & lx3 & Hp3 & H).
  { injection H as _ <-. eapply Hpat; [|exact Hp3]. reflexivity. }
  apply check_pattern_false in Hp3 as (-> & _).
  apply bind_ok_inv in H as (c & lx4 & Ha & H).
  apply lex_single_state in H as ->. eapply lexadvance_moved; exact Ha.
Qed.

Lemma lex_moved lx tok lx' : lex lx = Ok tok lx' -> moved lx lx'.
Proof.
  intros H. apply lex_inv in H as (buf & type & H & _).
  eapply lex_scan_moved; exact H.
Qed.

(** The inner loops of [lex] never exhaust their budget. *)
Lemma lex_scan_not_fuel lx : lex_scan lx <> OutOfFuel.
Proof.
  unfold lex_scan. intros H.
  pose proof (enough_fuel_source lx) as He.
  destruct (isalpha _ || Ascii.eqb _ "_").
  { apply bind_fuel_inv in H as [H | (b & lx1 & _ & H)]; [|discriminate].
    exact (advance_while_fuel _ _ _ _ He H). }
  destruct (isdigit _).
  { apply bind_fuel_inv in H as [H | (b & lx1 & _ & H)]; [|discriminate].
    exact (advance_while_fuel _ _ _ _ He H). }
  destruct (Ascii.eqb _ dquote).
  { apply bind_fuel_inv in H as [H | (c & lx1 & Ha & H)].
    - exact (lexadvance_not_fuel _ H).
    - apply bind_fuel_inv in H as [H | (b & lx2 & _ & H)]; [|discriminate].
      apply lexadvance_moved in Ha.
      exact (string_body_fuel _ _ _ (enough_fuel_weaken _ _ _ He Ha) H). }
  apply bind_fuel_inv in H as [H | ([|] & lx1 & _ & H)];
    [exact (check_pattern_not_fuel _ _ H) | discriminate |].
  apply bind_fuel_inv in H as [H | ([|] & lx2 & _ & H)];
    [exact (check_pattern_not_fuel _ _ H) | discriminate |].
  apply bind_fuel_inv in H as [H | ([|] & lx3 & _ & H)];
    [exact (check_pattern_not_fuel _ _ H) | discriminate |].
  apply bind_fuel_inv in H as [H | (c & lx4 & _ & H)].
  - exact (lexadvance_not_fuel _ H).
  - exact (lex_single_not_fuel _ _ H).
Qed.

Lemma lex_not_fuel lx : lex lx <> OutOfFuel.
Proof.
  unfold lex. intros H.
  apply bind_fuel_inv in H as [H | ([buf type] & lx1 & _ & H)].
  - exact (lex_scan_not_fuel _ H).
  - destruct (LEX_BUF_SIZE <=? _); discriminate.
Qed.

(* ----------------------------------------------------------------- *)
(** ** [lexify] *)

Lemma lxtype_eqb_eq a b : lxtype_eqb a b = true <-> a = b.
Proof. split; [destruct a, b; simpl; congruence | intros <-; destruct a; reflexivity]. Qed.

Lemma lexify_loop_shape fuel : forall acc lx toks lx',
  lexify_loop fuel acc lx = Ok toks lx' ->
  exists mid eof,
    toks = acc ++ mid ++ [eof] /\
    tk_type eof = LX_EOF /\
    forallb kept_in_loop mid = true.
Proof.
  induction fuel as [|fuel IH]; intros acc lx toks lx' H; simpl in H; [discriminate|].
  apply bind_ok_inv in H as (token & lx1 & Hl & H).
  destruct (lxtype_eqb (tk_type token) LX_EOF) eqn:Ee.
  - injection H as <- <-. exists [], token.
    apply lxtype_eqb_eq in Ee. repeat split; assumption.
  - destruct (negb (lxtype_eqb (tk_type token) LX_WHITESPACE)
              && negb (lxtype_eqb (tk_type token) LX_COMMENT)) eqn:Ek.
    + apply IH in H as (mid & eof & -> & He & Hk).
      exists (token :: mid), eof. unfold vector_push.
      rewrite <- app_assoc. repeat split; [exact He|].
      simpl. unfold kept_in_loop at 1. rewrite Ee. simpl.
      rewrite Ek, Hk. reflexivity.
    + apply IH in H as (mid & eof & -> & He & Hk).
      exists mid, eof. repeat split; assumption.
Qed.

Lemma lexify_loop_not_fuel fuel : forall acc lx,
  enough_fuel fuel lx -> lexify_loop fuel acc lx <> OutOfFuel.
Proof.
  induction fuel as [|fuel IH]; intros acc lx He H; [destruct He; lia|].
  simpl in H.
  apply bind_fuel_inv in H as [H | (token & lx1 & Hl & H)].
  - exact (lex_not_fuel _ H).
  - apply lex_moved in Hl.
    pose proof (enough_fuel_moved _ _ _ He Hl) as He'.
    destruct (lxtype_eqb (tk_type token) LX_EOF); [discriminate|].
    destruct (negb _ && negb _); exact (IH _ _ He' H).
Qed.

Lemma count_type_kept type mid :
  forallb kept_in_loop mid = true ->
  type = LX_EOF \/ type = LX_WHITESPACE \/ type = LX_COMMENT ->
  count_type type mid = O.
Proof.
  intros Hk Ht. unfold count_type.
  induction mid as [|tk mid IH]; simpl in *; [reflexivity|].
  apply andb_prop in Hk as (Hk & Hm).
  unfold kept_in_loop in Hk.
  apply andb_prop in Hk as (Hk & H3). apply andb_prop in Hk as (H1 & H2).
  apply negb_true_iff in H1, H2, H3.
  assert (E : lxtype_eqb (tk_type tk) type = false)
    by (destruct Ht as [-> | [-> | ->]]; assumption).
  rewrite E. apply IH. exact Hm.
Qed.

Lemma count_type_app type a b :
  count_type type (a ++ b) = (count_type type a + count_type type b)%nat.
Proof. unfold count_type. rewrite filter_app, length_app. reflexivity. Qed.

Lemma lexify_not_fuel tokens lx : lexify tokens lx <> OutOfFuel.
Proof. apply lexify_loop_not_fuel. apply enough_fuel_source. Qed.

(** C5.  [lexify], entered with an empty vector, never exhausts the budget
    of its loop, and every token vector it returns contains exactly one
    [LX_EOF] token, which is its last element, and neither an
    [LX_WHITESPACE] nor an [LX_COMMENT] token. *)
Theorem lexify_token_stream (lx : lexer) :
  lexify [] lx <> OutOfFuel /\
  forall tokens lx',
    lexify [] lx = Ok tokens lx' ->
    count_type LX_EOF tokens = 1%nat /\
    (exists front eof, tokens = front ++ [eof] /\ tk_type eof = LX_EOF) /\
    count_type LX_WHITESPACE tokens = O /\
    count_type LX_COMMENT tokens = O.
Proof.
  split.
  - apply lexify_not_fuel.
  - intros tokens lx' H. unfold lexify in H.
    apply lexify_loop_shape in H as (mid & eof & -> & He & Hk). simpl.
    assert (Hlast : forall type, count_type type [eof]
                                 = if lxtype_eqb LX_EOF type then 1%nat else O).
    { intros type. unfold count_type. simpl. rewrite He.
      destruct type; reflexivity. }
    repeat split.
    + rewrite count_type_app, Hlast, (count_type_kept _ _ Hk); auto.
    + exists mid, eof. split; [reflexivity | exact He].
    + rewrite count_type_app, Hlast, (count_type_kept _ _ Hk); auto.
    + rewrite count_type_app, Hlast, (count_type_kept _ _ Hk); auto.
Qed.

(* ----------------------------------------------------------------- *)
(** ** Identifiers and keywords *)

Lemma ident_char_not_nul c : ident_char c = true -> Ascii.eqb c NUL = false.
Proof. destruct c as [[] [] [] [] [] [] [] []]; vm_compute; congruence. Qed.

Lemma ident_start_not_nul c :
  isalpha c || Ascii.eqb c "_" = true -> Ascii.eqb c NUL = false.
Proof. destruct c as [[] [] [] [] [] [] [] []]; vm_compute; congruence. Qed.

Lemma cstr_ident rest :
  string_forall ident_char rest = true -> cstr rest = rest.
Proof.
  induction rest as [|c rest IH]; simpl; [reflexivity|].
  intros H. apply andb_prop in H as (Hc & Hr).
  rewrite (ident_char_not_nul _ Hc), (IH Hr). reflexivity.
Qed.

Lemma determine_nature_cases s :
  (s = "true" \/ s = "false") /\ determine_nature s = LX_BOOL
  \/ s = "null" /\ determine_nature s = LX_NULL
  \/ s = "return" /\ determine_nature s = LX_RETURN
  \/ (s <> "true" /\ s <> "false" /\ s <> "null" /\ s <> "return")
     /\ determine_nature s = LX_SYMBOL.
Proof.
  unfold determine_nature, streq.
  destruct (String.eqb s "false") eqn:E1.
  { apply String.eqb_eq in E1. left. split; [right; exact E1 | reflexivity]. }
  destruct (String.eqb s "true") eqn:E2.
  { apply String.eqb_eq in E2. left. split; [left; exact E2 | reflexivity]. }
  destruct (String.eqb s "null") eqn:E3.
  { apply String.eqb_eq in E3. right; left. split; [exact E3 | reflexivity]. }
  destruct (String.eqb s "return") eqn:E4.
  { apply String.eqb_eq in E4. right; right; left. split; [exact E4 | reflexivity]. }
  apply String.eqb_neq in E1, E2, E3, E4.
  right; right; right. simpl. repeat split; assumption.
Qed.

(** C4, on the code.  A token that starts with a letter or [_] has as value
    the identifier read from the buffer, and its kind is [LX_BOOL] for
    [true] and [false], [LX_NULL] for [null], [LX_RETURN] for [return] and
    [LX_SYMBOL] for every other identifier: [determine_nature] has no case
    for [if], [else], [loop] and [include], which come out as symbols. *)
Theorem identifier_token_kind (lx : lexer) (tok : lxtoken) (lx' : lexer) :
  isalpha (lx_lookahead lx) || Ascii.eqb (lx_lookahead lx) "_" = true ->
  lex lx = Ok tok lx' ->
  (exists rest, tk_value tok = String (lx_lookahead lx) rest
                /\ string_forall ident_char rest = true) /\
  (tk_value tok = "true" \/ tk_value tok = "false" -> tk_type tok = LX_BOOL) /\
  (tk_value tok = "null" -> tk_type tok = LX_NULL) /\
  (tk_value tok = "return" -> tk_type tok = LX_RETURN) /\
  (tk_value tok <> "true" -> tk_value tok <> "false" ->
   tk_value tok <> "null" -> tk_value tok <> "return" ->
   tk_type tok = LX_SYMBOL) /\
  (In (tk_value tok) ["if"; "else"; "loop"; "include"] ->
   tk_type tok = LX_SYMBOL).
Proof.
  intros Hstart H.
  apply lex_inv in H as (buf & type & Hs & _ & Hv & Ht & _).
  apply lex_scan_inv in Hs. cbv zeta in Hs.
  destruct Hs as [(_ & (rest & -> & Hr) & Hn)
                 | [(E & _) | [(E & _) | [(E & _) | (E & _)]]]];
    try (rewrite Hstart in E; discriminate).
  assert (Hc : cstr (String (lx_lookahead lx) rest) = String (lx_lookahead lx) rest).
  { simpl. rewrite (ident_start_not_nul _ Hstart), (cstr_ident _ Hr). reflexivity. }
  rewrite Hc in Hv, Hn. rewrite <- Hv in Hn. rewrite Ht, Hn.
  split; [exists rest; split; [exact Hv | exact Hr]|].
  destruct (determine_nature_cases (tk_value tok))
    as [([E | E] & ->) | [(E & ->) | [(E & ->) | ((N1 & N2 & N3 & N4) & ->)]]];
    rewrite ?E; repeat split; intros; try reflexivity; try discriminate;
    try congruence;
    repeat match goal with
           | H : In _ _ |- _ => destruct H as [H | H]; try discriminate
           | H : _ \/ _ |- _ => destruct H; try discriminate
           end; try contradiction; try congruence.
Qed.

(* ----------------------------------------------------------------- *)
(** ** Operators and the two-character patterns *)

Lemma lex_single_operator c lx buf type lx' :
  lex_single c lx = Ok (buf, type) lx' ->
  type <> LX_ASSIGN /\
  (type = LX_OPERATOR ->
   buf = String c "" /\ In c single_operators /\ Ascii.eqb c NUL = false).
Proof.
  destruct c as [[] [] [] [] [] [] [] []]; cbv;
    intros H; try discriminate; injection H as <- <- <-;
    (split; [discriminate|]); intros Ht; try discriminate;
    repeat split; tauto.
Qed.

Lemma determine_nature_kinds s :
  determine_nature s <> LX_ASSIGN /\ determine_nature s <> LX_OPERATOR.
Proof.
  unfold determine_nature.
  destruct (_ || _); [split; discriminate|].
  destruct (streq s "null"); [split; discriminate|].
  destruct (streq s "return"); split; discriminate.
Qed.

(** C9.  Every [LX_ASSIGN] token stands for a [<-] found by
    [check_pattern] and has the empty string as value.  An [LX_OPERATOR]
    token either stands for a [<=] or [>=] found by [check_pattern], and
    then has the empty value and covers two characters, or no pattern was
    found and it stands for one of the single operator characters, and then
    its value is that character and it covers one character. *)
Theorem pattern_tokens_have_empty_value (lx : lexer) (tok : lxtoken) (lx' : lexer) :
  lex lx = Ok tok lx' ->
  (tk_type tok = LX_ASSIGN ->
   at_cursor "<-" lx /\ tk_value tok = ""
   /\ char_offset (lx_pos lx') = char_offset (lx_pos lx) + 2) /\
  (tk_type tok = LX_OPERATOR ->
   ((at_cursor "<=" lx \/ at_cursor ">=" lx) /\ tk_value tok = ""
    /\ char_offset (lx_pos lx') = char_offset (lx_pos lx) + 2)
   \/
   (~ at_cursor "<-" lx /\ ~ at_cursor "<=" lx /\ ~ at_cursor ">=" lx
    /\ In (lx_lookahead lx) single_operators
    /\ tk_value tok = String (lx_lookahead lx) ""
    /\ char_offset (lx_pos lx') = char_offset (lx_pos lx) + 1)).
Proof.
  intros H.
  apply lex_inv in H as (buf & type & Hs & _ & Hv & Ht & _).
  apply lex_scan_inv in Hs. cbv zeta in Hs. rewrite Ht, Hv.
  destruct Hs as [(_ & _ & ->)
                 | [(_ & _ & ->)
                   | [(_ & _ & _ & ->)
                     | [(_ & _ & _ & -> & Hk & Ha)
                       | (_ & _ & _ & Hn1 & Hn2 & Hn3 & Ha & Hs)]]]].
  - destruct (determine_nature_kinds (cstr buf)). split; intros; contradiction.
  - split; discriminate.
  - split; discriminate.
  - apply advance_times_ok in Ha as (_ & Ho & _). simpl.
    destruct Hk as [(-> & Hc) | (-> & _ & Hc)].
    + split; [intros _; repeat split; assumption | discriminate].
    + split; [discriminate|]. intros _. left.
      split; [tauto | split; [reflexivity | exact Ho]].
  - apply lexadvance_ok in Ha as (_ & _ & _ & Ho & _).
    apply lex_single_operator in Hs as (Hn & Hop).
    split; [intros; contradiction|]. intros Hty. right.
    destruct (Hop Hty) as (-> & Hin & Hnul). simpl. rewrite Hnul.
    repeat split; assumption.
Qed.

Lemma at_cursor_two (c1 c2 : ascii) lx :
  at_cursor (String c1 (String c2 "")) lx <->
  source_at (lx_source lx) (char_offset (lx_pos lx) + 1) = Some c1 /\
  source_at (lx_source lx) (char_offset (lx_pos lx) + 2) = Some c2.
Proof.
  unfold at_cursor. simpl.
  replace (char_offset (lx_pos lx) + 1 + 1) with (char_offset (lx_pos lx) + 2) by lia.
  split.
  - destruct (source_at _ (_ + 1)) as [d1|]; [|discriminate].
    destruct (Ascii.eqb d1 c1) eqn:E1; [|discriminate].
    destruct (source_at _ (_ + 2)) as [d2|]; [|discriminate].
    destruct (Ascii.eqb d2 c2) eqn:E2; [|discriminate].
    apply Ascii.eqb_eq in E1, E2. subst. split; reflexivity.
  - intros [-> ->]. rewrite !Ascii.eqb_refl. reflexivity.
Qed.

(** A pattern whose first character is not under the cursor, or whose
    second character does not follow, is not found and nothing moves. *)
Lemma check_pattern_miss (c1 c2 d1 d2 : ascii) lx :
  source_at (lx_source lx) (char_offset (lx_pos lx) + 1) = Some d1 ->
  source_at (lx_source lx) (char_offset (lx_pos lx) + 2) = Some d2 ->
  Ascii.eqb d1 c1 && Ascii.eqb d2 c2 = false ->
  check_pattern (String c1 (String c2 "")) lx = Ok false lx.
Proof.
  intros H1 H2 E. unfold check_pattern. simpl. rewrite H1.
  replace (char_offset (lx_pos lx) + 1 + 1) with (char_offset (lx_pos lx) + 2) by lia.
  rewrite H2.
  destruct (Ascii.eqb d1 c1); [|reflexivity].
  destruct (Ascii.eqb d2 c2); [discriminate | reflexivity].
Qed.

Lemma lex_of_scan lx buf type lx' :
  lex_scan lx = Ok (buf, type) lx' ->
  Z.of_nat (String.length buf) < LEX_BUF_SIZE ->
  exists tok,
    lex lx = Ok tok lx' /\ tk_value tok = cstr buf /\ tk_type tok = type.
Proof.
  intros Hs Hlen. unfold lex. rewrite (bind_ok _ _ _ _ _ Hs).
  apply Z.leb_gt in Hlen. rewrite Hlen.
  eexists. split; [reflexivity|]. split; reflexivity.
Qed.

Lemma lex_exit_of_scan lx st msg lx' :
  lex_scan lx = Exit st msg lx' -> lex lx = Exit st msg lx'.
Proof. intros Hs. unfold lex, bind. rewrite Hs. reflexivity. Qed.

Lemma lexadvance_at lx (d : ascii) :
  source_at (lx_source lx) (char_offset (lx_pos lx) + 2) = Some d ->
  exists lx',
    lexadvance lx = Ok (lx_lookahead lx) lx' /\
    lx_source lx' = lx_source lx /\
    char_offset (lx_pos lx') = char_offset (lx_pos lx) + 1 /\
    lx_lookahead lx' = d.
Proof.
  intros H. unfold lexadvance.
  replace (char_offset (lx_pos lx) + 1 + 1) with (char_offset (lx_pos lx) + 2) by lia.
  rewrite H. eexists. split; [reflexivity|]. simpl.
  repeat split. destruct (Ascii.eqb _ newline); reflexivity.
Qed.

(** The scan of a two-character pattern that is under the cursor, after the
    tests made before it have failed. *)
Lemma lex_scan_pattern (c1 c2 c3 : ascii) (type : lxtype) lx :
  at_cursor (String c1 (String c2 "")) lx ->
  lx_lookahead lx = c1 ->
  source_at (lx_source lx) (char_offset (lx_pos lx) + 3) = Some c3 ->
  (String c1 (String c2 "") = "<-" /\ type = LX_ASSIGN
   \/ String c1 (String c2 "") = "<=" /\ type = LX_OPERATOR
   \/ String c1 (String c2 "") = ">=" /\ type = LX_OPERATOR) ->
  exists tok lx',
    lex lx = Ok tok lx' /\ tk_value tok = "" /\ tk_type tok = type /\
    char_offset (lx_pos lx') = char_offset (lx_pos lx) + 2.
Proof.
  intros Hat Hla H3 Hp.
  destruct (check_pattern_found _ _ _ _ Hat Hla H3) as (lx' & Hc & _ & Ho & _).
  pose proof (proj1 (at_cursor_two _ _ _) Hat) as (H1 & H2).
  assert (Hs : lex_scan lx = Ok ("", type) lx').
  { unfold lex_scan. rewrite Hla.
    destruct Hp as [(E & ->) | [(E & ->) | (E & ->)]];
      injection E as -> ->; simpl.
    - rewrite (bind_ok _ _ _ _ _ Hc). reflexivity.
    - rewrite (bind_ok _ _ _ _ _ (check_pattern_miss "<" "-" _ _ _ H1 H2 eq_refl)).
      rewrite (bind_ok _ _ _ _ _ Hc). reflexivity.
    - rewrite (bind_ok _ _ _ _ _ (check_pattern_miss "<" "-" _ _ _ H1 H2 eq_refl)).
      rewrite (bind_ok _ _ _ _ _ (check_pattern_miss "<" "=" _ _ _ H1 H2 eq_refl)).
      rewrite (bind_ok _ _ _ _ _ Hc). reflexivity. }
  destruct (lex_of_scan _ _ _ _ Hs) as (tok & Hl & Hv & Ht); [reflexivity|].
  exists tok, lx'. repeat split; assumption.
Qed.

(** The scan of a character that starts no identifier, number, string or
    pattern: the answer of the [switch]. *)
Lemma lex_scan_single (c1 d2 : ascii) lx :
  source_at (lx_source lx) (char_offset (lx_pos lx) + 1) = Some c1 ->
  source_at (lx_source lx) (char_offset (lx_pos lx) + 2) = Some d2 ->
  lx_lookahead lx = c1 ->
  isalpha c1 || Ascii.eqb c1 "_" = false -> isdigit c1 = false ->
  Ascii.eqb c1 dquote = false ->
  Ascii.eqb c1 "<" = false -> Ascii.eqb c1 ">" = false ->
  exists lx',
    lexadvance lx = Ok c1 lx' /\
    lex_scan lx = lex_single c1 lx' /\
    lx_source lx' = lx_source lx /\
    char_offset (lx_pos lx') = char_offset (lx_pos lx) + 1 /\
    lx_lookahead lx' = d2.
Proof.
  intros H1 H2 Hla E1 E2 E3 E4 E5.
  destruct (lexadvance_at _ _ H2) as (lx' & Ha & Hs & Ho & Hl).
  rewrite Hla in Ha.
  exists lx'. split; [exact Ha|]. split; [|repeat split; assumption].
  unfold lex_scan. rewrite Hla, E1, E2, E3.
  rewrite (bind_ok _ _ _ _ _ (check_pattern_miss "<" "-" _ _ _ H1 H2
                                 ltac:(rewrite E4; reflexivity))).
  rewrite (bind_ok _ _ _ _ _ (check_pattern_miss "<" "=" _ _ _ H1 H2
                                 ltac:(rewrite E4; reflexivity))).
  rewrite (bind_ok _ _ _ _ _ (check_pattern_miss ">" "=" _ _ _ H1 H2
                                 ltac:(rewrite E5; reflexivity))).
  rewrite (bind_ok _ _ _ _ _ Ha). reflexivity.
Qed.

Lemma lex_single_char_operator (c1 d2 d3 : ascii) lx :
  cursor_ok lx -> lx_lookahead lx = c1 ->
  source_at (lx_source lx) (char_offset (lx_pos lx) + 2) = Some d2 ->
  c1 = "&"%char \/ c1 = "|"%char ->
  exists tok lx',
    lex lx = Ok tok lx' /\ tk_type tok = LX_OPERATOR /\
    tk_value tok = String c1 "" /\
    lx_source lx' = lx_source lx /\
    char_offset (lx_pos lx') = char_offset (lx_pos lx) + 1 /\
    lx_lookahead lx' = d2.
Proof.
  intros Hc Hla H2 Hop. unfold cursor_ok in Hc. rewrite Hla in Hc.
  assert (Hs : exists lx', lex_scan lx = Ok (String c1 "", LX_OPERATOR) lx' /\
                           lx_source lx' = lx_source lx /\
                           char_offset (lx_pos lx') = char_offset (lx_pos lx) + 1 /\
                           lx_lookahead lx' = d2).
  { destruct Hop as [-> | ->];
      (edestruct (lex_scan_single _ d2 lx Hc H2 Hla) as (lx' & _ & Hs & Hr);
       try reflexivity; exists lx'; split; [rewrite Hs; reflexivity | exact Hr]). }
  destruct Hs as (lx' & Hs & Hr).
  destruct (lex_of_scan _ _ _ _ Hs) as (tok & Hl & Hv & Ht); [reflexivity|].
  exists tok, lx'. split; [exact Hl|]. split; [exact Ht|]. split; [|exact Hr].
  rewrite Hv. destruct Hop as [-> | ->]; reflexivity.
Qed.

(** C3, on the code.  With the lookahead character in place and a readable
    byte after the two characters under the cursor: [<-] is lexed as one
    [LX_ASSIGN] token and [<=], [>=] as one [LX_OPERATOR] token, each
    covering both characters; [check_pattern] is not called for the other
    four glyphs: [&&] and [||] are lexed as two [LX_OPERATOR] tokens of one
    character each, and [==] and [!=] end the run with the lex error for an
    unidentified symbol. *)
Theorem multi_character_operators (lx : lexer) (c3 : ascii) :
  cursor_ok lx ->
  source_at (lx_source lx) (char_offset (lx_pos lx) + 3) = Some c3 ->
  (at_cursor "<-" lx ->
   exists tok lx',
     lex lx = Ok tok lx' /\ tk_value tok = "" /\ tk_type tok = LX_ASSIGN /\
     char_offset (lx_pos lx') = char_offset (lx_pos lx) + 2) /\
  (at_cursor "<=" lx \/ at_cursor ">=" lx ->
   exists tok lx',
     lex lx = Ok tok lx' /\ tk_value tok = "" /\ tk_type tok = LX_OPERATOR /\
     char_offset (lx_pos lx') = char_offset (lx_pos lx) + 2) /\
  (at_cursor "&&" lx \/ at_cursor "||" lx ->
   exists tok1 lx1 tok2 lx2,
     lex lx = Ok tok1 lx1 /\ lex lx1 = Ok tok2 lx2 /\
     tk_type tok1 = LX_OPERATOR /\ tk_type tok2 = LX_OPERATOR /\
     tk_value tok1 = String (lx_lookahead lx) "" /\
     tk_value tok2 = String (lx_lookahead lx) "" /\
     char_offset (lx_pos lx1) = char_offset (lx_pos lx) + 1 /\
     char_offset (lx_pos lx2) = char_offset (lx_pos lx) + 2) /\
  (at_cursor "==" lx \/ at_cursor "!=" lx ->
   exists lx',
     lex lx = Exit 0 "Syntax error! Failed to identify symbol" lx').
Proof.
  intros Hc H3.
  assert (Hla : forall c1 c2, at_cursor (String c1 (String c2 "")) lx ->
                              lx_lookahead lx = c1 /\
                              source_at (lx_source lx) (char_offset (lx_pos lx) + 1) = Some c1 /\
                              source_at (lx_source lx) (char_offset (lx_pos lx) + 2) = Some c2).
  { intros c1 c2 Hat. apply at_cursor_two in Hat as (H1 & H2).
    unfold cursor_ok in Hc. split; [congruence | split; assumption]. }
  split; [|split; [|split]].
  - intros Hat. destruct (Hla _ _ Hat) as (Hl & _).
    apply (lex_scan_pattern _ _ c3 _ _ Hat Hl H3). left. split; reflexivity.
  - intros [Hat | Hat]; destruct (Hla _ _ Hat) as (Hl & _);
      apply (lex_scan_pattern _ _ c3 _ _ Hat Hl H3);
      [right; left | right; right]; split; reflexivity.
  - assert (Hboth : forall c, c = "&"%char \/ c = "|"%char ->
                              at_cursor (String c (String c "")) lx ->
              exists tok1 lx1 tok2 lx2,
                lex lx = Ok tok1 lx1 /\ lex lx1 = Ok tok2 lx2 /\
                tk_type tok1 = LX_OPERATOR /\ tk_type tok2 = LX_OPERATOR /\
                tk_value tok1 = String (lx_lookahead lx) "" /\
                tk_value tok2 = String (lx_lookahead lx) "" /\
                char_offset (lx_pos lx1) = char_offset (lx_pos lx) + 1 /\
                char_offset (lx_pos lx2) = char_offset (lx_pos lx) + 2).
    { intros c Hop Hat. destruct (Hla _ _ Hat) as (Hl & H1 & H2).
      destruct (lex_single_char_operator c c c3 lx Hc Hl H2 Hop)
        as (tok1 & lx1 & Hlex1 & Ht1 & Hv1 & Hs1 & Ho1 & Hl1).
      assert (Hc1 : cursor_ok lx1).
      { unfold cursor_ok. rewrite Hs1, Ho1, Hl1.
        replace (char_offset (lx_pos lx) + 1 + 1) with (char_offset (lx_pos lx) + 2) by lia.
        exact H2. }
      assert (H31 : source_at (lx_source lx1) (char_offset (lx_pos lx1) + 2) = Some c3).
      { rewrite Hs1, Ho1.
        replace (char_offset (lx_pos lx) + 1 + 2) with (char_offset (lx_pos lx) + 3) by lia.
        exact H3. }
      destruct (lex_single_char_operator c c3 c3 lx1 Hc1 Hl1 H31 Hop)
        as (tok2 & lx2 & Hlex2 & Ht2 & Hv2 & Hs2 & Ho2 & Hl2).
      exists tok1, lx1, tok2, lx2. rewrite Hl.
      repeat split; try assumption. lia. }
    intros [Hat | Hat];
      [apply (Hboth "&"%char (or_introl eq_refl) Hat)
      | apply (Hboth "|"%char (or_intror eq_refl) Hat)].
  - assert (Hrej : forall c, c = "="%char \/ c = "!"%char ->
                             at_cursor (String c (String "=" "")) lx ->
              exists lx', lex lx = Exit 0 "Syntax error! Failed to identify symbol" lx').
    { intros c Hop Hat. destruct (Hla _ _ Hat) as (Hl & H1 & H2).
      destruct Hop as [-> | ->];
        (edestruct (lex_scan_single _ "="%char lx H1 H2 Hl) as (lx' & _ & Hs & _);
         try reflexivity; exists lx'; apply lex_exit_of_scan; rewrite Hs; reflexivity). }
    intros [Hat | Hat];
      [apply (Hrej "="%char (or_introl eq_refl) Hat)
      | apply (Hrej "!"%char (or_intror eq_refl) Hat)].
Qed.

(** C3, witness: [<- 1] is one token, [== 1] is rejected. *)
Lemma multi_character_operators_witness :
  (cursor_ok assign_lexer /\
   source_at (lx_source assign_lexer) (char_offset (lx_pos assign_lexer) + 3)
   = Some " "%char /\
   exists tok lx',
     lex assign_lexer = Ok tok lx' /\ tk_value tok = "" /\
     tk_type tok = LX_ASSIGN /\
     char_offset (lx_pos lx') = char_offset (lx_pos assign_lexer) + 2) /\
  (cursor_ok equality_lexer /\
   source_at (lx_source equality_lexer) (char_offset (lx_pos equality_lexer) + 3)
   = Some " "%char /\
   at_cursor "==" equality_lexer /\
   exists lx',
     lex equality_lexer = Exit 0 "Syntax error! Failed to identify symbol" lx').
Proof.
  split.
  - split; [reflexivity|]. split; [reflexivity|].
    apply (proj1 (multi_character_operators assign_lexer " "%char
                                            eq_refl eq_refl)).
    reflexivity.
  - split; [reflexivity|]. split; [reflexivity|]. split; [reflexivity|].
    apply (proj2 (proj2 (proj2 (multi_character_operators
                                  equality_lexer " "%char eq_refl eq_refl)))).
    left. reflexivity.
Defined.

(** On whole texts: [==] is rejected, [!=] is rejected, and [&&] and [||]
    are split into two tokens. *)
Lemma operators_rejected_or_split :
  (exists lx, lex_source (c_buffer "a == b")
              = Exit 0 "Syntax error! Failed to identify symbol" lx) /\
  (exists lx, lex_source (c_buffer "a != b")
              = Exit 0 "Syntax error! Failed to identify symbol" lx) /\
  (exists tokens lx,
      lex_source (c_buffer "a && b") = Ok tokens lx /\
      token_list tokens
      = [("a", LX_SYMBOL); ("&", LX_OPERATOR); ("&", LX_OPERATOR);
         ("b", LX_SYMBOL); ("", LX_EOF)]) /\
  (exists tokens lx,
      lex_source (c_buffer "a || b") = Ok tokens lx /\
      token_list tokens
      = [("a", LX_SYMBOL); ("|", LX_OPERATOR); ("|", LX_OPERATOR);
         ("b", LX_SYMBOL); ("", LX_EOF)]).
Proof.
  split; [eexists; vm_compute; reflexivity|].
  split; [eexists; vm_compute; reflexivity|].
  split; (do 2 eexists; split; [vm_compute; reflexivity | reflexivity]).
Qed.

(** C4, witness: [include]. *)
Lemma identifier_token_kind_witness :
  isalpha (lx_lookahead keyword_lexer) || Ascii.eqb (lx_lookahead keyword_lexer) "_" = true /\
  lex keyword_lexer = Ok keyword_token keyword_lexer' /\
  tk_value keyword_token = "include" /\
  tk_type keyword_token = LX_SYMBOL.
Proof.
  split; [reflexivity|]. split; [vm_compute; reflexivity|].
  split; [reflexivity|].
  apply (identifier_token_kind keyword_lexer keyword_token keyword_lexer'
                               eq_refl ltac:(vm_compute; reflexivity)).
  right; right; right; left. reflexivity.
Defined.

(** On a whole text: [if], [else], [loop] and [include] are lexed as
    symbols. *)
Lemma control_words_are_symbols :
  determine_nature "if" = LX_SYMBOL /\ determine_nature "else" = LX_SYMBOL /\
  determine_nature "loop" = LX_SYMBOL /\ determine_nature "include" = LX_SYMBOL /\
  exists tokens lx,
    lex_source (c_buffer "if else loop include") = Ok tokens lx /\
    token_list tokens
    = [("if", LX_SYMBOL); ("else", LX_SYMBOL); ("loop", LX_SYMBOL);
       ("include", LX_SYMBOL); ("", LX_EOF)].
Proof.
  repeat split; try reflexivity.
  do 2 eexists. split; [vm_compute; reflexivity | reflexivity].
Qed.

(** C5, witness: [x <- y1 >= 2 # note]. *)
Lemma lexify_token_stream_witness :
  lexify [] statement_lexer = Ok statement_tokens statement_lexer' /\
  count_type LX_EOF statement_tokens = 1%nat /\
  (exists front eof,
      statement_tokens = front ++ [eof] /\ tk_type eof = LX_EOF) /\
  count_type LX_WHITESPACE statement_tokens = O /\
  count_type LX_COMMENT statement_tokens = O.
Proof.
  split; [vm_compute; reflexivity|].
  apply (proj2 (lexify_token_stream statement_lexer)
               statement_tokens statement_lexer').
  vm_compute; reflexivity.
Defined.

(** C9, witness: [<- 1]. *)
Lemma pattern_tokens_have_empty_value_witness :
  lex assign_lexer = Ok assign_token assign_lexer' /\
  tk_type assign_token = LX_ASSIGN /\ tk_value assign_token = "".
Proof.
  split; [vm_compute; reflexivity|]. split; [reflexivity|].
  apply (proj1 (pattern_tokens_have_empty_value
                  assign_lexer assign_token assign_lexer'
                  ltac:(vm_compute; reflexivity))).
  reflexivity.
Defined.

(* ----------------------------------------------------------------- *)
(** ** String literals *)

Lemma lex_string_not_exit lx st msg lx' :
  lx_lookahead lx = dquote -> lex lx <> Exit st msg lx'.
Proof.
  intros Hq H. unfold lex in H.
  apply bind_exit_inv in H as [H | ([buf type] & lx1 & _ & H)].
  - unfold lex_scan in H. rewrite Hq in H.
    change (isalpha dquote || Ascii.eqb dquote "_") with false in H.
    change (isdigit dquote) with false in H.
    change (Ascii.eqb dquote dquote) with true in H. cbv iota in H.
    apply bind_exit_inv in H as [H | (c & lx1 & _ & H)].
    + exact (lexadvance_not_exit _ _ _ _ H).
    + apply bind_exit_inv in H as [H | (b & lx2 & _ & H)].
      * exact (string_body_not_exit _ _ _ _ _ _ H).
      * discriminate.
  - destruct (LEX_BUF_SIZE <=? _); discriminate.
Qed.

(** C7, on the code.  The string branch of [lex] has no test for the end of
    the input: on a text whose opening quote is never closed the lexer runs
    over the terminator and reads outside the buffer; a lexer on a quote
    never reports a lex error; and when a quote happens to lie in the bytes
    that follow the text in memory, a string token is returned. *)
Theorem unterminated_string_not_reported :
  lex_source (c_buffer unterminated) = Fault /\
  (forall lx st msg lx', lx_lookahead lx = dquote -> lex lx <> Exit st msg lx') /\
  (exists tokens lx',
      lex_source unterminated_then_quote = Ok tokens lx' /\
      token_list tokens = [("abc", LX_STRING); ("", LX_EOF)]).
Proof.
  split; [vm_compute; reflexivity|].
  split; [intros; apply lex_string_not_exit; assumption|].
  do 2 eexists. split; [vm_compute; reflexivity | reflexivity].
Qed.

(* ================================================================= *)
(** * The parser *)

(* ----------------------------------------------------------------- *)
(** ** A larger budget changes no result *)

Lemma res_le_refl {S A : Type} (r : result S A) : res_le r r.
Proof. right. reflexivity. Qed.

Lemma res_le_trans {S A : Type} (a b c : result S A) :
  res_le a b -> res_le b c -> res_le a c.
Proof. intros [-> | ->] H; [left; reflexivity | exact H]. Qed.

Lemma bind_mono {S A B : Type} (m m' : M S A) (k k' : A -> M S B) s :
  res_le (m s) (m' s) ->
  (forall a s1, res_le (k a s1) (k' a s1)) ->
  res_le (bind m k s) (bind m' k' s).
Proof.
  intros [Hm | Hm] Hk; unfold bind.
  - rewrite Hm. left. reflexivity.
  - rewrite Hm. destruct (m' s); try apply res_le_refl. apply Hk.
Qed.

Ltac mono_step Hself :=
  first
    [ apply res_le_refl
    | apply Hself
    | apply bind_mono; [| intros ? ?; cbv beta]
    | match goal with
      | |- res_le ((if ?b then _ else _) _) _ => destruct b
      | |- res_le (if ?b then _ else _) _ => destruct b
      | |- res_le ((match ?x with _ => _ end) _) _ => destruct x
      | |- res_le (match ?x with _ => _ end) _ => destruct x
      end ].

Lemma braced_block_mono (self self' : call -> M parser astnode) node p :
  (forall c p, res_le (self c p) (self' c p)) ->
  res_le (braced_block self node p) (braced_block self' node p).
Proof. intros Hself. unfold braced_block. repeat mono_step Hself. Qed.

Lemma table_key_mono (self self' : call -> M parser astnode) node p :
  (forall c p, res_le (self c p) (self' c p)) ->
  res_le (table_key self node p) (table_key self' node p).
Proof. intros Hself. unfold table_key. repeat mono_step Hself. Qed.

Lemma parse_body_mono (self self' : call -> M parser astnode) :
  (forall c p, res_le (self c p) (self' c p)) ->
  forall c p, res_le (parse_body self c p) (parse_body self' c p).
Proof.
  intros Hself c p.
  destruct c; unfold parse_body;
    repeat first [ apply braced_block_mono; [exact Hself]
                 | apply table_key_mono; [exact Hself]
                 | mono_step Hself ].
Qed.

Lemma parse_rec_mono_S fuel : forall c p,
  res_le (parse_rec fuel c p) (parse_rec (S fuel) c p).
Proof.
  induction fuel as [|fuel IH]; intros c p.
  - left. reflexivity.
  - change (res_le (parse_body (parse_rec fuel) c p)
                   (parse_body (parse_rec (S fuel)) c p)).
    apply parse_body_mono. exact IH.
Qed.

Lemma parse_rec_mono fuel fuel' c p :
  (fuel <= fuel')%nat -> res_le (parse_rec fuel c p) (parse_rec fuel' c p).
Proof.
  induction 1 as [|fuel' _ IH]; [apply res_le_refl|].
  eapply res_le_trans; [exact IH | apply parse_rec_mono_S].
Qed.

Lemma parse_rec_more fuel fuel' c p n p' :
  parse_rec fuel c p = Ok n p' -> (fuel <= fuel')%nat ->
  parse_rec fuel' c p = Ok n p'.
Proof.
  intros H Hle. destruct (parse_rec_mono fuel fuel' c p Hle) as [E | E];
    congruence.
Qed.

Lemma parses_deterministic c p n1 p1 n2 p2 :
  parses c p n1 p1 -> parses c p n2 p2 -> n1 = n2 /\ p1 = p2.
Proof.
  intros [f1 H1] [f2 H2].
  apply (parse_rec_more _ (Nat.max f1 f2)) in H1; [|lia].
  apply (parse_rec_more _ (Nat.max f1 f2)) in H2; [|lia].
  rewrite H1 in H2. injection H2 as -> ->. split; reflexivity.
Qed.

(* ----------------------------------------------------------------- *)
(** ** Token traversal at the end of the input *)

Lemma is_empty_peek p :
  is_empty p = true <->
  peek p = None \/ exists tk, peek p = Some tk /\ tk_type tk = LX_EOF.
Proof.
  unfold is_empty, peek, vector_get.
  destruct (nth_error (tokens p) (position p)) as [tk|] eqn:E.
  - assert (Hlt : (position p < List.length (tokens p))%nat)
      by (apply nth_error_Some; congruence).
    apply Nat.leb_gt in Hlt. rewrite Hlt. simpl. rewrite lxtype_eqb_eq.
    split.
    + intros H. right. exists tk. split; [reflexivity | exact H].
    + intros [H | (tk' & H & Ht)]; [discriminate | congruence].
  - split; [left; reflexivity|]. intros _.
    apply nth_error_None in E. apply Nat.leb_le in E. rewrite E. reflexivity.
Qed.

(** C10, as amended.  At the end of the input, that is with the position
    past the last token or on the [LX_EOF] token, [eat] returns the null
    pointer and [consume_optional] returns false, both leaving the parser as
    it was, so [eat] never takes the [LX_EOF] token; [consume] does not
    return: on the [LX_EOF] token it reports [Unexpected token] and the
    process exits. *)
Theorem end_of_input (p : parser) (type : lxtype) :
  (List.length (tokens p) <= position p)%nat
  \/ (exists tk, peek p = Some tk /\ tk_type tk = LX_EOF) ->
  eat p = Ok None p /\
  consume_optional type p = Ok false p /\
  (forall r p', consume type p <> Ok r p') /\
  (forall tk, peek p = Some tk -> consume type p = Exit 0 "Unexpected token" p).
Proof.
  intros Hend.
  assert (He : is_empty p = true).
  { apply is_empty_peek. destruct Hend as [Hend | Hend]; [left | right; exact Hend].
    apply nth_error_None. exact Hend. }
  unfold eat, consume_optional, consume, parsererror.
  rewrite He. simpl. repeat split.
  - intros r p'. destruct (peek p); discriminate.
  - intros tk ->. reflexivity.
Qed.

(** C10, witness: the parser on the [LX_EOF] token. *)
Lemma end_of_input_witness :
  ((List.length (tokens at_eof) <= position at_eof)%nat
   \/ (exists tk, peek at_eof = Some tk /\ tk_type tk = LX_EOF)) /\
  eat at_eof = Ok None at_eof /\
  consume_optional LX_NEWLINE at_eof = Ok false at_eof.
Proof.
  assert (H : (List.length (tokens at_eof) <= position at_eof)%nat
              \/ (exists tk, peek at_eof = Some tk /\ tk_type tk = LX_EOF)).
  { right. exists (token "" LX_EOF). split; reflexivity. }
  split; [exact H|].
  destruct (end_of_input at_eof LX_NEWLINE H) as (He & Hc & _).
  split; [exact He | exact Hc].
Defined.

(** C10, as stated, fails: on the [LX_EOF] token [consume] does not return
    the null pointer, it ends the run with a parse error. *)
Lemma end_of_input_counterexample :
  is_empty at_eof = true /\
  consume LX_RIGHT_PAREN at_eof = Exit 0 "Unexpected token" at_eof /\
  consume LX_RIGHT_PAREN at_eof <> Ok None at_eof.
Proof. repeat split. discriminate. Qed.

(* ----------------------------------------------------------------- *)
(** ** Operator precedence *)

Lemma precedence_by_first_char (op : lxtoken) (p : parser) :
  ~ In (tk_value op) compared_glyphs ->
  let c := first_char (tk_value op) in
  precedence op p =
  (if Ascii.eqb c "|" then ret 4
   else if Ascii.eqb c "^" then ret 5
   else if Ascii.eqb c "&" then ret 6
   else if Ascii.eqb c "<" || Ascii.eqb c ">" then ret 8
   else if Ascii.eqb c "+" || Ascii.eqb c "-" then ret 9
   else if Ascii.eqb c "*" || Ascii.eqb c "/" || Ascii.eqb c "%" then ret 10
   else parsererror "Unknown operator recieved") p.
Proof.
  intros Hn c. unfold precedence, streq.
  assert (E : forall g, In g compared_glyphs -> String.eqb (tk_value op) g = false).
  { intros g Hg. apply String.eqb_neq. intros Heq. rewrite <- Heq in Hg.
    exact (Hn Hg). }
  rewrite !E by (simpl; tauto). reflexivity.
Qed.

(** The values an [LX_OPERATOR] token of [lex] carries: the empty string on
    the [check_pattern] path, one character otherwise. *)
Lemma operator_value_short lx op lx' :
  lex lx = Ok op lx' -> tk_type op = LX_OPERATOR ->
  (String.length (tk_value op) <= 1)%nat.
Proof.
  intros H Hty.
  apply lex_inv in H as (buf & type & Hs & _ & Hv & Ht & _).
  apply lex_scan_inv in Hs. cbv zeta in Hs. rewrite Hv. rewrite Ht in Hty.
  destruct Hs as [(_ & _ & ->)
                 | [(_ & _ & ->)
                   | [(_ & _ & _ & ->)
                     | [(_ & _ & _ & -> & _ & _)
                       | (_ & _ & _ & _ & _ & _ & _ & Hs)]]]].
  - destruct (determine_nature_kinds (cstr buf)) as (_ & Hn). contradiction.
  - discriminate.
  - discriminate.
  - simpl. lia.
  - apply lex_single_operator in Hs as (_ & Hop).
    destruct (Hop Hty) as (-> & _ & Hnul). simpl. rewrite Hnul. simpl. lia.
Qed.

(** C2.  [precedence] gives every glyph of the table its level, and every
    other glyph is reported as an unknown operator: the values of at most
    one character that are not in the table, which are the only other
    values an [LX_OPERATOR] token of [lex] carries. *)
Theorem precedence_levels (p : parser) :
  (forall op l,
      In (tk_value op, l) precedence_table -> precedence op p = Ok l p) /\
  (forall op,
      (String.length (tk_value op) <= 1)%nat ->
      ~ In (tk_value op) (map fst precedence_table) ->
      precedence op p = parsererror "Unknown operator recieved" p) /\
  (forall lx op lx',
      lex lx = Ok op lx' -> tk_type op = LX_OPERATOR ->
      (String.length (tk_value op) <= 1)%nat).
Proof.
  split; [|split].
  - intros op l Hin. unfold precedence. simpl in Hin.
    repeat (destruct Hin as [Hin | Hin];
            [injection Hin as <- <-; reflexivity|]).
    contradiction.
  - intros op Hlen Hout.
    assert (Hn : ~ In (tk_value op) compared_glyphs).
    { intros Hin. apply Hout. simpl in Hin. simpl.
      repeat (destruct Hin as [<- | Hin]; [tauto|]). contradiction. }
    rewrite (precedence_by_first_char op p Hn).
    assert (E : forall x, In x switch_characters ->
                          Ascii.eqb (first_char (tk_value op)) x = false).
    { intros x Hx. apply Ascii.eqb_neq. intros Heq. apply Hout.
      destruct (tk_value op) as [|c [|d rest]]; simpl in *.
      - subst x. repeat (destruct Hx as [Hx | Hx]; [discriminate|]).
        contradiction.
      - subst c. repeat (destruct Hx as [<- | Hx]; [tauto|]). contradiction.
      - lia. }
    cbv zeta. rewrite !E by (simpl; tauto). reflexivity.
  - exact operator_value_short.
Qed.

(** C2, witness: [<=], a glyph of the table; [~], a character without a
    level; and the token [lex] makes of [>=]. *)
Lemma precedence_levels_witness :
  precedence (operator "<=") at_eof = Ok 8 at_eof /\
  precedence (operator "~") at_eof = Exit 0 "Unknown operator recieved" at_eof /\
  (String.length (tk_value (value_of (lex (initial_lexer ">= 1")) no_token)) <= 1)%nat.
Proof.
  destruct (precedence_levels at_eof) as (Htable & Hother & Hlex).
  split; [|split].
  - apply (Htable (operator "<=") 8). simpl. tauto.
  - apply (Hother (operator "~")).
    + simpl. lia.
    + simpl. intuition discriminate.
  - apply (Hlex (initial_lexer ">= 1")
                (value_of (lex (initial_lexer ">= 1")) no_token)
                (state_of (lex (initial_lexer ">= 1")) (initial_lexer ""))).
    + vm_compute. reflexivity.
    + vm_compute. reflexivity.
Defined.

(* ----------------------------------------------------------------- *)
(** ** Vectors used as stacks *)

Lemma vector_top_push {A : Type} (v : list A) (x : A) :
  vector_top (v ++ [x]) = Some x.
Proof.
  unfold vector_top. rewrite map_app. simpl. apply last_last.
Qed.

Lemma vector_pop_push {A : Type} (v : list A) (x : A) :
  vector_pop (v ++ [x]) = Some (x, v).
Proof.
  unfold vector_pop. rewrite vector_top_push, removelast_last. reflexivity.
Qed.

Lemma apply_op_top (operands : list astnode) (operators : list lxtoken)
    (v0 v1 : astnode) (op : lxtoken) :
  apply_op (operands ++ [v0; v1]) (operators ++ [op])
  = Some (binary op v0 v1, operands, operators).
Proof.
  unfold apply_op. rewrite vector_pop_push.
  change (operands ++ [v0; v1]) with (operands ++ [v0] ++ [v1]).
  rewrite app_assoc, !vector_pop_push. reflexivity.
Qed.

Lemma reduce_top_push operands operators v0 v1 op p :
  reduce_top (operands ++ [v0; v1]) (operators ++ [op]) p
  = Ok (operands ++ [binary op v0 v1], operators) p.
Proof. unfold reduce_top, bind, deref. rewrite apply_op_top. reflexivity. Qed.

(* ----------------------------------------------------------------- *)
(** ** Taking a token *)

Lemma is_empty_false p tk :
  peek p = Some tk -> tk_type tk <> LX_EOF -> is_empty p = false.
Proof.
  intros Hp Ht. destruct (is_empty p) eqn:E; [|reflexivity].
  apply is_empty_peek in E as [E | (tk' & E & Ht')]; congruence.
Qed.

Lemma eat_token_some p tk :
  peek p = Some tk -> tk_type tk <> LX_EOF ->
  eat_token p = Ok tk (advance p).
Proof.
  intros Hp Ht. unfold eat_token, bind, eat.
  rewrite (is_empty_false _ _ Hp Ht). simpl.
  unfold peek in Hp. rewrite Hp. reflexivity.
Qed.

Lemma peek_is_type p tk type :
  peek p = Some tk -> tk_type tk = type -> peek_is type p = true.
Proof.
  intros Hp Ht. unfold peek_is. rewrite Hp. apply lxtype_eqb_eq. exact Ht.
Qed.

(* ----------------------------------------------------------------- *)
(** ** The loop of [parse_expression] *)

Lemma expression_loop_step fuel primaries operators p op :
  peek p = Some op -> tk_type op = LX_OPERATOR ->
  parse_rec (S fuel) (ExpressionLoop primaries operators) p
  = (r <- shunting_yard (List.length operators) op primaries operators ;;
     next <- parse_rec fuel Primary ;;
     parse_rec fuel (ExpressionLoop (vector_push (fst r) next)
                                    (vector_push (snd r) op))) (advance p).
Proof.
  intros Hp Ht. simpl.
  rewrite (is_empty_false _ _ Hp) by (rewrite Ht; discriminate).
  rewrite (peek_is_type _ _ _ Hp Ht). simpl.
  unfold bind at 1. rewrite (eat_token_some _ _ Hp) by (rewrite Ht; discriminate).
  unfold bind. destruct (shunting_yard _ _ _ _ _) as [[pr os] p1| | |]; reflexivity.
Qed.

Lemma expression_loop_end fuel primaries operators p :
  expression_ends p ->
  parse_rec (S fuel) (ExpressionLoop primaries operators) p
  = apply_remaining (List.length operators) primaries operators p.
Proof. intros He. simpl. unfold expression_ends in He. rewrite He. reflexivity. Qed.

Lemma node_size_binary op a b :
  node_size (binary op a b) = S (node_size a + (node_size b + 0))%nat.
Proof. reflexivity. Qed.

Lemma binary_left_not_right op1 op2 a b c :
  binary op2 (binary op1 a b) c <> binary op1 a (binary op2 b c).
Proof.
  intros H. apply (f_equal node_children) in H. simpl in H.
  injection H as Ha _.
  apply (f_equal node_size) in Ha. rewrite node_size_binary in Ha. lia.
Qed.

Lemma expression_unfold fuel p :
  parse_rec (S fuel) Expression p
  = (first <- parse_rec fuel Primary ;;
     parse_rec fuel (ExpressionLoop [first] [])) p.
Proof. reflexivity. Qed.

(** The inner loop on the second operator of [a op1 b op2 c]. *)
Lemma shunting_yard_second op1 op2 l1 l2 a b p :
  level op1 l1 -> level op2 l2 ->
  shunting_yard 1 op2 [a; b] [op1] p
  = Ok (if l2 <=? l1 then ([binary op1 a b], []) else ([a; b], [op1])) p.
Proof.
  intros H1 H2. simpl. unfold bind at 1. simpl.
  unfold bind at 1. rewrite (H2 p).
  unfold bind at 1. rewrite (H1 p).
  destruct (l2 <=? l1); [|reflexivity].
  unfold bind.
  change (reduce_top [a; b] [op1] p)
    with (reduce_top ([] ++ [a; b]) ([] ++ [op1]) p).
  rewrite reduce_top_push. reflexivity.
Qed.

(** The tree [parse_expression] returns for [a op1 b op2 c]. *)
Lemma parse_expression_three p0 a p1 op1 b p2 op2 c p3 l1 l2 :
  parses Primary p0 a p1 ->
  peek p1 = Some op1 -> tk_type op1 = LX_OPERATOR ->
  parses Primary (advance p1) b p2 ->
  peek p2 = Some op2 -> tk_type op2 = LX_OPERATOR ->
  parses Primary (advance p2) c p3 ->
  expression_ends p3 ->
  level op1 l1 -> level op2 l2 ->
  parses Expression p0
         (if l2 <=? l1
          then binary op2 (binary op1 a b) c
          else binary op1 a (binary op2 b c)) p3.
Proof.
  intros [fa Ha] Hp1 Ht1 [fb Hb] Hp2 Ht2 [fc Hc] Hend Hl1 Hl2.
  set (F := Nat.max fa (Nat.max fb fc)).
  apply (parse_rec_more _ (S (S (S F)))) in Ha; [|lia].
  apply (parse_rec_more _ (S (S F))) in Hb; [|lia].
  apply (parse_rec_more _ (S F)) in Hc; [|lia].
  exists (S (S (S (S F)))).
  rewrite expression_unfold, (bind_ok _ _ _ _ _ Ha).
  rewrite (expression_loop_step _ _ _ _ _ Hp1 Ht1).
  erewrite bind_ok; [|reflexivity].
  rewrite (bind_ok _ _ _ _ _ Hb).
  rewrite (expression_loop_step _ _ _ _ _ Hp2 Ht2).
  erewrite bind_ok;
    [|exact (shunting_yard_second op1 op2 l1 l2 a b _ Hl1 Hl2)].
  rewrite (bind_ok _ _ _ _ _ Hc).
  rewrite (expression_loop_end _ _ _ _ Hend).
  destruct (l2 <=? l1); reflexivity.
Qed.

(** C1.  For [a op1 b op2 c], where [a], [b] and [c] are parsed by
    [parse_primary], [op1] and [op2] are operator tokens with precedence
    levels [l1] and [l2] and no operator follows [c], [parse_expression]
    returns the left-grouped tree [(a op1 b) op2 c] if and only if
    [l1 >= l2], and otherwise the right-grouped tree [a op1 (b op2 c)]; in
    particular operators of equal precedence group to the left.  [apply_op]
    makes the operand pushed earlier the first child. *)
Theorem parse_expression_grouping p0 a p1 op1 b p2 op2 c p3 l1 l2 :
  parses Primary p0 a p1 ->
  peek p1 = Some op1 -> tk_type op1 = LX_OPERATOR ->
  parses Primary (advance p1) b p2 ->
  peek p2 = Some op2 -> tk_type op2 = LX_OPERATOR ->
  parses Primary (advance p2) c p3 ->
  expression_ends p3 ->
  level op1 l1 -> level op2 l2 ->
  (parses Expression p0 (binary op2 (binary op1 a b) c) p3 <-> l1 >= l2) /\
  (parses Expression p0 (binary op1 a (binary op2 b c)) p3 <-> l1 < l2) /\
  (l1 = l2 -> parses Expression p0 (binary op2 (binary op1 a b) c) p3) /\
  (forall operands operators v0 v1 op,
      apply_op (operands ++ [v0; v1]) (operators ++ [op])
      = Some (binary op v0 v1, operands, operators)).
Proof.
  intros Ha Hp1 Ht1 Hb Hp2 Ht2 Hc Hend Hl1 Hl2.
  pose proof (parse_expression_three _ _ _ _ _ _ _ _ _ _ _
                Ha Hp1 Ht1 Hb Hp2 Ht2 Hc Hend Hl1 Hl2) as H.
  destruct (l2 <=? l1) eqn:E; [apply Z.leb_le in E | apply Z.leb_gt in E].
  - split; [|split; [|split]].
    + split; [lia | intros _; exact H].
    + split; [|lia]. intros H'.
      destruct (parses_deterministic _ _ _ _ _ _ H H') as (Hn & _).
      exfalso. exact (binary_left_not_right _ _ _ _ _ Hn).
    + intros _. exact H.
    + intros. apply apply_op_top.
  - split; [|split; [|split]].
    + split; [|lia]. intros H'.
      destruct (parses_deterministic _ _ _ _ _ _ H' H) as (Hn & _).
      exfalso. exact (binary_left_not_right _ _ _ _ _ Hn).
    + split; [lia | intros _; exact H].
    + lia.
    + intros. apply apply_op_top.
Qed.

(* ----------------------------------------------------------------- *)
(** ** Blocks *)

Lemma push_child_keeps node child :
  node_value (push_child node child) = node_value node /\
  node_type (push_child node child) = node_type node.
Proof. destruct node. split; reflexivity. Qed.

Lemma block_loop_keeps fuel : forall terminal block p n p',
  parse_rec fuel (BlockLoop terminal block) p = Ok n p' ->
  node_value n = node_value block /\ node_type n = node_type block.
Proof.
  induction fuel as [|fuel IH]; intros terminal block p n p' H; [discriminate|].
  simpl in H.
  destruct (negb (is_empty p) && negb (peek_is terminal p)).
  - apply bind_ok_inv in H as (st & p1 & _ & H).
    apply bind_ok_inv in H as (u & p2 & _ & H).
    apply IH in H as (Hv & Ht).
    destruct (push_child_keeps block st) as (Hv' & Ht').
    split; congruence.
  - injection H as <- _. split; reflexivity.
Qed.

Lemma block_is_block fuel terminal p n p' :
  parse_rec fuel (Block terminal) p = Ok n p' -> is_block n.
Proof.
  destruct fuel as [|fuel]; [discriminate|]. simpl. intros H.
  apply bind_ok_inv in H as (tk & p1 & _ & H).
  apply bind_ok_inv in H as (u & p2 & _ & H).
  apply block_loop_keeps in H. exact H.
Qed.

Lemma braced_block_inv fuel node p n p' :
  braced_block (parse_rec fuel) node p = Ok n p' ->
  exists block, is_block block /\ n = push_child node block.
Proof.
  unfold braced_block. intros H.
  apply bind_ok_inv in H as (u & p1 & _ & H).
  apply bind_ok_inv in H as (lb & p2 & _ & H).
  apply bind_ok_inv in H as (block & p3 & Hb & H).
  apply bind_ok_inv in H as (rb & p4 & _ & H).
  injection H as <- _. exists block. split; [|reflexivity].
  eapply block_is_block; exact Hb.
Qed.

(* ----------------------------------------------------------------- *)
(** ** The else-chain *)

Lemma link_branches_value rest : forall b0,
  node_value (link_branches b0 rest) = node_value b0.
Proof.
  destruct rest as [|b rest]; intros b0; simpl; [reflexivity|].
  apply push_child_keeps.
Qed.

Lemma link_open rest : forall b0,
  open_conditional b0 -> Forall open_conditional rest ->
  else_chain (link_branches b0 rest).
Proof.
  induction rest as [|b rest IH]; intros b0 (pos & cond & body & Hb & ->) Hr; simpl.
  - apply chain_conditional. exact Hb.
  - inversion Hr as [|? ? Hob Hrest]; subst.
    apply chain_link; [exact Hb | apply IH; assumption].
Qed.

Lemma link_closed rest : forall b0 alt,
  open_conditional b0 -> Forall open_conditional rest -> closing_alt alt ->
  else_chain (link_branches b0 (rest ++ [alt])).
Proof.
  induction rest as [|b rest IH];
    intros b0 alt (pos & cond & body & Hb & ->) Hr Halt; simpl.
  - destruct Halt as (pos' & body' & Hb' & ->).
    apply chain_link; [exact Hb | apply chain_alt; exact Hb'].
  - inversion Hr as [|? ? Hob Hrest]; subst.
    apply chain_link; [exact Hb | apply IH; assumption].
Qed.

Lemma else_loop_shape fuel : forall b0 rest p n p',
  open_conditional b0 -> Forall open_conditional rest ->
  parse_rec fuel (ElseLoop (b0 :: rest)) p = Ok n p' ->
  node_value n = node_value b0 /\ else_chain n.
Proof.
  induction fuel as [|fuel IH]; intros b0 rest p n p' Hb0 Hrest H; [discriminate|].
  simpl in H.
  apply bind_ok_inv in H as (tk & p1 & _ & H).
  destruct (lxtype_eqb (tk_type tk) LX_ELSE).
  - apply bind_ok_inv in H as (kw & p2 & _ & H).
    apply bind_ok_inv in H as (elif & p3 & _ & H).
    apply bind_ok_inv in H as (branch & p4 & Hbranch & H).
    apply bind_ok_inv in H as (branch' & p5 & Hbody & H).
    apply bind_ok_inv in H as (u & p6 & _ & H).
    apply braced_block_inv in Hbody as (block & Hblock & ->).
    destruct elif.
    + apply bind_ok_inv in Hbranch as (cond & p7 & _ & Hbranch).
      injection Hbranch as <- _. simpl in H.
      apply (IH b0 (rest ++ [astnode_new "conditional" AST_BRANCHES
                                          (clone_pos (tk_pos kw)) [cond; block]]))
        in H; [exact H | exact Hb0 |].
      apply Forall_app. split; [exact Hrest|].
      constructor; [|constructor].
      exists (clone_pos (tk_pos kw)), cond, block. split; [exact Hblock | reflexivity].
    + injection Hbranch as <- _. simpl in H. injection H as <- _.
      split; [apply link_branches_value|].
      apply link_closed; [exact Hb0 | exact Hrest |].
      exists (clone_pos (tk_pos kw)), block. split; [exact Hblock | reflexivity].
  - simpl in H. injection H as <- _.
    split; [apply link_branches_value | apply link_open; assumption].
Qed.

Lemma parse_branching_shape fuel p n p' :
  parse_branching fuel p = Ok n p' ->
  node_value n = "conditional" /\ else_chain n.
Proof.
  unfold parse_branching. destruct fuel as [|fuel]; [discriminate|].
  simpl. intros H.
  apply bind_ok_inv in H as (kw & p1 & _ & H).
  apply bind_ok_inv in H as (cond & p2 & _ & H).
  apply bind_ok_inv in H as (branch0 & p3 & Hbody & H).
  apply bind_ok_inv in H as (u & p4 & _ & H).
  apply braced_block_inv in Hbody as (block & Hblock & ->).
  apply else_loop_shape in H; [exact H| |constructor].
  exists (clone_pos (tk_pos kw)), cond, block. split; [exact Hblock | reflexivity].
Qed.

(* ----------------------------------------------------------------- *)
(** ** Every else-chain of the grammar is parsed *)

Lemma consume_token_some p tk type :
  peek p = Some tk -> tk_type tk = type -> type <> LX_EOF ->
  consume_token type p = Ok tk (advance p).
Proof.
  intros Hp Ht Hn. unfold consume_token, bind, consume.
  rewrite (is_empty_false _ _ Hp) by congruence.
  rewrite (peek_is_type _ _ _ Hp Ht). simpl.
  unfold eat. rewrite (is_empty_false _ _ Hp) by congruence. simpl.
  unfold peek in Hp. rewrite Hp. reflexivity.
Qed.

Lemma consume_optional_taken p type :
  peek_is type p = true -> type <> LX_EOF ->
  consume_optional type p = Ok true (advance p).
Proof.
  intros Hp Hn. unfold consume_optional.
  unfold peek_is in Hp. destruct (peek p) as [tk|] eqn:E; [|discriminate].
  apply lxtype_eqb_eq in Hp.
  rewrite (is_empty_false _ _ E) by congruence.
  unfold peek_is. rewrite E. rewrite (proj2 (lxtype_eqb_eq _ _) Hp). simpl.
  unfold bind, eat. rewrite (is_empty_false _ _ E) by congruence. reflexivity.
Qed.

Lemma consume_optional_left p type :
  peek_is type p = false -> consume_optional type p = Ok false p.
Proof.
  intros Hp. unfold consume_optional. rewrite Hp, andb_false_r. reflexivity.
Qed.

Lemma body_at_braced p body p' :
  body_at p body p' ->
  exists fuel0 p4,
    strip_newlines p4 = Ok tt p' /\
    forall fuel node,
      (fuel0 <= fuel)%nat ->
      braced_block (parse_rec fuel) node p = Ok (push_child node body) p4.
Proof.
  intros (p1 & lb & p2 & p3 & rb & p4 & Hs1 & Hlb & [f Hb] & Hrb & Hs2).
  exists f, p4. split; [exact Hs2|].
  intros fuel node Hle. unfold braced_block.
  rewrite (bind_ok _ _ _ _ _ Hs1), (bind_ok _ _ _ _ _ Hlb).
  rewrite (bind_ok _ _ _ _ _ (parse_rec_more _ _ _ _ _ _ Hb Hle)).
  rewrite (bind_ok _ _ _ _ _ Hrb). reflexivity.
Qed.

Lemma else_loop_unfold fuel chain p :
  parse_rec (S fuel) (ElseLoop chain) p
  = parse_body (parse_rec fuel) (ElseLoop chain) p.
Proof. reflexivity. Qed.

Lemma else_branches_parsed p rest p' :
  else_branches p rest p' ->
  exists fuel0,
    forall fuel b0 chain,
      (fuel0 <= fuel)%nat ->
      parse_rec fuel (ElseLoop (b0 :: chain)) p
      = Ok (link_branches b0 (chain ++ rest)) p'.
Proof.
  induction 1 as [p tk Hp Ht
                 | p kw body p' Hp Ht Hif Hbody
                 | p kw cond p1 body p2 rest p' Hp Ht Hif [fc Hc] Hbody Hrest IH].
  - exists 1%nat. intros [|fuel] b0 chain Hle; [lia|].
    rewrite else_loop_unfold. unfold parse_body.
    unfold bind at 1. unfold peek_token, deref. rewrite Hp.
    destruct (lxtype_eqb (tk_type tk) LX_ELSE) eqn:E;
      [apply lxtype_eqb_eq in E; contradiction|].
    rewrite app_nil_r. reflexivity.
  - destruct (body_at_braced _ _ _ Hbody) as (fb & p4 & Hs & Hbr).
    exists (S fb). intros [|fuel] b0 chain Hle; [lia|].
    rewrite else_loop_unfold. unfold parse_body.
    unfold bind at 1. unfold peek_token, deref. rewrite Hp.
    rewrite (proj2 (lxtype_eqb_eq _ _) Ht).
    rewrite (bind_ok _ _ _ _ _ (eat_token_some _ _ Hp ltac:(rewrite Ht; discriminate))).
    rewrite (bind_ok _ _ _ _ _ (consume_optional_left _ _ Hif)).
    unfold bind at 1. unfold ret at 1.
    rewrite (bind_ok _ _ _ _ _ (Hbr fuel _ ltac:(lia))).
    rewrite (bind_ok _ _ _ _ _ Hs). reflexivity.
  - destruct (body_at_braced _ _ _ Hbody) as (fb & p4 & Hs & Hbr).
    destruct IH as (fr & IH).
    exists (S (Nat.max fc (Nat.max fb fr))). intros [|fuel] b0 chain Hle; [lia|].
    rewrite else_loop_unfold. unfold parse_body.
    unfold bind at 1. unfold peek_token, deref. rewrite Hp.
    rewrite (proj2 (lxtype_eqb_eq _ _) Ht).
    rewrite (bind_ok _ _ _ _ _ (eat_token_some _ _ Hp ltac:(rewrite Ht; discriminate))).
    rewrite (bind_ok _ _ _ _ _ (consume_optional_taken _ _ Hif ltac:(discriminate))).
    unfold bind at 1.
    rewrite (bind_ok _ _ _ _ _ (parse_rec_more _ fuel _ _ _ _ Hc ltac:(lia))).
    unfold ret at 1.
    rewrite (bind_ok _ _ _ _ _ (Hbr fuel _ ltac:(lia))).
    rewrite (bind_ok _ _ _ _ _ Hs). simpl.
    unfold vector_push. simpl. rewrite (IH fuel b0 _ ltac:(lia)).
    rewrite <- app_assoc. reflexivity.
Qed.

Lemma if_statement_parsed p tree p' :
  if_statement p tree p' -> parses Branching p tree p'.
Proof.
  intros (kw & cond & p1 & body & p2 & rest & Hp & Ht & [fc Hc] & Hbody & Hrest & ->).
  destruct (body_at_braced _ _ _ Hbody) as (fb & p4 & Hs & Hbr).
  destruct (else_branches_parsed _ _ _ Hrest) as (fr & Hloop).
  exists (S (Nat.max fc (Nat.max fb fr))).
  set (fuel := Nat.max fc (Nat.max fb fr)).
  change (parse_rec (S fuel) Branching p)
    with (parse_body (parse_rec fuel) Branching p).
  unfold parse_body.
  rewrite (bind_ok _ _ _ _ _ (consume_token_some _ _ _ Hp Ht ltac:(discriminate))).
  rewrite (bind_ok _ _ _ _ _ (parse_rec_more _ fuel _ _ _ _ Hc ltac:(lia))).
  rewrite (bind_ok _ _ _ _ _ (Hbr fuel _ ltac:(lia))).
  rewrite (bind_ok _ _ _ _ _ Hs).
  rewrite (Hloop fuel _ [] ltac:(lia)). reflexivity.
Qed.

(** C6.  Every if statement of the grammar — [if], a condition, a body
    block, then any number of [else if] branches and possibly a bare [else]
    — is parsed by [parse_branching] into the tree in which each branch is
    the last child of the branch before it; and every tree
    [parse_branching] returns is such a right-leaning chain: its root and
    every [else if] are [conditional] branches holding the condition, the
    body block and, when the chain goes on, the next branch; a bare [else]
    is an [alt] branch with the body block as its only child, so nothing is
    chained after it. *)
Theorem parse_branching_chain :
  (forall p tree p', if_statement p tree p' -> parses Branching p tree p') /\
  (forall fuel p n p',
      parse_branching fuel p = Ok n p' ->
      node_type n = AST_BRANCHES /\ node_value n = "conditional" /\ else_chain n).
Proof.
  split.
  - exact if_statement_parsed.
  - intros fuel p n p' H. apply parse_branching_shape in H as (Hv & Hc).
    split; [|split; assumption].
    destruct Hc; reflexivity.
Qed.

(* ================================================================= *)
(** * Exit statuses *)

Lemma exit0_ok {S A : Type} (a : A) (s : S) : exit0 (Ok a s).
Proof. intros st msg s' H. discriminate. Qed.

Lemma exit0_zero {S A : Type} msg (s : S) : exit0 (@Exit S A 0 msg s).
Proof. intros st msg' s' H. injection H as <- _ _. reflexivity. Qed.

Lemma exit0_fault {S A : Type} : exit0 (@Fault S A).
Proof. intros st msg s' H. discriminate. Qed.

Lemma exit0_fuel {S A : Type} : exit0 (@OutOfFuel S A).
Proof. intros st msg s' H. discriminate. Qed.

Lemma bind_exit0 {S A B : Type} (m : M S A) (k : A -> M S B) s :
  exit0 (m s) -> (forall a s1, exit0 (k a s1)) -> exit0 (bind m k s).
Proof.
  intros Hm Hk st msg s' H.
  apply bind_exit_inv in H as [H | (a & s1 & _ & H)].
  - exact (Hm _ _ _ H).
  - exact (Hk _ _ _ _ _ H).
Qed.

Lemma exit0_never {S A : Type} (r : result S A) :
  (forall st msg s, r <> Exit st msg s) -> exit0 r.
Proof. intros H st msg s E. exfalso. exact (H _ _ _ E). Qed.

(* ----------------------------------------------------------------- *)
(** ** The lexer *)

Lemma lex_single_exit0 c lx : exit0 (lex_single c lx).
Proof.
  unfold lex_single, ret, lexerror.
  repeat match goal with
         | |- context [if ?b then _ else _] => destruct b
         end; first [apply exit0_ok | apply exit0_zero].
Qed.

Lemma lex_exit0 lx : exit0 (lex lx).
Proof.
  unfold lex. apply bind_exit0.
  - unfold lex_scan.
    destruct (isalpha _ || Ascii.eqb _ "_").
    { apply bind_exit0; [|intros; apply exit0_ok].
      apply exit0_never. intros. apply advance_while_not_exit. }
    destruct (isdigit _).
    { apply bind_exit0; [|intros; apply exit0_ok].
      apply exit0_never. intros. apply advance_while_not_exit. }
    destruct (Ascii.eqb _ dquote).
    { apply bind_exit0; [apply exit0_never; intros; apply lexadvance_not_exit|].
      intros. apply bind_exit0; [|intros; apply exit0_ok].
      apply exit0_never. intros. apply string_body_not_exit. }
    apply bind_exit0;
      [apply exit0_never; intros; apply check_pattern_not_exit|].
    intros [|] lx1; [apply exit0_ok|].
    apply bind_exit0;
      [apply exit0_never; intros; apply check_pattern_not_exit|].
    intros [|] lx2; [apply exit0_ok|].
    apply bind_exit0;
      [apply exit0_never; intros; apply check_pattern_not_exit|].
    intros [|] lx3; [apply exit0_ok|].
    apply bind_exit0; [apply exit0_never; intros; apply lexadvance_not_exit|].
    intros. apply lex_single_exit0.
  - intros [buf type] lx1.
    destruct (LEX_BUF_SIZE <=? _); [apply exit0_fault | apply exit0_ok].
Qed.

Lemma lexify_loop_exit0 fuel : forall tokens lx,
  exit0 (lexify_loop fuel tokens lx).
Proof.
  induction fuel as [|fuel IH]; intros tokens lx; simpl; [apply exit0_fuel|].
  apply bind_exit0; [apply lex_exit0|].
  intros token lx1.
  destruct (lxtype_eqb (tk_type token) LX_EOF); [apply exit0_ok|].
  destruct (negb _ && negb _); apply IH.
Qed.

Lemma lex_source_exit0 src : exit0 (lex_source src).
Proof.
  unfold lex_source. destruct (lexer_new src); [|apply exit0_fault].
  apply lexify_loop_exit0.
Qed.

(* ----------------------------------------------------------------- *)
(** ** The parser *)

Lemma parsererror_exit0 {A : Type} msg p : exit0 (@parsererror A msg p).
Proof. unfold parsererror. destruct (peek p); [apply exit0_zero | apply exit0_fault]. Qed.

Lemma deref_exit0 {S A : Type} (ptr : option A) (s : S) : exit0 (deref ptr s).
Proof. unfold deref. destruct ptr; [apply exit0_ok | apply exit0_fault]. Qed.

Lemma eat_exit0 p : exit0 (eat p).
Proof. unfold eat. destruct (negb _); apply exit0_ok. Qed.

Lemma consume_exit0 type p : exit0 (consume type p).
Proof.
  unfold consume. destruct (_ && _); [apply eat_exit0 | apply parsererror_exit0].
Qed.

Lemma consume_optional_exit0 type p : exit0 (consume_optional type p).
Proof.
  unfold consume_optional. destruct (_ && _); [|apply exit0_ok].
  apply bind_exit0; [apply eat_exit0 | intros; apply exit0_ok].
Qed.

Lemma strip_loop_exit0 n : forall p, exit0 (strip_loop n p).
Proof.
  induction n as [|n IH]; intros p; simpl;
    (apply bind_exit0; [apply consume_optional_exit0|]);
    intros [|] p1; first [apply exit0_ok | apply exit0_fuel | apply IH].
Qed.

Lemma strip_newlines_exit0 p : exit0 (strip_newlines p).
Proof. apply strip_loop_exit0. Qed.

Lemma precedence_exit0 op p : exit0 (precedence op p).
Proof.
  unfold precedence, ret.
  repeat match goal with
         | |- context [if ?b then _ else _] => destruct b
         end; first [apply exit0_ok | apply parsererror_exit0].
Qed.

Ltac exit0_step Hself :=
  first
    [ apply exit0_ok | apply exit0_fault | apply exit0_fuel
    | apply Hself
    | apply parsererror_exit0 | apply deref_exit0 | apply eat_exit0
    | apply consume_exit0 | apply consume_optional_exit0
    | apply strip_newlines_exit0 | apply precedence_exit0
    | apply bind_exit0; [| intros ? ?; cbv beta]
    | match goal with
      | |- exit0 ((if ?b then _ else _) _) => destruct b
      | |- exit0 (if ?b then _ else _) => destruct b
      | |- exit0 ((match ?x with _ => _ end) _) => destruct x
      | |- exit0 (match ?x with _ => _ end) => destruct x
      end ].

Lemma reduce_top_exit0 primaries operators p :
  exit0 (reduce_top primaries operators p).
Proof.
  unfold reduce_top. repeat exit0_step I.
Qed.

Lemma shunting_yard_exit0 size : forall op primaries operators p,
  exit0 (shunting_yard size op primaries operators p).
Proof.
  induction size as [|size IH]; intros op primaries operators p; simpl;
    repeat first [apply reduce_top_exit0 | apply IH | exit0_step I].
Qed.

Lemma apply_remaining_exit0 size : forall primaries operators p,
  exit0 (apply_remaining size primaries operators p).
Proof.
  induction size as [|size IH]; intros primaries operators p; simpl;
    repeat first [apply reduce_top_exit0 | apply IH | exit0_step I].
Qed.

Lemma parse_body_exit0 (self : call -> M parser astnode) :
  (forall c p, exit0 (self c p)) ->
  forall c p, exit0 (parse_body self c p).
Proof.
  intros Hself c p.
  destruct c; unfold parse_body, braced_block, table_key, peek_token,
    lookahead_token, eat_token, consume_token, link_chain, ret;
    repeat first [ apply shunting_yard_exit0 | apply apply_remaining_exit0
                 | exit0_step Hself ].
Qed.

Lemma parse_rec_exit0 fuel : forall c p, exit0 (parse_rec fuel c p).
Proof.
  induction fuel as [|fuel IH]; intros c p; [apply exit0_fuel|].
  apply parse_body_exit0. exact IH.
Qed.

(* ================================================================= *)
(** * Instances *)

(** C1, witness: [1 - 2 + 3] is grouped as [(1 - 2) + 3]. *)
Lemma parse_expression_grouping_witness :
  parses Primary (parser_at 0 sum_tokens) (integer "1") (parser_at 1 sum_tokens) /\
  peek (parser_at 1 sum_tokens) = Some (operator "-") /\
  tk_type (operator "-") = LX_OPERATOR /\
  parses Primary (advance (parser_at 1 sum_tokens)) (integer "2")
         (parser_at 3 sum_tokens) /\
  peek (parser_at 3 sum_tokens) = Some (operator "+") /\
  tk_type (operator "+") = LX_OPERATOR /\
  parses Primary (advance (parser_at 3 sum_tokens)) (integer "3")
         (parser_at 5 sum_tokens) /\
  expression_ends (parser_at 5 sum_tokens) /\
  level (operator "-") 9 /\ level (operator "+") 9 /\
  parses Expression (parser_at 0 sum_tokens)
         (binary (operator "+")
                 (binary (operator "-") (integer "1") (integer "2"))
                 (integer "3"))
         (parser_at 5 sum_tokens).
Proof.
  assert (Ha : parses Primary (parser_at 0 sum_tokens) (integer "1")
                      (parser_at 1 sum_tokens))
    by (exists 1%nat; reflexivity).
  assert (Hb : parses Primary (advance (parser_at 1 sum_tokens)) (integer "2")
                      (parser_at 3 sum_tokens))
    by (exists 1%nat; reflexivity).
  assert (Hc : parses Primary (advance (parser_at 3 sum_tokens)) (integer "3")
                      (parser_at 5 sum_tokens))
    by (exists 1%nat; reflexivity).
  assert (Hl1 : level (operator "-") 9) by (intros p; reflexivity).
  assert (Hl2 : level (operator "+") 9) by (intros p; reflexivity).
  repeat (split; [first [assumption | reflexivity]|]).
  apply (parse_expression_grouping
           (parser_at 0 sum_tokens) (integer "1")
           (parser_at 1 sum_tokens) (operator "-") (integer "2")
           (parser_at 3 sum_tokens) (operator "+") (integer "3")
           (parser_at 5 sum_tokens) 9 9
           Ha eq_refl eq_refl Hb eq_refl eq_refl Hc eq_refl Hl1 Hl2).
  lia.
Defined.

(** C6, witness: [if a { } else if b { } else { } else { }]; the parser
    stops in front of the second bare [else]. *)
Lemma parse_branching_chain_witness :
  if_statement (parser_on chain_tokens) chain_tree (parser_at 12 chain_tokens) /\
  parses Branching (parser_on chain_tokens) chain_tree (parser_at 12 chain_tokens) /\
  parse_branching 8 (parser_on chain_tokens)
  = Ok chain_tree (parser_at 12 chain_tokens) /\
  else_chain chain_tree.
Proof.
  assert (Hbody : forall n,
             (n = 2 \/ n = 7 \/ n = 10)%nat ->
             body_at (parser_at n chain_tokens) empty_block
                     (parser_at (n + 2) chain_tokens)).
  { intros n Hn.
    exists (parser_at n chain_tokens), (Some (token "" LX_LEFT_BRACE)),
      (parser_at (n + 1) chain_tokens), (parser_at (n + 1) chain_tokens),
      (Some (token "" LX_RIGHT_BRACE)), (parser_at (n + 2) chain_tokens).
    destruct Hn as [-> | [-> | ->]];
      (repeat split; try reflexivity; exists 3%nat; reflexivity). }
  assert (Hif : if_statement (parser_on chain_tokens) chain_tree
                             (parser_at 12 chain_tokens)).
  { exists (token "if" LX_IF), (reference "a"), (parser_at 2 chain_tokens),
      empty_block, (parser_at 4 chain_tokens),
      [astnode_new "conditional" AST_BRANCHES (clone_pos (mk_lxpos 0 0 0 0))
                   [reference "b"; empty_block];
       astnode_new "alt" AST_BRANCHES (clone_pos (mk_lxpos 0 0 0 0))
                   [empty_block]].
    split; [reflexivity|]. split; [reflexivity|].
    split; [exists 3%nat; reflexivity|].
    split; [apply (Hbody 2%nat); tauto|].
    split; [|reflexivity].
    apply (branches_else_if (parser_at 4 chain_tokens) (token "else" LX_ELSE)
             (reference "b") (parser_at 7 chain_tokens) empty_block
             (parser_at 9 chain_tokens));
      try reflexivity.
    - exists 3%nat. reflexivity.
    - apply (Hbody 7%nat). tauto.
    - apply (branches_else (parser_at 9 chain_tokens) (token "else" LX_ELSE)
               empty_block (parser_at 12 chain_tokens));
        try reflexivity.
      apply (Hbody 10%nat). tauto. }
  split; [exact Hif|].
  split; [exact (proj1 parse_branching_chain _ _ _ Hif)|].
  assert (Hrun : parse_branching 8 (parser_on chain_tokens)
                 = Ok chain_tree (parser_at 12 chain_tokens))
    by (vm_compute; reflexivity).
  split; [exact Hrun|].
  exact (proj2 (proj2 (proj2 parse_branching_chain _ _ _ _ Hrun))).
Defined.

(* ================================================================= *)
(** * The parser terminates *)

(* ----------------------------------------------------------------- *)
(** ** What the token helpers do to the position *)

Lemma eat_remaining p r p' :
  eat p = Ok r p' ->
  (remaining p' <= remaining p)%nat /\
  (r <> None -> (remaining p' < remaining p)%nat).
Proof.
  unfold eat. destruct (is_empty p) eqn:E; simpl; intros H;
    injection H as <- <-.
  - split; [lia | congruence].
  - unfold is_empty in E. apply orb_false_iff in E as (E & _).
    apply Nat.leb_gt in E. unfold remaining. simpl. split; lia.
Qed.

Lemma eat_token_remaining p tk p' :
  eat_token p = Ok tk p' -> (remaining p' < remaining p)%nat.
Proof.
  unfold eat_token. intros H. apply bind_ok_inv in H as (r & p1 & He & H).
  apply eat_remaining in He as (_ & He).
  unfold deref in H. destruct r; [|discriminate]. injection H as _ <-.
  apply He. discriminate.
Qed.

Lemma parsererror_not_ok {A : Type} msg p (a : A) p' :
  parsererror msg p <> Ok a p'.
Proof. unfold parsererror. destruct (peek p); discriminate. Qed.

Lemma consume_remaining type p r p' :
  consume type p = Ok r p' -> (remaining p' < remaining p)%nat.
Proof.
  unfold consume.
  destruct (negb (is_empty p)) eqn:E; simpl;
    [destruct (peek_is type p)|]; simpl; intros H;
    try (exfalso; exact (parsererror_not_ok _ _ _ _ H)).
  unfold eat in H. rewrite E in H. injection H as _ <-.
  apply negb_true_iff in E. unfold is_empty in E.
  apply orb_false_iff in E as (E & _). apply Nat.leb_gt in E.
  unfold remaining. simpl. lia.
Qed.

Lemma consume_token_remaining type p tk p' :
  consume_token type p = Ok tk p' -> (remaining p' < remaining p)%nat.
Proof.
  unfold consume_token. intros H. apply bind_ok_inv in H as (r & p1 & Hc & H).
  apply consume_remaining in Hc.
  unfold deref in H. destruct r; [|discriminate]. injection H as _ <-. exact Hc.
Qed.

Lemma consume_optional_remaining type p b p' :
  consume_optional type p = Ok b p' ->
  (remaining p' <= remaining p)%nat /\
  (b = true -> (remaining p' < remaining p)%nat).
Proof.
  unfold consume_optional.
  destruct (negb (is_empty p)) eqn:E; simpl;
    [destruct (peek_is type p)|]; simpl; intros H;
    try (injection H as <- <-; split; [lia | discriminate]).
  apply bind_ok_inv in H as (r & p1 & He & H). injection H as <- <-.
  unfold eat in He. rewrite E in He. injection He as _ <-.
  apply negb_true_iff in E. unfold is_empty in E.
  apply orb_false_iff in E as (E & _). apply Nat.leb_gt in E.
  unfold remaining. simpl. split; lia.
Qed.

Lemma strip_loop_remaining n : forall p u p',
  strip_loop n p = Ok u p' -> (remaining p' <= remaining p)%nat.
Proof.
  induction n as [|n IH]; intros p u p' H; simpl in H;
    apply bind_ok_inv in H as (b & p1 & Hc & H);
    apply consume_optional_remaining in Hc as (Hc & _);
    destruct b; try discriminate.
  - injection H as _ <-. exact Hc.
  - apply IH in H. lia.
  - injection H as _ <-. exact Hc.
Qed.

Lemma strip_newlines_remaining p u p' :
  strip_newlines p = Ok u p' -> (remaining p' <= remaining p)%nat.
Proof. apply strip_loop_remaining. Qed.

Lemma strip_loop_not_fuel n : forall p,
  (remaining p <= n)%nat -> strip_loop n p <> OutOfFuel.
Proof.
  induction n as [|n IH]; intros p Hn H; simpl in H;
    apply bind_fuel_inv in H as [H | (b & p1 & Hc & H)].
  - unfold consume_optional in H.
    destruct (_ && _); [|discriminate]. unfold bind, eat in H.
    destruct (negb _); discriminate.
  - apply consume_optional_remaining in Hc as (_ & Hc).
    destruct b; [|discriminate]. specialize (Hc eq_refl). lia.
  - unfold consume_optional in H.
    destruct (_ && _); [|discriminate]. unfold bind, eat in H.
    destruct (negb _); discriminate.
  - apply consume_optional_remaining in Hc as (_ & Hc).
    destruct b; [|discriminate]. specialize (Hc eq_refl).
    apply IH in H; [exact H | lia].
Qed.

Lemma strip_newlines_not_fuel p : strip_newlines p <> OutOfFuel.
Proof. apply strip_loop_not_fuel. unfold remaining. lia. Qed.

Lemma deref_state {S A : Type} (ptr : option A) (s : S) a s' :
  deref ptr s = Ok a s' -> s' = s.
Proof. unfold deref. destruct ptr; [|discriminate]. intros H. injection H as _ <-. reflexivity. Qed.

Lemma peek_token_state p tk p' : peek_token p = Ok tk p' -> p' = p.
Proof. apply deref_state. Qed.

Lemma lookahead_token_state p tk p' : lookahead_token p = Ok tk p' -> p' = p.
Proof. apply deref_state. Qed.

Lemma precedence_state op p l p' : precedence op p = Ok l p' -> p' = p.
Proof.
  unfold precedence, ret.
  repeat match goal with
         | |- context [if ?b then _ else _] => destruct b
         end; intros H;
    first [injection H as _ <-; reflexivity
          | exfalso; exact (parsererror_not_ok _ _ _ _ H)].
Qed.

Lemma reduce_top_state primaries operators p r p' :
  reduce_top primaries operators p = Ok r p' -> p' = p.
Proof.
  unfold reduce_top. intros H. apply bind_ok_inv in H as (x & p1 & Hd & H).
  apply deref_state in Hd as ->. destruct x as [[e pr] os].
  injection H as _ <-. reflexivity.
Qed.

Lemma shunting_yard_state size : forall op primaries operators p r p',
  shunting_yard size op primaries operators p = Ok r p' -> p' = p.
Proof.
  induction size as [|size IH]; intros op primaries operators p r p' H; simpl in H.
  - injection H as _ <-. reflexivity.
  - apply bind_ok_inv in H as (top & p1 & Hd & H). apply deref_state in Hd as ->.
    apply bind_ok_inv in H as (a & p2 & Ha & H). apply precedence_state in Ha as ->.
    apply bind_ok_inv in H as (b & p3 & Hb & H). apply precedence_state in Hb as ->.
    destruct (a <=? b).
    + apply bind_ok_inv in H as (x & p4 & Hr & H).
      apply reduce_top_state in Hr as ->. exact (IH _ _ _ _ _ _ H).
    + injection H as _ <-. reflexivity.
Qed.

Lemma apply_remaining_state size : forall primaries operators p n p',
  apply_remaining size primaries operators p = Ok n p' -> p' = p.
Proof.
  induction size as [|size IH]; intros primaries operators p n p' H; simpl in H.
  - apply bind_ok_inv in H as (x & p1 & Hd & H). apply deref_state in Hd as ->.
    injection H as _ <-. reflexivity.
  - apply bind_ok_inv in H as (x & p1 & Hr & H).
    apply reduce_top_state in Hr as ->. exact (IH _ _ _ _ _ H).
Qed.

Lemma link_chain_state chain p n p' : link_chain chain p = Ok n p' -> p' = p.
Proof.
  unfold link_chain. destruct chain; [discriminate|].
  intros H. injection H as _ <-. reflexivity.
Qed.

(* ----------------------------------------------------------------- *)
(** ** The position never goes back *)

Ltac ok_primitive H :=
  first
    [ apply eat_token_remaining in H
    | apply consume_token_remaining in H
    | apply consume_remaining in H
    | apply consume_optional_remaining in H; destruct H as [? ?]
    | apply eat_remaining in H; destruct H as [H _]
    | apply strip_newlines_remaining in H
    | apply peek_token_state in H; subst
    | apply lookahead_token_state in H; subst
    | apply deref_state in H; subst
    | apply precedence_state in H; subst
    | apply shunting_yard_state in H; subst
    | apply apply_remaining_state in H; subst
    | apply link_chain_state in H; subst
    | exfalso; exact (parsererror_not_ok _ _ _ _ H) ].

Ltac ok_step IH :=
  match goal with
  | H : bind _ _ _ = Ok _ _ |- _ =>
      let a := fresh "a" in let q := fresh "q" in
      let Hm := fresh "Hm" in
      apply bind_ok_inv in H as (a & q & Hm & H)
  | H : ret _ _ = Ok _ _ |- _ => injection H as ? ?; subst
  | H : Ok _ _ = Ok _ _ |- _ => injection H as ? ?; subst
  | H : parse_rec _ _ _ = Ok _ _ |- _ => apply IH in H; simpl consuming in H
  | H : (if ?b then _ else _) _ = Ok _ _ |- _ => destruct b
  | H : (if ?b then _ else _) = Ok _ _ |- _ => destruct b
  | H : (match ?x with _ => _ end) _ = Ok _ _ |- _ => destruct x
  | H : (match ?x with _ => _ end) = Ok _ _ |- _ => destruct x
  | H : _ = Ok _ _ |- _ => ok_primitive H
  | H : true = true -> _ |- _ => specialize (H eq_refl)
  | H : false = true -> _ |- _ => clear H
  | H : _ /\ _ |- _ => destruct H
  end.

Lemma parse_rec_remaining fuel : forall c p n p',
  parse_rec fuel c p = Ok n p' ->
  (remaining p' <= remaining p)%nat /\
  (consuming c = true -> (remaining p' < remaining p)%nat).
Proof.
  induction fuel as [|fuel IH]; intros c p n p' H; [discriminate|].
  change (parse_body (parse_rec fuel) c p = Ok n p') in H.
  destruct c; unfold parse_body, braced_block, table_key in H;
    repeat ok_step IH;
    (split; [lia | simpl; intros; first [discriminate | lia]]).
Qed.

(* ----------------------------------------------------------------- *)
(** ** The budget is never exhausted *)

Lemma deref_not_fuel {S A : Type} (ptr : option A) (s : S) :
  deref ptr s <> OutOfFuel.
Proof. unfold deref. destruct ptr; discriminate. Qed.

Lemma parsererror_not_fuel {A : Type} msg p : @parsererror A msg p <> OutOfFuel.
Proof. unfold parsererror. destruct (peek p); discriminate. Qed.

Lemma eat_not_fuel p : eat p <> OutOfFuel.
Proof. unfold eat. destruct (negb _); discriminate. Qed.

Lemma eat_token_not_fuel p : eat_token p <> OutOfFuel.
Proof.
  unfold eat_token. intros H.
  apply bind_fuel_inv in H as [H | (r & p1 & _ & H)].
  - exact (eat_not_fuel _ H).
  - exact (deref_not_fuel _ _ H).
Qed.

Lemma consume_not_fuel type p : consume type p <> OutOfFuel.
Proof.
  unfold consume. destruct (_ && _);
    [apply eat_not_fuel | apply parsererror_not_fuel].
Qed.

Lemma consume_token_not_fuel type p : consume_token type p <> OutOfFuel.
Proof.
  unfold consume_token. intros H.
  apply bind_fuel_inv in H as [H | (r & p1 & _ & H)].
  - exact (consume_not_fuel _ _ H).
  - exact (deref_not_fuel _ _ H).
Qed.

Lemma consume_optional_not_fuel type p : consume_optional type p <> OutOfFuel.
Proof.
  unfold consume_optional. destruct (_ && _); [|discriminate].
  unfold bind, eat. destruct (negb _); discriminate.
Qed.

Lemma precedence_not_fuel op p : precedence op p <> OutOfFuel.
Proof.
  unfold precedence, ret.
  repeat match goal with
         | |- context [if ?b then _ else _] => destruct b
         end; first [discriminate | apply parsererror_not_fuel].
Qed.

Lemma reduce_top_not_fuel primaries operators p :
  reduce_top primaries operators p <> OutOfFuel.
Proof.
  unfold reduce_top. intros H.
  apply bind_fuel_inv in H as [H | ([[e pr] os] & p1 & _ & H)].
  - exact (deref_not_fuel _ _ H).
  - discriminate.
Qed.

Lemma shunting_yard_not_fuel size : forall op primaries operators p,
  shunting_yard size op primaries operators p <> OutOfFuel.
Proof.
  induction size as [|size IH]; intros op primaries operators p H; simpl in H;
    [discriminate|].
  apply bind_fuel_inv in H as [H | (top & p1 & _ & H)];
    [exact (deref_not_fuel _ _ H)|].
  apply bind_fuel_inv in H as [H | (a & p2 & _ & H)];
    [exact (precedence_not_fuel _ _ H)|].
  apply bind_fuel_inv in H as [H | (b & p3 & _ & H)];
    [exact (precedence_not_fuel _ _ H)|].
  destruct (a <=? b); [|discriminate].
  apply bind_fuel_inv in H as [H | (r & p4 & _ & H)];
    [exact (reduce_top_not_fuel _ _ _ H) | exact (IH _ _ _ _ H)].
Qed.

Lemma apply_remaining_not_fuel size : forall primaries operators p,
  apply_remaining size primaries operators p <> OutOfFuel.
Proof.
  induction size as [|size IH]; intros primaries operators p H; simpl in H.
  - apply bind_fuel_inv in H as [H | (r & p1 & _ & H)];
      [exact (deref_not_fuel _ _ H) | discriminate].
  - apply bind_fuel_inv in H as [H | (r & p1 & _ & H)];
      [exact (reduce_top_not_fuel _ _ _ H) | exact (IH _ _ _ H)].
Qed.

Lemma link_chain_not_fuel chain p : link_chain chain p <> OutOfFuel.
Proof. unfold link_chain. destruct chain; discriminate. Qed.

Ltac fuel_primitive H :=
  first
    [ exact (eat_token_not_fuel _ H)
    | exact (consume_token_not_fuel _ _ H)
    | exact (consume_not_fuel _ _ H)
    | exact (consume_optional_not_fuel _ _ H)
    | exact (eat_not_fuel _ H)
    | exact (strip_newlines_not_fuel _ H)
    | exact (deref_not_fuel _ _ H)
    | exact (precedence_not_fuel _ _ H)
    | exact (shunting_yard_not_fuel _ _ _ _ _ H)
    | exact (apply_remaining_not_fuel _ _ _ _ H)
    | exact (link_chain_not_fuel _ _ H)
    | exact (parsererror_not_fuel _ _ H)
    | discriminate H ].

Ltac ok_fact H :=
  first
    [ apply parse_rec_remaining in H; simpl consuming in H
    | ok_primitive H ].

Ltac fuel_step IH :=
  match goal with
  | H : bind _ _ _ = OutOfFuel |- _ =>
      let a := fresh "a" in let q := fresh "q" in
      let Hm := fresh "Hm" in
      apply bind_fuel_inv in H as [H | (a & q & Hm & H)]
  | H : parse_rec _ _ _ = OutOfFuel |- _ =>
      exfalso; revert H; apply IH; unfold parse_fuel in *; simpl rank in *; lia
  | H : (if ?b then _ else _) _ = OutOfFuel |- _ => destruct b
  | H : (if ?b then _ else _) = OutOfFuel |- _ => destruct b
  | H : (match ?x with _ => _ end) _ = OutOfFuel |- _ => destruct x
  | H : (match ?x with _ => _ end) = OutOfFuel |- _ => destruct x
  | H : _ = OutOfFuel |- _ => exfalso; fuel_primitive H
  | H : true = true -> _ |- _ => specialize (H eq_refl)
  | H : false = true -> _ |- _ => clear H
  | H : _ /\ _ |- _ => destruct H
  | H : bind _ _ _ = Ok _ _ |- _ =>
      let a := fresh "a" in let q := fresh "q" in
      let Hm := fresh "Hm" in
      apply bind_ok_inv in H as (a & q & Hm & H)
  | H : ret _ _ = Ok _ _ |- _ => injection H as ? ?; subst
  | H : Ok _ _ = Ok _ _ |- _ => injection H as ? ?; subst
  | H : (if ?b then _ else _) _ = Ok _ _ |- _ => destruct b
  | H : (if ?b then _ else _) = Ok _ _ |- _ => destruct b
  | H : (match ?x with _ => _ end) _ = Ok _ _ |- _ => destruct x
  | H : (match ?x with _ => _ end) = Ok _ _ |- _ => destruct x
  | H : _ = Ok _ _ |- _ => ok_fact H
  end.

Lemma parse_rec_not_fuel fuel : forall c p,
  (parse_fuel c p <= fuel)%nat -> parse_rec fuel c p <> OutOfFuel.
Proof.
  induction fuel as [|fuel IH]; intros c p Hfuel H;
    [unfold parse_fuel in Hfuel; lia|].
  change (parse_body (parse_rec fuel) c p = OutOfFuel) in H.
  destruct c; unfold parse_body, braced_block, table_key in H;
    repeat fuel_step IH.
Qed.

(* ----------------------------------------------------------------- *)
(** ** The process *)

Lemma end_of_exit0 {S A : Type} (r : result S A) (continue : A -> outcome) status :
  exit0 r ->
  (forall a, continue a = Exited status -> status = 0) ->
  end_of r continue = Exited status -> status = 0.
Proof.
  intros Hr Hc. unfold end_of. destruct r as [a s|st msg s| |]; try discriminate.
  - apply Hc.
  - intros H. injection H as <-. exact (Hr _ _ _ eq_refl).
Qed.

Lemma read_file_exit0 filepath file u : exit0 (read_file filepath file u).
Proof.
  unfold read_file, file_error.
  destruct file; first [apply exit0_zero | apply exit0_ok].
Qed.

Lemma main_finishes compile_returns fuel argc filepath file :
  (main_fuel file <= fuel)%nat ->
  main compile_returns fuel argc filepath file <> Unfinished.
Proof.
  intros Hfuel. unfold main. destruct (argc <? 3); [discriminate|].
  destruct file as [| | | |buffer]; try discriminate. simpl.
  unfold main_fuel in Hfuel.
  destruct (lex_source buffer) as [tokens lx| | |] eqn:El; try discriminate.
  - simpl.
    destruct (parse fuel _) as [tree p| | |] eqn:Ep; try discriminate.
    + simpl. destruct (compile_returns tree); discriminate.
    + exfalso. revert Ep. apply parse_rec_not_fuel. exact Hfuel.
  - exfalso. unfold lex_source in El.
    destruct (lexer_new buffer) as [lx|]; [|discriminate].
    exact (lexify_not_fuel _ _ El).
Qed.

(** X24.  Whenever a run of [main] ends through [exit] or by the return of
    [main], its status is 0: every call of [exit] in [main], [read_file],
    the lexer and the parser passes 0, and [main] returns 0. *)
Theorem main_exit_status (compile_returns : astnode -> bool) (fuel : nat)
    (argc : Z) (filepath : string) (file : file_state) (status : Z) :
  main compile_returns fuel argc filepath file = Exited status -> status = 0.
Proof.
  unfold main.
  destruct (argc <? 3); [intros H; injection H as <-; reflexivity|].
  apply end_of_exit0; [apply read_file_exit0|]. intros src.
  apply end_of_exit0; [apply lex_source_exit0|]. intros tokens.
  apply end_of_exit0; [apply parse_rec_exit0|]. intros tree.
  destruct (compile_returns tree); [|discriminate].
  intros H; injection H as <-; reflexivity.
Qed.

(** X24, witness: [x = 1], which the lexer rejects. *)
Lemma main_exit_status_witness :
  main (fun _ => true) 8 3 "test.he" (Readable (c_buffer "x = 1")) = Exited 0 /\
  0 = 0.
Proof.
  assert (H : main (fun _ => true) 8 3 "test.he" (Readable (c_buffer "x = 1"))
              = Exited 0) by (vm_compute; reflexivity).
  split; [exact H|].
  exact (main_exit_status (fun _ => true) 8 3 "test.he"
                          (Readable (c_buffer "x = 1")) 0 H).
Defined.

(** C8, on the code.  A file whose only line is 1000 spaces and a [?]
    makes the lexer call [lexerror], and one whose only line is 1000 spaces
    and a [)] makes the parser call [parsererror] (the [Exit] of [lex] and
    of [parse_statement]); the first thing either does is to copy the line
    with [get_line], which writes past its block of [LINE_BUF_SIZE] bytes:
    the run is in a fault before it reaches [exit(0)]. *)
Theorem error_report_overruns :
  lex_source (c_buffer (long_line "?"))
  = Exit 0 unidentified unknown_line_lexer /\
  lexerror_line unknown_line_lexer = Fault /\
  (exists lx,
      lex_source (c_buffer (long_line ")")) = Ok stray_line_tokens lx) /\
  parse 8 stray_line_parser
  = Exit 0 "Invalid statement!" stray_line_parser /\
  parsererror_line stray_line_parser = Fault.
Proof.
  split; [vm_compute; reflexivity|].
  split; [vm_compute; reflexivity|].
  split; [eexists; vm_compute; reflexivity|].
  split; vm_compute; reflexivity.
Qed.


(* ================================================================= *)
(** * More on the lexer *)

(* ----------------------------------------------------------------- *)
(** ** Reading the buffer through [scanning] *)

Lemma get_app_length (before ahead : string) (k : nat) :
  String.get (String.length before + k) (before ++ ahead)%string
  = String.get k ahead.
Proof. induction before as [|c before IH]; simpl; [reflexivity | exact IH]. Qed.

Lemma source_at_ahead (before ahead : string) (k : nat) :
  source_at (before ++ ahead)%string (Z.of_nat (String.length before) + Z.of_nat k)
  = String.get k ahead.
Proof.
  unfold source_at.
  destruct (Z.of_nat (String.length before) + Z.of_nat k <? 0) eqn:E;
    [apply Z.ltb_lt in E; lia|].
  replace (Z.to_nat (Z.of_nat (String.length before) + Z.of_nat k))
    with (String.length before + k)%nat by lia.
  apply get_app_length.
Qed.

Lemma newlines_app a b : newlines (a ++ b)%string = newlines a + newlines b.
Proof. induction a as [|c a IH]; simpl; [reflexivity | rewrite IH; lia]. Qed.

Lemma column_from_app n a b :
  column_from n (a ++ b)%string = column_from (column_from n a) b.
Proof. revert n; induction a as [|c a IH]; intros n; simpl; [reflexivity | apply IH]. Qed.

Lemma length_app_string (a b : string) :
  String.length (a ++ b)%string = (String.length a + String.length b)%nat.
Proof. induction a as [|c a IH]; simpl; [reflexivity | now rewrite IH]. Qed.

Lemma app_nil_string (a : string) : (a ++ "")%string = a.
Proof. induction a as [|c a IH]; simpl; [reflexivity | now rewrite IH]. Qed.

(** [lexadvance] takes the character under the cursor when another one
    follows it in the buffer, and faults when none does. *)
Lemma lexadvance_scanning lx before c d ahead :
  scanning lx before (String c (String d ahead)) ->
  exists lx',
    lexadvance lx = Ok c lx' /\
    scanning lx' (before ++ String c "") (String d ahead).
Proof.
  intros (Hs & (rest & Hr) & Ho & Hl & Hc & Hlo).
  injection Hr as Hla _.
  unfold lexadvance.
  replace (char_offset (lx_pos lx) + 1 + 1)
    with (Z.of_nat (String.length before) + Z.of_nat 1) by lia.
  rewrite Hs, source_at_ahead. simpl. rewrite <- Hla.
  eexists. split; [reflexivity|].
  unfold scanning. simpl.
  rewrite string_app_assoc. simpl.
  split; [reflexivity|]. split; [exists ahead; reflexivity|].
  rewrite length_app_string, newlines_app. unfold column.
  rewrite column_from_app. fold (column before). simpl.
  destruct (Ascii.eqb c newline); simpl; repeat split; lia.
Qed.

Lemma lexadvance_at_end lx before c :
  scanning lx before (String c "") -> lexadvance lx = Fault.
Proof.
  intros (Hs & _ & Ho & _).
  unfold lexadvance.
  replace (char_offset (lx_pos lx) + 1 + 1)
    with (Z.of_nat (String.length before) + Z.of_nat 1) by lia.
  rewrite Hs, source_at_ahead. reflexivity.
Qed.

Lemma lexer_new_scanning src lx :
  lexer_new src = Some lx -> scanning lx "" src.
Proof.
  unfold lexer_new, source_at. simpl.
  destruct src as [|c src]; simpl; [discriminate|].
  intros H. injection H as <-. unfold scanning. simpl.
  repeat split. exists src. reflexivity.
Qed.

Lemma lexadvance_scanning_inv lx before c ahead x lx' :
  scanning lx before (String c ahead) ->
  lexadvance lx = Ok x lx' ->
  x = c /\ exists d rest, ahead = String d rest /\
                          scanning lx' (before ++ String c "") ahead.
Proof.
  intros Hs Ha. destruct ahead as [|d rest].
  - rewrite (lexadvance_at_end _ _ _ Hs) in Ha. discriminate.
  - destruct (lexadvance_scanning _ _ _ _ _ Hs) as (lx1 & Ha1 & Hs1).
    rewrite Ha1 in Ha. injection Ha as <- <-.
    split; [reflexivity|]. exists d, rest. split; [reflexivity | exact Hs1].
Qed.

Lemma scanning_lookahead lx before c ahead :
  scanning lx before (String c ahead) -> lx_lookahead lx = c.
Proof. intros (_ & (rest & Hr) & _). injection Hr as <- _. reflexivity. Qed.

Lemma advance_while_scanning cond fuel : forall buf lx before c ahead b lx',
  scanning lx before (String c ahead) ->
  advance_while cond fuel buf lx = Ok b lx' ->
  exists run rest,
    ahead = (run ++ rest)%string /\
    b = (buf ++ String c run)%string /\
    string_forall cond run = true /\
    scanning lx' (before ++ String c run) rest /\
    cond (lx_lookahead lx') = false.
Proof.
  induction fuel as [|fuel IH]; intros buf lx before c ahead b lx' Hs H;
    simpl in H; [discriminate|].
  apply bind_ok_inv in H as (x & lx1 & Ha & H).
  destruct (lexadvance_scanning_inv _ _ _ _ _ _ Hs Ha) as (-> & d & rest & -> & Hs1).
  destruct (cond (lx_lookahead lx1)) eqn:Ec.
  - pose proof (scanning_lookahead _ _ _ _ Hs1) as Hd.
    destruct (IH _ _ _ _ _ _ _ Hs1 H) as (run & rest' & -> & -> & Hr & Hs' & Hn).
    exists (String d run), rest'.
    rewrite !string_app_assoc in *. simpl in *. rewrite Hd in Ec.
    rewrite Ec, Hr. do 3 (split; [reflexivity|]). split; assumption.
  - injection H as <- <-. exists EmptyString, (String d rest).
    do 3 (split; [reflexivity|]). split; assumption.
Qed.

Lemma string_body_scanning fuel : forall buf lx before c ahead b lx',
  scanning lx before (String c ahead) ->
  string_body fuel buf lx = Ok b lx' ->
  exists body rest,
    String c ahead = (body ++ String dquote rest)%string /\
    string_forall not_quote body = true /\
    b = (buf ++ body)%string /\
    scanning lx' (before ++ body ++ String dquote "") rest.
Proof.
  induction fuel as [|fuel IH]; intros buf lx before c ahead b lx' Hs H;
    simpl in H; [discriminate|].
  apply bind_ok_inv in H as (x & lx1 & Ha & H).
  destruct (lexadvance_scanning_inv _ _ _ _ _ _ Hs Ha) as (-> & d & rest & -> & Hs1).
  destruct (Ascii.eqb c dquote) eqn:Ec.
  - injection H as <- <-. apply Ascii.eqb_eq in Ec. subst c.
    exists EmptyString, (String d rest). simpl. rewrite app_nil_string.
    do 3 (split; [reflexivity|]). exact Hs1.
  - destruct (IH _ _ _ _ _ _ _ Hs1 H) as (body & rest' & Hb & Hq & -> & Hs').
    exists (String c body), rest'. simpl. unfold not_quote at 1. rewrite Ec, Hq, Hb.
    rewrite !string_app_assoc in *. simpl in *.
    do 3 (split; [reflexivity|]). exact Hs'.
Qed.

Lemma pattern_matches_ahead pattern : forall before ahead,
  pattern_matches (before ++ ahead)%string (Z.of_nat (String.length before)) pattern
  = Some true <->
  exists rest, ahead = (pattern ++ rest)%string.
Proof.
  induction pattern as [|c pattern IH]; intros before ahead; simpl.
  - split; [intros _; exists ahead; reflexivity | reflexivity].
  - replace (Z.of_nat (String.length before))
      with (Z.of_nat (String.length before) + Z.of_nat 0) at 1 by lia.
    rewrite source_at_ahead.
    destruct ahead as [|d ahead]; simpl.
    + split; [discriminate | intros (rest & H); discriminate].
    + destruct (Ascii.eqb d c) eqn:E.
      * apply Ascii.eqb_eq in E. subst d.
        specialize (IH (before ++ String c "")%string ahead).
        rewrite string_app_assoc, length_app_string in IH. simpl in IH.
        replace (Z.of_nat (String.length before + 1))
          with (Z.of_nat (String.length before) + 1) in IH by lia.
        rewrite IH. split; intros (rest & H); exists rest; congruence.
      * apply Ascii.eqb_neq in E.
        split; [discriminate | intros (rest & H); congruence].
Qed.

Lemma at_cursor_scanning lx before ahead pattern :
  scanning lx before ahead ->
  (at_cursor pattern lx <-> exists rest, ahead = (pattern ++ rest)%string).
Proof.
  intros (Hs & _ & Ho & _). unfold at_cursor. rewrite Hs.
  replace (char_offset (lx_pos lx) + 1) with (Z.of_nat (String.length before)) by lia.
  apply pattern_matches_ahead.
Qed.

Lemma advance_times_scanning n : forall lx before word ahead lx',
  String.length word = n ->
  scanning lx before (word ++ ahead) ->
  advance_times n lx = Ok tt lx' ->
  scanning lx' (before ++ word) ahead.
Proof.
  induction n as [|n IH]; intros lx before word ahead lx' Hn Hs H; simpl in H.
  - destruct word; [|discriminate]. injection H as <-.
    rewrite app_nil_string. exact Hs.
  - destruct word as [|c word]; [discriminate|]. simpl in Hn, Hs.
    apply bind_ok_inv in H as (x & lx1 & Ha & H).
    destruct (lexadvance_scanning_inv _ _ _ _ _ _ Hs Ha) as (_ & d & rest & Hr & Hs1).
    apply (IH _ (before ++ String c "")%string word ahead) in H;
      [|lia|exact Hs1].
    rewrite string_app_assoc in H. exact H.
Qed.

(* ----------------------------------------------------------------- *)
(** ** One call of [lex] *)

Lemma isdigit_ident_char c : isdigit c = true -> ident_char c = true.
Proof. unfold ident_char. intros ->. rewrite orb_true_r. reflexivity. Qed.

Lemma string_forall_weaken (f g : ascii -> bool) s :
  (forall c, f c = true -> g c = true) ->
  string_forall f s = true -> string_forall g s = true.
Proof.
  intros Hfg. induction s as [|c s IH]; simpl; [reflexivity|].
  intros H. apply andb_prop in H as (Hc & Hs).
  rewrite (Hfg _ Hc), (IH Hs). reflexivity.
Qed.

Lemma lex_single_cases c lx buf type lx' :
  lex_single c lx = Ok (buf, type) lx' ->
  lx' = lx /\
  (In c single_operators /\ buf = String c "" /\ type = LX_OPERATOR
   /\ cstr buf = buf
   \/ plain_kind c = Some type /\ buf = "").
Proof.
  destruct c as [[] [] [] [] [] [] [] []]; cbv;
    intros H; try discriminate; injection H as <- <- <-;
    (split; [reflexivity|]);
    first [right; split; reflexivity | left; repeat split; tauto].
Qed.

Lemma located_token lx before ahead value type :
  scanning lx before ahead ->
  located (lx_source lx)
          (tk_pos (lxtoken_new value type
                     {| col_pos := col_pos (lx_pos lx) + 1;
                        line_pos := line_pos (lx_pos lx);
                        char_offset := char_offset (lx_pos lx) + 1;
                        line_offset := line_offset (lx_pos lx) |}))
          before.
Proof.
  intros (Hs & _ & Ho & Hl & Hc & Hlo). unfold located. simpl.
  split; [exists ahead; exact Hs|]. repeat split; lia.
Qed.

(** What one call of [lex] does to the text ahead: it takes a word off its
    front, returns the token of that word and leaves the position fields at
    the end of the word. *)
Lemma lex_scanning lx before ahead tok lx' :
  scanning lx before ahead ->
  lex lx = Ok tok lx' ->
  exists word rest,
    ahead = (word ++ rest)%string /\
    scanning lx' (before ++ word) rest /\
    token_of (lx_lookahead lx') word (tk_value tok) (tk_type tok) /\
    located (lx_source lx) (tk_pos tok) before.
Proof.
  intros Hs H.
  pose proof Hs as (_ & (a0 & ->) & _).
  set (c := lx_lookahead lx) in *.
  unfold lex in H. apply bind_ok_inv in H as ([buf type] & lx1 & Hscan & H).
  destruct (LEX_BUF_SIZE <=? Z.of_nat (String.length buf)); [discriminate|].
  injection H as <- <-. simpl tk_value. simpl tk_type.
  assert (Hloc := located_token lx before _ (cstr buf) type Hs).
  unfold lex_scan in Hscan. fold c in Hscan.
  destruct (isalpha c || Ascii.eqb c "_") eqn:E1.
  { apply bind_ok_inv in Hscan as (b & lx2 & Ha & Hscan).
    injection Hscan as <- <- <-.
    destruct (advance_while_scanning _ _ _ _ _ _ _ _ _ Hs Ha)
      as (run & rest & -> & -> & Hr & Hs' & Hn).
    assert (Hc : cstr (String c run) = String c run).
    { simpl. rewrite (ident_start_not_nul _ E1), (cstr_ident _ Hr). reflexivity. }
    exists (String c run), rest. simpl append. rewrite Hc.
    split; [reflexivity|]. split; [exact Hs'|]. split; [|exact Hloc].
    apply word_identifier; assumption. }
  destruct (isdigit c) eqn:E2.
  { apply bind_ok_inv in Hscan as (b & lx2 & Ha & Hscan).
    injection Hscan as <- <- <-.
    destruct (advance_while_scanning _ _ _ _ _ _ _ _ _ Hs Ha)
      as (run & rest & -> & -> & Hr & Hs' & Hn).
    assert (Hc : cstr (String c run) = String c run).
    { simpl.
      rewrite (ident_char_not_nul _ (isdigit_ident_char _ E2)).
      rewrite (cstr_ident run
                 (string_forall_weaken _ _ _ isdigit_ident_char Hr)).
      reflexivity. }
    exists (String c run), rest. simpl append. rewrite Hc.
    split; [reflexivity|]. split; [exact Hs'|]. split; [|exact Hloc].
    apply word_integer; assumption. }
  destruct (Ascii.eqb c dquote) eqn:E3.
  { apply Ascii.eqb_eq in E3.
    apply bind_ok_inv in Hscan as (x & lx2 & Ha & Hscan).
    apply bind_ok_inv in Hscan as (b & lx3 & Hb & Hscan).
    injection Hscan as <- <- <-.
    destruct (lexadvance_scanning_inv _ _ _ _ _ _ Hs Ha)
      as (_ & d & rest & -> & Hs1).
    destruct (string_body_scanning _ _ _ _ _ _ _ _ Hs1 Hb)
      as (body & rest' & Hsplit & Hq & -> & Hs').
    exists (String c (body ++ String dquote "")), rest'.
    simpl append. rewrite string_app_assoc. simpl append.
    split; [rewrite Hsplit; reflexivity|].
    split; [rewrite string_app_assoc in Hs'; exact Hs'|].
    split; [|exact Hloc]. rewrite E3. apply word_string. exact Hq. }
  assert (Hword : forall word lx0,
             String.length word = 2%nat ->
             check_pattern word lx = Ok true lx0 ->
             exists rest,
               String c a0 = (word ++ rest)%string /\
               scanning lx0 (before ++ word) rest).
  { intros word lx0 Hlen Hp.
    apply check_pattern_true in Hp as (Hat & Hadv).
    apply (at_cursor_scanning _ _ _ _ Hs) in Hat as (rest & Hrest).
    exists rest. split; [exact Hrest|].
    rewrite Hlen in Hadv. rewrite Hrest in Hs.
    exact (advance_times_scanning _ _ _ _ _ _ Hlen Hs Hadv). }
  apply bind_ok_inv in Hscan as ([|] & lx2 & Hp1 & Hscan).
  { injection Hscan as <- <- <-.
    destruct (Hword "<-" _ eq_refl Hp1) as (rest & Hrest & Hs').
    exists "<-", rest. split; [exact Hrest|]. split; [exact Hs'|].
    split; [apply word_assign | exact Hloc]. }
  apply check_pattern_false in Hp1 as (-> & Hn1).
  apply bind_ok_inv in Hscan as ([|] & lx3 & Hp2 & Hscan).
  { injection Hscan as <- <- <-.
    destruct (Hword "<=" _ eq_refl Hp2) as (rest & Hrest & Hs').
    exists "<=", rest. split; [exact Hrest|]. split; [exact Hs'|].
    split; [apply word_less_equal | exact Hloc]. }
  apply check_pattern_false in Hp2 as (-> & Hn2).
  apply bind_ok_inv in Hscan as ([|] & lx4 & Hp3 & Hscan).
  { injection Hscan as <- <- <-.
    destruct (Hword ">=" _ eq_refl Hp3) as (rest & Hrest & Hs').
    exists ">=", rest. split; [exact Hrest|]. split; [exact Hs'|].
    split; [apply word_greater_equal | exact Hloc]. }
  apply check_pattern_false in Hp3 as (-> & Hn3).
  apply bind_ok_inv in Hscan as (x & lx5 & Ha & Hscan).
  destruct (lexadvance_scanning_inv _ _ _ _ _ _ Hs Ha)
    as (-> & d & rest & -> & Hs1).
  apply lex_single_cases in Hscan as (-> & Hcase).
  pose proof (scanning_lookahead _ _ _ _ Hs1) as Hd.
  exists (String c ""), (String d rest).
  split; [reflexivity|]. split; [exact Hs1|]. split; [|exact Hloc].
  destruct Hcase as [(Hin & -> & -> & Hcs) | (Hplain & ->)].
  - rewrite Hcs. apply word_operator; [exact Hin | |].
    + intros ->. rewrite Hd. split; intros ->.
      * apply Hn1. apply (at_cursor_scanning _ _ _ _ Hs). exists rest. reflexivity.
      * apply Hn2. apply (at_cursor_scanning _ _ _ _ Hs). exists rest. reflexivity.
    + intros ->. rewrite Hd. intros ->.
      apply Hn3. apply (at_cursor_scanning _ _ _ _ Hs). exists rest. reflexivity.
  - apply word_plain. exact Hplain.
Qed.

(* ----------------------------------------------------------------- *)
(** ** The loop of [lexify] *)

Lemma lexify_loop_words fuel : forall tokens lx before ahead result lx',
  scanning lx before ahead ->
  lexify_loop fuel tokens lx = Ok result lx' ->
  exists all,
    words (lx_source lx) before ahead all /\
    result = tokens ++ filter (fun tk => negb (skipped tk)) all.
Proof.
  induction fuel as [|fuel IH]; intros tokens lx before ahead result lx' Hs H;
    [discriminate|].
  simpl in H. apply bind_ok_inv in H as (tok & lx1 & Hlex & H).
  destruct (lex_scanning _ _ _ _ _ Hs Hlex)
    as (word & rest & -> & Hs1 & Htok & Hloc).
  pose proof Hs1 as (Hsrc1 & (rest' & Hrest) & _).
  pose proof Hs as (Hsrc & _).
  rewrite Hrest in *.
  assert (Hsame : lx_source lx1 = lx_source lx).
  { rewrite Hsrc, Hsrc1. apply string_app_assoc. }
  destruct (lxtype_eqb (tk_type tok) LX_EOF) eqn:Ee.
  - injection H as <- <-. apply lxtype_eqb_eq in Ee.
    exists [tok]. split.
    + apply words_last; assumption.
    + simpl. unfold skipped. rewrite Ee. reflexivity.
  - assert (Hne : tk_type tok <> LX_EOF).
    { intros He. rewrite He in Ee. discriminate. }
    assert (Hstep : forall all,
               words (lx_source lx1) (before ++ word)
                     (String (lx_lookahead lx1) rest') all ->
               words (lx_source lx) before
                     (word ++ String (lx_lookahead lx1) rest') (tok :: all)).
    { intros all Hw. rewrite Hsame in Hw. apply words_more; assumption. }
    destruct (negb (lxtype_eqb (tk_type tok) LX_WHITESPACE)
              && negb (lxtype_eqb (tk_type tok) LX_COMMENT)) eqn:Ek.
    + destruct (IH _ _ _ _ _ _ Hs1 H) as (all & Hw & ->).
      exists (tok :: all). split; [exact (Hstep _ Hw)|].
      assert (Hk : negb (skipped tok) = true).
      { unfold skipped. rewrite negb_orb. exact Ek. }
      cbn [filter]. rewrite Hk.
      unfold vector_push. rewrite <- app_assoc. reflexivity.
    + destruct (IH _ _ _ _ _ _ Hs1 H) as (all & Hw & ->).
      exists (tok :: all). split; [exact (Hstep _ Hw)|].
      assert (Hk : negb (skipped tok) = false).
      { unfold skipped. rewrite negb_orb. exact Ek. }
      cbn [filter]. rewrite Hk. reflexivity.
Qed.

Lemma lexer_new_source src lx : lexer_new src = Some lx -> lx_source lx = src.
Proof.
  unfold lexer_new. destruct (source_at src 0); [|discriminate].
  intros H. injection H as <-. reflexivity.
Qed.

Lemma token_of_length next word value type :
  token_of next word value type -> (1 <= String.length word)%nat.
Proof. intros H. destruct H; simpl; lia. Qed.

Lemma words_offsets source before ahead all :
  words source before ahead all ->
  Forall (fun tk => Z.of_nat (String.length before)
                    <= char_offset (tk_pos tk)) all /\
  StronglySorted
    (fun a b => char_offset (tk_pos a) < char_offset (tk_pos b)) all.
Proof.
  induction 1 as [before word next rest tk _ Htok Hloc _
                 |before word next rest tk tokens _ Htok Hloc _ _ IH].
  - destruct Hloc as (_ & Ho & _). split.
    + constructor; [lia | constructor].
    + constructor; constructor.
  - destruct Hloc as (_ & Ho & _). destruct IH as (Hall & Hsorted).
    apply token_of_length in Htok. rewrite length_app_string in Hall.
    split.
    + constructor; [lia|].
      eapply Forall_impl; [|exact Hall]. simpl. intros a Ha. lia.
    + constructor; [exact Hsorted|].
      eapply Forall_impl; [|exact Hall]. simpl. intros a Ha. lia.
Qed.

Lemma words_bounds source before ahead all :
  words source before ahead all ->
  Forall (fun tk => Z.of_nat (String.length before)
                    <= char_offset (tk_pos tk)
                    < Z.of_nat (String.length source)) all.
Proof.
  induction 1 as [before word next rest tk Hsrc Htok Hloc _
                 |before word next rest tk tokens Hsrc Htok Hloc _ _ IH].
  - destruct Hloc as (_ & Ho & _). apply token_of_length in Htok.
    constructor; [|constructor].
    rewrite Hsrc, !length_app_string. simpl. lia.
  - destruct Hloc as (_ & Ho & _). apply token_of_length in Htok.
    constructor.
    + rewrite Hsrc, !length_app_string. simpl. lia.
    + eapply Forall_impl; [|exact IH]. simpl. intros a.
      rewrite length_app_string. lia.
Qed.

Lemma sorted_filter {A : Type} (R : A -> A -> Prop) (f : A -> bool) l :
  StronglySorted R l -> StronglySorted R (filter f l).
Proof.
  induction 1 as [|a l Hs IH Hall]; simpl; [constructor|].
  destruct (f a); [|exact IH].
  constructor; [exact IH|].
  apply Forall_forall. intros x Hx. apply filter_In in Hx as (Hx & _).
  rewrite Forall_forall in Hall. exact (Hall x Hx).
Qed.

(** X1.  The vector [lexify] fills from the start of a buffer holds the
    tokens of the consecutive words of the buffer, in their order, up to the
    first word of kind [LX_EOF]; the only words left out are those of kind
    [LX_WHITESPACE] and [LX_COMMENT].  Each token has the value and kind of
    its word and the position of the first character of the word. *)
Theorem lexify_words (src : string) (lx : lexer)
    (tokens : list lxtoken) (lx' : lexer) :
  lexer_new src = Some lx ->
  lexify [] lx = Ok tokens lx' ->
  exists all,
    words src "" src all /\
    tokens = filter (fun tk => negb (skipped tk)) all.
Proof.
  intros Hnew H.
  pose proof (lexer_new_source _ _ Hnew) as Hsrc.
  apply lexer_new_scanning in Hnew.
  unfold lexify in H.
  destruct (lexify_loop_words _ _ _ _ _ _ _ Hnew H) as (all & Hw & ->).
  rewrite Hsrc in Hw. exists all. split; [exact Hw | reflexivity].
Qed.

(** X1, witness: [x <- y1 >= 2 # note]. *)
Lemma lexify_words_witness :
  exists all,
    words (lx_source statement_lexer) "" (lx_source statement_lexer) all /\
    statement_tokens = filter (fun tk => negb (skipped tk)) all.
Proof.
  apply (lexify_words (lx_source statement_lexer) statement_lexer
                      statement_tokens statement_lexer');
    vm_compute; reflexivity.
Defined.

(** X2.  The tokens [lexify] returns are in the order of the source: their
    character offsets increase strictly. *)
Theorem lexify_offsets_increase (src : string) (lx : lexer)
    (tokens : list lxtoken) (lx' : lexer) :
  lexer_new src = Some lx ->
  lexify [] lx = Ok tokens lx' ->
  StronglySorted
    (fun a b => char_offset (tk_pos a) < char_offset (tk_pos b)) tokens /\
  Forall (fun tk => 0 <= char_offset (tk_pos tk)
                    < Z.of_nat (String.length src)) tokens.
Proof.
  intros Hnew H.
  pose proof (lexer_new_source _ _ Hnew) as Hsrc.
  apply lexer_new_scanning in Hnew.
  unfold lexify in H.
  destruct (lexify_loop_words _ _ _ _ _ _ _ Hnew H) as (all & Hw & ->).
  rewrite Hsrc in Hw. simpl.
  split.
  - apply sorted_filter. exact (proj2 (words_offsets _ _ _ _ Hw)).
  - apply Forall_forall. intros tk Hin. apply filter_In in Hin as (Hin & _).
    pose proof (words_bounds _ _ _ _ Hw) as Hb.
    rewrite Forall_forall in Hb. apply (Hb tk) in Hin. simpl in Hin. lia.
Qed.

(* ----------------------------------------------------------------- *)
(** ** [get_line] *)

Lemma get_line_loop_ok line : forall fuel before buf c rest,
  string_forall not_line_end line = true ->
  line_end c = true ->
  Z.of_nat (String.length buf + String.length line) < LINE_BUF_SIZE ->
  (String.length line < fuel)%nat ->
  get_line_loop fuel (before ++ buf ++ line ++ String c rest)
                (Z.of_nat (String.length before)) buf tt
  = Ok (buf ++ line)%string tt.
Proof.
  induction line as [|d line IH]; intros fuel before buf c rest Hl Hc Hlen Hf;
    (destruct fuel as [|fuel]; [simpl in Hf; lia|]); simpl get_line_loop.
  - rewrite <- Nat2Z.inj_add, <- length_app_string, <- string_app_assoc.
    replace (Z.of_nat (String.length (before ++ buf)))
      with (Z.of_nat (String.length (before ++ buf)) + Z.of_nat 0) by (simpl; lia).
    rewrite source_at_ahead. simpl.
    destruct (LINE_BUF_SIZE <=? Z.of_nat (String.length buf)) eqn:E;
      [apply Z.leb_le in E; simpl in Hlen; lia|].
    unfold line_end in Hc. rewrite <- negb_orb, Hc. simpl.
    rewrite app_nil_string. reflexivity.
  - rewrite <- Nat2Z.inj_add, <- length_app_string, <- string_app_assoc.
    replace (Z.of_nat (String.length (before ++ buf)))
      with (Z.of_nat (String.length (before ++ buf)) + Z.of_nat 0) by (simpl; lia).
    rewrite source_at_ahead. simpl String.get. cbv iota.
    simpl in Hl. apply andb_prop in Hl as (Hd & Hl).
    destruct (LINE_BUF_SIZE <=? Z.of_nat (String.length buf)) eqn:E;
      [apply Z.leb_le in E; simpl in Hlen; lia|].
    unfold not_line_end, line_end in Hd. rewrite negb_orb in Hd. rewrite Hd.
    specialize (IH fuel before (buf ++ String d "")%string c rest Hl Hc).
    rewrite !string_app_assoc in IH. simpl append in IH.
    rewrite string_app_assoc. simpl append.
    apply IH.
    + rewrite length_app_string. simpl in *. lia.
    + simpl in Hf. lia.
Qed.

Lemma get_line_loop_inv fuel : forall before buf ahead line,
  get_line_loop fuel (before ++ buf ++ ahead)
                (Z.of_nat (String.length before)) buf tt = Ok line tt ->
  exists run c rest,
    ahead = (run ++ String c rest)%string /\
    line = (buf ++ run)%string /\
    string_forall not_line_end run = true /\
    line_end c = true /\
    Z.of_nat (String.length line) < LINE_BUF_SIZE.
Proof.
  induction fuel as [|fuel IH]; intros before buf ahead line H; [discriminate|].
  simpl get_line_loop in H.
  rewrite <- Nat2Z.inj_add, <- length_app_string, <- string_app_assoc in H.
  replace (Z.of_nat (String.length (before ++ buf)))
    with (Z.of_nat (String.length (before ++ buf)) + Z.of_nat 0) in H
    by (simpl; lia).
  rewrite source_at_ahead in H.
  destruct ahead as [|d ahead]; [discriminate|]. simpl String.get in H.
  cbv iota in H.
  destruct (LINE_BUF_SIZE <=? Z.of_nat (String.length buf)) eqn:E;
    [discriminate|]. apply Z.leb_gt in E.
  destruct (negb (Ascii.eqb d newline) && negb (Ascii.eqb d NUL)) eqn:Ed.
  - rewrite string_app_assoc in H.
    replace (buf ++ String d ahead)%string
      with ((buf ++ String d "") ++ ahead)%string in H
      by (rewrite string_app_assoc; reflexivity).
    apply IH in H as (run & c & rest & -> & -> & Hrun & Hc & Hlen).
    exists (String d run), c, rest.
    split; [reflexivity|].
    split; [rewrite string_app_assoc; reflexivity|].
    split; [|split; assumption].
    simpl. unfold not_line_end at 1, line_end. rewrite negb_orb, Ed.
    exact Hrun.
  - injection H as <-. exists "", d, ahead.
    split; [reflexivity|]. split; [symmetry; apply app_nil_string|].
    split; [reflexivity|]. split; [|exact E].
    unfold line_end. rewrite <- negb_orb in Ed.
    apply negb_false_iff in Ed. exact Ed.
Qed.

(** X3.  [get_line], called with the offset of a character of the source,
    returns the characters from that one up to the next newline or NUL,
    provided fewer than a thousand characters lie between them; it returns
    nothing else. *)
Theorem get_line_returns (before ahead line : string) :
  get_line (before ++ ahead) (Z.of_nat (String.length before)) = Ok line tt
  <->
  exists c rest,
    ahead = (line ++ String c rest)%string /\
    string_forall not_line_end line = true /\
    line_end c = true /\
    Z.of_nat (String.length line) < LINE_BUF_SIZE.
Proof.
  unfold get_line. split.
  - intros H.
    apply (get_line_loop_inv _ before "" ahead line) in H
      as (run & c & rest & -> & -> & Hrun & Hc & Hlen).
    exists c, rest. repeat split; assumption.
  - intros (c & rest & -> & Hline & Hc & Hlen).
    apply (get_line_loop_ok line _ before "" c rest Hline Hc).
    + simpl. exact Hlen.
    + rewrite !length_app_string. simpl. lia.
Qed.

(* ----------------------------------------------------------------- *)
(** ** The line of a token *)

Lemma newlines_none text :
  string_forall not_newline text = true -> newlines text = 0.
Proof.
  induction text as [|c text IH]; simpl; [reflexivity|].
  intros H. apply andb_prop in H as (Hc & Ht).
  unfold not_newline in Hc. apply negb_true_iff in Hc. rewrite Hc, (IH Ht).
  reflexivity.
Qed.

Lemma column_from_split text : forall n,
  string_forall not_newline text = true
  /\ column_from n text = n + Z.of_nat (String.length text)
  \/ exists above partial,
       text = ((above ++ String newline "") ++ partial)%string /\
       string_forall not_newline partial = true /\
       column_from n text = Z.of_nat (String.length partial).
Proof.
  induction text as [|c text IH]; intros n.
  - left. simpl. split; [reflexivity | lia].
  - simpl column_from. destruct (Ascii.eqb c newline) eqn:E.
    + apply Ascii.eqb_eq in E. subst c. right.
      destruct (IH 0) as [(Hn & Hc) | (above & partial & -> & Hn & Hc)].
      * exists "", text. simpl. repeat split; [exact Hn | lia].
      * exists (String newline above), partial.
        repeat split; assumption.
    + destruct (IH (n + 1)) as [(Hn & Hc) | (above & partial & -> & Hn & Hc)].
      * left. simpl. unfold not_newline at 1. rewrite E. simpl.
        split; [exact Hn | lia].
      * right. exists (String c above), partial. repeat split; assumption.
Qed.

Lemma last_line before :
  exists above partial,
    before = (above ++ partial)%string /\
    (above = "" \/ exists p, above = (p ++ String newline "")%string) /\
    string_forall not_newline partial = true /\
    column before = Z.of_nat (String.length partial) /\
    newlines before = newlines above.
Proof.
  unfold column.
  destruct (column_from_split before 0)
    as [(Hn & Hc) | (above & partial & -> & Hn & Hc)].
  - exists "", before. split; [reflexivity|]. split; [left; reflexivity|].
    split; [exact Hn|]. split; [lia|]. simpl. apply newlines_none. exact Hn.
  - exists (above ++ String newline "")%string, partial.
    split; [reflexivity|]. split; [right; exists above; reflexivity|].
    split; [exact Hn|]. split; [exact Hc|].
    rewrite (newlines_app (above ++ String newline "")), (newlines_none _ Hn).
    lia.
Qed.

Lemma prefix_of_app (before : string) : forall text tail ahead,
  (text ++ tail = before ++ ahead)%string ->
  (String.length before <= String.length text)%nat ->
  exists rest, text = (before ++ rest)%string /\ ahead = (rest ++ tail)%string.
Proof.
  induction before as [|c before IH]; intros text tail ahead H Hlen.
  - exists text. simpl in *. split; [reflexivity | symmetry; exact H].
  - destruct text as [|d text]; [simpl in Hlen; lia|].
    simpl in H. injection H as -> H.
    apply IH in H as (rest & -> & ->); [|simpl in Hlen; lia].
    exists rest. split; reflexivity.
Qed.

Lemma first_line_end (text : string) : forall tail,
  exists run c rest,
    (text ++ String NUL tail = run ++ String c rest)%string /\
    string_forall not_line_end run = true /\ line_end c = true.
Proof.
  induction text as [|d text IH]; intros tail.
  - exists "", NUL, tail. repeat split.
  - destruct (line_end d) eqn:E.
    + exists "", d, (text ++ String NUL tail)%string. repeat split. exact E.
    + destruct (IH tail) as (run & c & rest & Heq & Hrun & Hc).
      exists (String d run), c, rest. simpl. rewrite Heq.
      unfold not_line_end at 1. rewrite E. repeat split; assumption.
Qed.

Lemma string_forall_and (f g h : ascii -> bool) s :
  (forall c, f c = true -> g c = true -> h c = true) ->
  string_forall f s = true -> string_forall g s = true ->
  string_forall h s = true.
Proof.
  intros Hfg. induction s as [|c s IH]; simpl; [reflexivity|].
  intros Hf Hg. apply andb_prop in Hf as (Hc & Hs).
  apply andb_prop in Hg as (Hc' & Hs').
  rewrite (Hfg _ Hc Hc'), (IH Hs Hs'). reflexivity.
Qed.

Lemma words_in source before ahead all tk :
  words source before ahead all -> In tk all ->
  exists start word next rest,
    source = (start ++ word ++ String next rest)%string /\
    token_of next word (tk_value tk) (tk_type tk) /\
    located source (tk_pos tk) start.
Proof.
  induction 1 as [before word next rest tk0 Hsrc Htok Hloc _
                 |before word next rest tk0 tokens Hsrc Htok Hloc _ _ IH];
    intros Hin.
  - destruct Hin as [<- | []]. exists before, word, next, rest. auto.
  - destruct Hin as [<- | Hin]; [|exact (IH Hin)].
    exists before, word, next, rest. auto.
Qed.

(** The line of a position of a text without NUL characters. *)
Lemma located_line text pos start word next rest :
  string_forall not_nul text = true ->
  c_buffer text = (start ++ word ++ String next rest)%string ->
  (1 <= String.length word)%nat ->
  located (c_buffer text) pos start ->
  exists above line c rest',
    c_buffer text = (above ++ line ++ String c rest')%string /\
    (above = "" \/ exists p, above = (p ++ String newline "")%string) /\
    string_forall not_line_end line = true /\ line_end c = true /\
    line_pos pos = newlines above /\
    line_offset pos = Z.of_nat (String.length above) /\
    0 <= col_pos pos <= Z.of_nat (String.length line) /\
    char_offset pos = line_offset pos + col_pos pos.
Proof.
  intros Hnul Hsrc Hword (_ & Ho & Hl & Hc & Hlo).
  assert (Hlen : (String.length start <= String.length text)%nat).
  { apply (f_equal String.length) in Hsrc. unfold c_buffer in Hsrc.
    rewrite !length_app_string in Hsrc. simpl in Hsrc. lia. }
  unfold c_buffer in Hsrc.
  destruct (prefix_of_app _ _ _ _ Hsrc Hlen) as (after & -> & Hahead).
  destruct (last_line start)
    as (above & partial & -> & Habove & Hpartial & Hcol & Hnl).
  destruct (first_line_end after (String NUL "")) as (run & c & rest' & Heq & Hrun & Hend).
  exists above, (partial ++ run)%string, c, rest'.
  rewrite length_app_string in Ho, Hlo.
  split.
  { unfold c_buffer. rewrite !string_app_assoc. rewrite Heq. reflexivity. }
  split; [exact Habove|].
  split.
  { rewrite string_forall_app, Hrun, andb_true_r.
    rewrite !string_forall_app in Hnul.
    apply andb_prop in Hnul as (Hnul & _). apply andb_prop in Hnul as (_ & Hnul).
    apply (string_forall_and not_newline not_nul); [|assumption|assumption].
    intros d H1 H2. unfold not_line_end, line_end, not_newline, not_nul in *.
    rewrite negb_orb, H1, H2. reflexivity. }
  split; [exact Hend|].
  rewrite length_app_string. repeat split; lia.
Qed.

(** X4.  The position of a token of a program text without NUL characters
    names its line: [line_offset] is the offset of the first character of
    the line the token starts in, [line_pos] the number of lines above it,
    [col_pos] the index of the token in the line, and [get_line], called
    with the source and [line_offset] as [parsererror] does, returns that
    line when it is shorter than a thousand characters. *)
Theorem token_line (text : string) (tokens : list lxtoken) (lx' : lexer)
    (tk : lxtoken) :
  string_forall not_nul text = true ->
  lex_source (c_buffer text) = Ok tokens lx' ->
  In tk tokens ->
  exists above line c rest,
    c_buffer text = (above ++ line ++ String c rest)%string /\
    (above = "" \/ exists p, above = (p ++ String newline "")%string) /\
    string_forall not_line_end line = true /\ line_end c = true /\
    line_pos (tk_pos tk) = newlines above /\
    line_offset (tk_pos tk) = Z.of_nat (String.length above) /\
    0 <= col_pos (tk_pos tk) <= Z.of_nat (String.length line) /\
    char_offset (tk_pos tk) = line_offset (tk_pos tk) + col_pos (tk_pos tk) /\
    (Z.of_nat (String.length line) < LINE_BUF_SIZE ->
     get_line (c_buffer text) (line_offset (tk_pos tk)) = Ok line tt).
Proof.
  intros Hnul H Hin. unfold lex_source in H.
  destruct (lexer_new (c_buffer text)) as [lx|] eqn:Hnew; [|discriminate].
  pose proof (lexer_new_source _ _ Hnew) as Hsrc.
  apply lexer_new_scanning in Hnew. unfold lexify in H.
  destruct (lexify_loop_words _ _ _ _ _ _ _ Hnew H) as (all & Hw & ->).
  rewrite Hsrc in Hw. simpl in Hin. apply filter_In in Hin as (Hin & _).
  destruct (words_in _ _ _ _ _ Hw Hin)
    as (start & word & next & rest & Hsplit & Htok & Hloc).
  apply token_of_length in Htok.
  destruct (located_line _ _ _ _ _ _ Hnul Hsplit Htok Hloc)
    as (above & line & c & rest' & Hb & Ha & Hline & Hc & Hlp & Hlo & Hcol & Hco).
  exists above, line, c, rest'.
  do 8 (split; [assumption|]).
  intros Hlen. rewrite Hlo, Hb. unfold get_line.
  apply (get_line_loop_ok line _ above "" c rest' Hline Hc).
  - simpl. exact Hlen.
  - rewrite !length_app_string. simpl. lia.
Qed.

(* ----------------------------------------------------------------- *)
(** ** From the text ahead to the result of [lex] *)

Lemma advance_while_run cond run : forall fuel buf lx before c d rest,
  scanning lx before (String c (run ++ String d rest)) ->
  string_forall cond run = true ->
  cond d = false ->
  (String.length run < fuel)%nat ->
  exists lx',
    advance_while cond fuel buf lx = Ok (buf ++ String c run)%string lx' /\
    scanning lx' (before ++ String c run) (String d rest).
Proof.
  induction run as [|e run IH]; intros fuel buf lx before c d rest Hs Hr Hd Hf;
    (destruct fuel as [|fuel]; [simpl in Hf; lia|]).
  - simpl in Hs. destruct (lexadvance_scanning _ _ _ _ _ Hs) as (lx1 & Ha & Hs1).
    exists lx1. split; [|exact Hs1].
    simpl. unfold bind. rewrite Ha.
    rewrite (scanning_lookahead _ _ _ _ Hs1), Hd. reflexivity.
  - simpl in Hs. destruct (lexadvance_scanning _ _ _ _ _ Hs) as (lx1 & Ha & Hs1).
    simpl in Hr. apply andb_prop in Hr as (He & Hr).
    destruct (IH fuel (buf ++ String c "")%string lx1
                 (before ++ String c "")%string e d rest Hs1 Hr Hd)
      as (lx' & Hw & Hs'); [simpl in Hf; lia|].
    exists lx'. rewrite !string_app_assoc in Hw, Hs'. simpl append in Hw, Hs'.
    split; [|exact Hs'].
    simpl advance_while. unfold bind. rewrite Ha.
    rewrite (scanning_lookahead _ _ _ _ Hs1), He. exact Hw.
Qed.

Lemma string_body_run body : forall fuel buf lx before d rest,
  scanning lx before (body ++ String dquote (String d rest)) ->
  string_forall not_quote body = true ->
  (String.length body < fuel)%nat ->
  exists lx',
    string_body fuel buf lx = Ok (buf ++ body)%string lx' /\
    scanning lx' (before ++ body ++ String dquote "") (String d rest).
Proof.
  induction body as [|e body IH]; intros fuel buf lx before d rest Hs Hb Hf;
    (destruct fuel as [|fuel]; [simpl in Hf; lia|]).
  - simpl in Hs. destruct (lexadvance_scanning _ _ _ _ _ Hs) as (lx1 & Ha & Hs1).
    exists lx1. split; [|exact Hs1].
    simpl. unfold bind. rewrite Ha. simpl. rewrite app_nil_string. reflexivity.
  - simpl in Hb. apply andb_prop in Hb as (He & Hb).
    assert (Hs0 : exists x tail,
               (body ++ String dquote (String d rest))%string = String x tail).
    { destruct body; simpl; eauto. }
    destruct Hs0 as (x & tail & Hx). simpl append in Hs. rewrite Hx in Hs.
    destruct (lexadvance_scanning _ _ _ _ _ Hs) as (lx1 & Ha & Hs1).
    rewrite <- Hx in Hs1.
    destruct (IH fuel (buf ++ String e "")%string lx1
                 (before ++ String e "")%string d rest Hs1 Hb)
      as (lx' & Hw & Hs'); [simpl in Hf; lia|].
    exists lx'. rewrite !string_app_assoc in Hw, Hs'. simpl append in Hw, Hs'.
    split; [|exact Hs'].
    simpl string_body. unfold bind. rewrite Ha.
    unfold not_quote in He. apply negb_true_iff in He. rewrite He. exact Hw.
Qed.

Lemma scanning_at lx before ahead (k : nat) :
  scanning lx before ahead ->
  source_at (lx_source lx) (char_offset (lx_pos lx) + 1 + Z.of_nat k)
  = String.get k ahead.
Proof.
  intros (Hs & _ & Ho & _). rewrite Hs.
  replace (char_offset (lx_pos lx) + 1) with (Z.of_nat (String.length before))
    by lia.
  apply source_at_ahead.
Qed.

Lemma check_pattern_other lx before c d rest (p1 p2 : ascii) :
  scanning lx before (String c (String d rest)) ->
  Ascii.eqb c p1 && Ascii.eqb d p2 = false ->
  check_pattern (String p1 (String p2 "")) lx = Ok false lx.
Proof.
  intros Hs E. apply (check_pattern_miss p1 p2 c d); [| |exact E].
  - rewrite <- (Z.add_0_r (_ + 1)). apply (scanning_at _ _ _ 0 Hs).
  - replace (char_offset (lx_pos lx) + 2)
      with (char_offset (lx_pos lx) + 1 + Z.of_nat 1) by lia.
    apply (scanning_at _ _ _ 1 Hs).
Qed.

Lemma check_pattern_word lx before (p1 p2 e : ascii) rest :
  scanning lx before (String p1 (String p2 (String e rest))) ->
  exists lx',
    check_pattern (String p1 (String p2 "")) lx = Ok true lx' /\
    scanning lx' (before ++ String p1 (String p2 "")) (String e rest).
Proof.
  intros Hs.
  assert (Hat : at_cursor (String p1 (String p2 "")) lx).
  { apply (at_cursor_scanning _ _ _ _ Hs). exists (String e rest). reflexivity. }
  destruct (lexadvance_scanning _ _ _ _ _ Hs) as (lx1 & Ha1 & Hs1).
  destruct (lexadvance_scanning _ _ _ _ _ Hs1) as (lx2 & Ha2 & Hs2).
  exists lx2. rewrite string_app_assoc in Hs2. split; [|exact Hs2].
  unfold check_pattern. unfold at_cursor in Hat. rewrite Hat.
  simpl. unfold bind. rewrite Ha1, Ha2. reflexivity.
Qed.

Lemma lex_scan_one lx before c next rest :
  scanning lx before (String c (String next rest)) ->
  isalpha c || Ascii.eqb c "_" = false ->
  isdigit c = false ->
  Ascii.eqb c dquote = false ->
  Ascii.eqb c "<" && Ascii.eqb next "-" = false ->
  Ascii.eqb c "<" && Ascii.eqb next "=" = false ->
  Ascii.eqb c ">" && Ascii.eqb next "=" = false ->
  exists lx',
    lex_scan lx = lex_single c lx' /\
    scanning lx' (before ++ String c "") (String next rest).
Proof.
  intros Hs E1 E2 E3 P1 P2 P3.
  destruct (lexadvance_scanning _ _ _ _ _ Hs) as (lx1 & Ha & Hs1).
  exists lx1. split; [|exact Hs1].
  unfold lex_scan. rewrite (scanning_lookahead _ _ _ _ Hs), E1, E2, E3.
  rewrite (bind_ok _ _ _ _ _ (check_pattern_other _ _ _ _ _ _ _ Hs P1)).
  rewrite (bind_ok _ _ _ _ _ (check_pattern_other _ _ _ _ _ _ _ Hs P2)).
  rewrite (bind_ok _ _ _ _ _ (check_pattern_other _ _ _ _ _ _ _ Hs P3)).
  rewrite (bind_ok _ _ _ _ _ Ha). reflexivity.
Qed.

Lemma digit_not_start c :
  isdigit c = true -> isalpha c || Ascii.eqb c "_" = false.
Proof. destruct c as [[] [] [] [] [] [] [] []]; vm_compute; congruence. Qed.

Lemma lex_single_plain c type lx :
  plain_kind c = Some type ->
  lex_single c lx = Ok ("", type) lx /\
  isalpha c || Ascii.eqb c "_" = false /\ isdigit c = false /\
  Ascii.eqb c dquote = false /\ Ascii.eqb c "<" = false /\
  Ascii.eqb c ">" = false.
Proof.
  destruct c as [[] [] [] [] [] [] [] []]; cbv; intros H; try discriminate;
    injection H as <-; repeat split.
Qed.

Lemma lex_single_glyph c lx :
  In c single_operators ->
  lex_single c lx = Ok (String c "", LX_OPERATOR) lx /\
  isalpha c || Ascii.eqb c "_" = false /\ isdigit c = false /\
  Ascii.eqb c dquote = false /\ Ascii.eqb c NUL = false.
Proof.
  intros Hin. simpl in Hin.
  repeat (destruct Hin as [<- | Hin]; [repeat split|]). destruct Hin.
Qed.

Lemma scanning_fuel lx before ahead (n : nat) :
  scanning lx before ahead -> (n <= String.length ahead)%nat ->
  (n < S (String.length (lx_source lx)))%nat.
Proof.
  intros (Hs & _) Hn. rewrite Hs, !length_app_string. lia.
Qed.

Lemma lex_scan_word lx before word next rest value type :
  scanning lx before (word ++ String next rest) ->
  token_of next word value type ->
  exists buf lx',
    lex_scan lx = Ok (buf, type) lx' /\ cstr buf = value /\
    (String.length buf <= String.length word)%nat /\
    scanning lx' (before ++ word) (String next rest).
Proof.
  intros Hs Htok.
  destruct Htok as [c run Hc Hrun Hn | c run Hc Hrun Hn | body Hb
                   | | | | c Hin Hlt Hgt | c type Hp].
  - simpl in Hs.
    destruct (advance_while_run ident_char run
                (S (String.length (lx_source lx))) "" lx before c next rest
                Hs Hrun Hn) as (lx' & Hw & Hs').
    { apply (scanning_fuel _ _ _ _ Hs). simpl. rewrite length_app_string. lia. }
    assert (Hv : cstr (String c run) = String c run).
    { simpl. rewrite (ident_start_not_nul _ Hc), (cstr_ident _ Hrun). reflexivity. }
    exists (String c run), lx'.
    split; [|split; [exact Hv | split; [lia | exact Hs']]].
    unfold lex_scan. rewrite (scanning_lookahead _ _ _ _ Hs), Hc.
    rewrite (bind_ok _ _ _ _ _ Hw). simpl append. rewrite Hv. reflexivity.
  - simpl in Hs.
    destruct (advance_while_run isdigit run
                (S (String.length (lx_source lx))) "" lx before c next rest
                Hs Hrun Hn) as (lx' & Hw & Hs').
    { apply (scanning_fuel _ _ _ _ Hs). simpl. rewrite length_app_string. lia. }
    assert (Hv : cstr (String c run) = String c run).
    { simpl.
      rewrite (ident_char_not_nul _ (isdigit_ident_char _ Hc)).
      rewrite (cstr_ident run
                 (string_forall_weaken _ _ _ isdigit_ident_char Hrun)).
      reflexivity. }
    exists (String c run), lx'.
    split; [|split; [exact Hv | split; [lia | exact Hs']]].
    unfold lex_scan.
    rewrite (scanning_lookahead _ _ _ _ Hs), (digit_not_start _ Hc), Hc.
    rewrite (bind_ok _ _ _ _ _ Hw). reflexivity.
  - simpl append in Hs. rewrite string_app_assoc in Hs. simpl append in Hs.
    assert (Hx : exists x tail,
               (body ++ String dquote (String next rest))%string = String x tail).
    { destruct body; simpl; eauto. }
    destruct Hx as (x & tail & Hx).
    pose proof Hs as Hs0. rewrite Hx in Hs0.
    destruct (lexadvance_scanning _ _ _ _ _ Hs0) as (lx1 & Ha & Hs1).
    rewrite <- Hx in Hs1.
    destruct (string_body_run body (S (String.length (lx_source lx))) ""
                lx1 _ next rest Hs1 Hb) as (lx' & Hw & Hs').
    { apply (scanning_fuel _ _ _ _ Hs). simpl. rewrite length_app_string. lia. }
    exists body, lx'.
    split; [|split; [reflexivity | split]].
    + unfold lex_scan. rewrite (scanning_lookahead _ _ _ _ Hs).
      change (isalpha dquote || Ascii.eqb dquote "_") with false.
      change (isdigit dquote) with false.
      change (Ascii.eqb dquote dquote) with true. cbv iota.
      rewrite (bind_ok _ _ _ _ _ Ha). rewrite (bind_ok _ _ _ _ _ Hw).
      reflexivity.
    + simpl. rewrite length_app_string. lia.
    + rewrite string_app_assoc in Hs'. exact Hs'.
  - destruct (check_pattern_word _ _ _ _ _ _ Hs) as (lx' & Hp & Hs').
    exists "", lx'. split; [|split; [reflexivity | split; [simpl; lia | exact Hs']]].
    unfold lex_scan. rewrite (scanning_lookahead _ _ _ _ Hs).
    change (isalpha "<" || Ascii.eqb "<" "_") with false.
    change (isdigit "<") with false.
    change (Ascii.eqb "<" dquote) with false. cbv iota.
    rewrite (bind_ok _ _ _ _ _ Hp). reflexivity.
  - destruct (check_pattern_word _ _ _ _ _ _ Hs) as (lx' & Hp & Hs').
    exists "", lx'. split; [|split; [reflexivity | split; [simpl; lia | exact Hs']]].
    unfold lex_scan. rewrite (scanning_lookahead _ _ _ _ Hs).
    change (isalpha "<" || Ascii.eqb "<" "_") with false.
    change (isdigit "<") with false.
    change (Ascii.eqb "<" dquote) with false. cbv iota.
    rewrite (bind_ok _ _ _ _ _
               (check_pattern_other _ _ _ _ _ "<" "-" Hs eq_refl)).
    rewrite (bind_ok _ _ _ _ _ Hp). reflexivity.
  - destruct (check_pattern_word _ _ _ _ _ _ Hs) as (lx' & Hp & Hs').
    exists "", lx'. split; [|split; [reflexivity | split; [simpl; lia | exact Hs']]].
    unfold lex_scan. rewrite (scanning_lookahead _ _ _ _ Hs).
    change (isalpha ">" || Ascii.eqb ">" "_") with false.
    change (isdigit ">") with false.
    change (Ascii.eqb ">" dquote) with false. cbv iota.
    rewrite (bind_ok _ _ _ _ _
               (check_pattern_other _ _ _ _ _ "<" "-" Hs eq_refl)).
    rewrite (bind_ok _ _ _ _ _
               (check_pattern_other _ _ _ _ _ "<" "=" Hs eq_refl)).
    rewrite (bind_ok _ _ _ _ _ Hp). reflexivity.
  - simpl append in Hs.
    destruct (lex_single_glyph c lx Hin) as (_ & E1 & E2 & E3 & E0).
    assert (P1 : Ascii.eqb c "<" && Ascii.eqb next "-" = false).
    { destruct (Ascii.eqb c "<") eqn:E; [|reflexivity].
      apply Ascii.eqb_eq in E. destruct (Hlt E) as (Hne & _).
      apply Ascii.eqb_neq in Hne. rewrite Hne. reflexivity. }
    assert (P2 : Ascii.eqb c "<" && Ascii.eqb next "=" = false).
    { destruct (Ascii.eqb c "<") eqn:E; [|reflexivity].
      apply Ascii.eqb_eq in E. destruct (Hlt E) as (_ & Hne).
      apply Ascii.eqb_neq in Hne. rewrite Hne. reflexivity. }
    assert (P3 : Ascii.eqb c ">" && Ascii.eqb next "=" = false).
    { destruct (Ascii.eqb c ">") eqn:E; [|reflexivity].
      apply Ascii.eqb_eq in E. apply Hgt in E.
      apply Ascii.eqb_neq in E. rewrite E. reflexivity. }
    destruct (lex_scan_one _ _ _ _ _ Hs E1 E2 E3 P1 P2 P3) as (lx' & Hl & Hs').
    exists (String c ""), lx'.
    split; [|split; [simpl; rewrite E0; reflexivity
                    | split; [simpl; lia | exact Hs']]].
    rewrite Hl. apply (lex_single_glyph c lx' Hin).
  - simpl append in Hs.
    destruct (lex_single_plain c type lx Hp) as (_ & E1 & E2 & E3 & E4 & E5).
    destruct (lex_scan_one _ _ _ _ _ Hs E1 E2 E3) as (lx' & Hl & Hs');
      try (rewrite ?E4, ?E5; reflexivity).
    exists "", lx'.
    split; [|split; [reflexivity | split; [simpl; lia | exact Hs']]].
    rewrite Hl. apply (lex_single_plain c type lx' Hp).
Qed.

(** [lex] on a buffer whose next word is [word]. *)
Lemma lex_word lx before word next rest value type :
  scanning lx before (word ++ String next rest) ->
  token_of next word value type ->
  Z.of_nat (String.length word) < LEX_BUF_SIZE ->
  exists lx',
    lex lx = Ok (lxtoken_new value type (token_pos lx)) lx' /\
    scanning lx' (before ++ word) (String next rest).
Proof.
  intros Hs Htok Hlen.
  destruct (lex_scan_word _ _ _ _ _ _ _ Hs Htok)
    as (buf & lx' & Hscan & Hv & Hb & Hs').
  exists lx'. split; [|exact Hs'].
  unfold lex. rewrite (bind_ok _ _ _ _ _ Hscan).
  destruct (LEX_BUF_SIZE <=? Z.of_nat (String.length buf)) eqn:E;
    [apply Z.leb_le in E; lia|].
  rewrite Hv. reflexivity.
Qed.

Lemma located_token_pos lx before ahead pos :
  scanning lx before ahead ->
  located (lx_source lx) pos before ->
  pos = token_pos lx.
Proof.
  intros (_ & _ & Ho & Hl & Hc & Hlo) (_ & Ho' & Hl' & Hc' & Hlo').
  destruct pos as [c l o lo]. unfold token_pos. simpl in *.
  f_equal; lia.
Qed.

Lemma lexify_loop_complete source before ahead all :
  words source before ahead all ->
  Z.of_nat (String.length source) <= LEX_BUF_SIZE ->
  forall fuel tokens lx,
    scanning lx before ahead ->
    lx_source lx = source ->
    (String.length ahead <= fuel)%nat ->
    exists lx',
      lexify_loop fuel tokens lx
      = Ok (tokens ++ filter (fun tk => negb (skipped tk)) all) lx'.
Proof.
  intros Hw Hsize.
  induction Hw as [before word next rest tk Hsrc Htok Hloc Heof
                  |before word next rest tk all Hsrc Htok Hloc Hne Hw IH];
    intros fuel tokens lx Hs Hlx Hfuel.
  - assert (Hlen : Z.of_nat (String.length word) < LEX_BUF_SIZE).
    { rewrite Hsrc, !length_app_string in Hsize. simpl in Hsize. lia. }
    destruct (lex_word _ _ _ _ _ _ _ Hs Htok Hlen) as (lx' & Hlex & Hs').
    rewrite <- Hlx in Hloc.
    rewrite <- (located_token_pos _ _ _ _ Hs Hloc) in Hlex.
    destruct tk as [value type pos]. simpl in *.
    destruct fuel as [|fuel]; [rewrite length_app_string in Hfuel; simpl in Hfuel; lia|].
    exists lx'. simpl lexify_loop. rewrite (bind_ok _ _ _ _ _ Hlex).
    cbn [tk_type]. rewrite Heof. reflexivity.
  - assert (Hlen : Z.of_nat (String.length word) < LEX_BUF_SIZE).
    { rewrite Hsrc, !length_app_string in Hsize. simpl in Hsize. lia. }
    destruct (lex_word _ _ _ _ _ _ _ Hs Htok Hlen) as (lx1 & Hlex & Hs1).
    pose proof Hloc as Hloc'. rewrite <- Hlx in Hloc'.
    rewrite <- (located_token_pos _ _ _ _ Hs Hloc') in Hlex.
    pose proof (token_of_length _ _ _ _ Htok) as Hword.
    assert (Hlx1 : lx_source lx1 = source).
    { destruct Hs1 as (-> & _). rewrite Hsrc. apply string_app_assoc. }
    destruct fuel as [|fuel]; [rewrite length_app_string in Hfuel; simpl in Hfuel; lia|].
    assert (Hfuel' : (String.length (String next rest) <= fuel)%nat).
    { rewrite length_app_string in Hfuel. lia. }
    assert (Hk : lxtype_eqb (tk_type tk) LX_EOF = false).
    { destruct (lxtype_eqb (tk_type tk) LX_EOF) eqn:E; [|reflexivity].
      apply lxtype_eqb_eq in E. contradiction. }
    destruct tk as [value type pos]. simpl in *.
    simpl lexify_loop. rewrite (bind_ok _ _ _ _ _ Hlex). cbn [tk_type].
    rewrite Hk. cbn [filter]. unfold skipped at 1. cbn [tk_type].
    rewrite negb_orb.
    destruct (negb (lxtype_eqb type LX_WHITESPACE)
              && negb (lxtype_eqb type LX_COMMENT)).
    + destruct (IH fuel (vector_push tokens (lxtoken_new value type pos))
                  lx1 Hs1 Hlx1 Hfuel') as (lx' & H).
      exists lx'. rewrite H. unfold vector_push. rewrite <- app_assoc.
      reflexivity.
    + exact (IH fuel tokens lx1 Hs1 Hlx1 Hfuel').
Qed.

(** X5.  A buffer of at most [LEX_BUF_SIZE] characters that divides into
    words, the last of them a NUL character followed by one more character,
    is never rejected: [lex_source] does not stop in [lexerror] on it, and
    when it returns, the vector holds exactly the tokens of the words that
    are not of kind [LX_WHITESPACE] or [LX_COMMENT]. *)
Theorem words_never_rejected (src : string) (all : list lxtoken) :
  words src "" src all ->
  Z.of_nat (String.length src) <= LEX_BUF_SIZE ->
  (forall status msg lx', lex_source src <> Exit status msg lx') /\
  (forall tokens lx',
      lex_source src = Ok tokens lx' ->
      tokens = filter (fun tk => negb (skipped tk)) all).
Proof.
  intros Hw Hsize.
  assert (H : exists lx',
             lex_source src = Ok (filter (fun tk => negb (skipped tk)) all) lx').
  { unfold lex_source.
    destruct (lexer_new src) as [lx|] eqn:Hnew.
    - pose proof (lexer_new_source _ _ Hnew) as Hsrc.
      apply lexer_new_scanning in Hnew. unfold lexify.
      destruct (lexify_loop_complete _ _ _ _ Hw Hsize
                  (S (String.length (lx_source lx))) [] lx Hnew Hsrc)
        as (lx' & H); [rewrite Hsrc; lia|].
      exists lx'. exact H.
    - exfalso. unfold lexer_new in Hnew.
      destruct src as [|c src]; [|discriminate].
      inversion Hw as [? word ? ? ? Heq|? word ? ? ? ? Heq];
        destruct word; discriminate. }
  destruct H as (lx0 & H). rewrite H. split.
  - discriminate.
  - intros tokens lx' E. injection E as <- _. reflexivity.
Qed.

(* ----------------------------------------------------------------- *)
(** ** The report of [lexerror] *)

Lemma lex_single_exit c lx st msg lx' :
  lex_single c lx = Exit st msg lx' ->
  isalpha c || Ascii.eqb c "_" = false ->
  isdigit c = false ->
  Ascii.eqb c dquote = false ->
  starts_token c = false /\ Ascii.eqb c newline = false /\
  st = 0 /\ msg = unidentified /\ lx' = lx.
Proof.
  destruct c as [[] [] [] [] [] [] [] []]; cbv;
    intros H E1 E2 E3; try discriminate;
    injection H as <- <- <-; repeat split.
Qed.

Lemma lexadvance_current lx c lx' :
  lexadvance lx = Ok c lx' -> lx_current lx' = c.
Proof.
  unfold lexadvance.
  destruct (source_at _ _); [|discriminate].
  intros H. injection H as <- <-. reflexivity.
Qed.

Lemma lex_exit_scanning lx before ahead st msg lx' :
  scanning lx before ahead ->
  lex lx = Exit st msg lx' ->
  exists c rest,
    ahead = String c rest /\ starts_token c = false /\
    Ascii.eqb c newline = false /\ lx_current lx' = c /\
    scanning lx' (before ++ String c "") rest /\
    st = 0 /\ msg = unidentified.
Proof.
  intros Hs H.
  pose proof Hs as (_ & (a0 & ->) & _).
  set (c := lx_lookahead lx) in *.
  unfold lex in H.
  apply bind_exit_inv in H as [H | ([buf type] & lx1 & _ & H)];
    [|destruct (LEX_BUF_SIZE <=? _); discriminate].
  unfold lex_scan in H. fold c in H.
  destruct (isalpha c || Ascii.eqb c "_") eqn:E1.
  { apply bind_exit_inv in H as [H | (b & lx2 & _ & H)]; [|discriminate].
    exfalso. exact (advance_while_not_exit _ _ _ _ _ _ _ H). }
  destruct (isdigit c) eqn:E2.
  { apply bind_exit_inv in H as [H | (b & lx2 & _ & H)]; [|discriminate].
    exfalso. exact (advance_while_not_exit _ _ _ _ _ _ _ H). }
  destruct (Ascii.eqb c dquote) eqn:E3.
  { apply bind_exit_inv in H as [H | (x & lx2 & _ & H)];
      [exfalso; exact (lexadvance_not_exit _ _ _ _ H)|].
    apply bind_exit_inv in H as [H | (b & lx3 & _ & H)]; [|discriminate].
    exfalso. exact (string_body_not_exit _ _ _ _ _ _ H). }
  apply bind_exit_inv in H as [H | ([|] & lx2 & Hp1 & H)];
    [exfalso; exact (check_pattern_not_exit _ _ _ _ _ H) | discriminate |].
  apply check_pattern_false in Hp1 as (-> & _).
  apply bind_exit_inv in H as [H | ([|] & lx3 & Hp2 & H)];
    [exfalso; exact (check_pattern_not_exit _ _ _ _ _ H) | discriminate |].
  apply check_pattern_false in Hp2 as (-> & _).
  apply bind_exit_inv in H as [H | ([|] & lx4 & Hp3 & H)];
    [exfalso; exact (check_pattern_not_exit _ _ _ _ _ H) | discriminate |].
  apply check_pattern_false in Hp3 as (-> & _).
  apply bind_exit_inv in H as [H | (x & lx5 & Ha & H)];
    [exfalso; exact (lexadvance_not_exit _ _ _ _ H)|].
  pose proof (lexadvance_current _ _ _ Ha) as Hcur.
  destruct (lexadvance_scanning_inv _ _ _ _ _ _ Hs Ha)
    as (-> & d & rest & -> & Hs1).
  destruct (lex_single_exit _ _ _ _ _ H E1 E2 E3)
    as (Hc & Hn & -> & -> & ->).
  exists c, (String d rest).
  split; [reflexivity|]. split; [exact Hc|]. split; [exact Hn|].
  split; [exact Hcur|]. split; [exact Hs1|]. split; reflexivity.
Qed.

Lemma lexify_loop_exit fuel : forall tokens lx before ahead st msg lx',
  scanning lx before ahead ->
  lexify_loop fuel tokens lx = Exit st msg lx' ->
  exists done c rest,
    ahead = (done ++ String c rest)%string /\ starts_token c = false /\
    Ascii.eqb c newline = false /\ lx_current lx' = c /\
    scanning lx' (before ++ done ++ String c "") rest /\
    st = 0 /\ msg = unidentified.
Proof.
  induction fuel as [|fuel IH]; intros tokens lx before ahead st msg lx' Hs H;
    [discriminate|].
  simpl in H. apply bind_exit_inv in H as [H | (tok & lx1 & Hlex & H)].
  - destruct (lex_exit_scanning _ _ _ _ _ _ Hs H)
      as (c & rest & -> & Hc & Hn & Hcur & Hs' & -> & ->).
    exists "", c, rest.
    split; [reflexivity|]. split; [exact Hc|]. split; [exact Hn|].
    split; [exact Hcur|]. split; [exact Hs'|]. split; reflexivity.
  - destruct (lex_scanning _ _ _ _ _ Hs Hlex)
      as (word & rest & -> & Hs1 & _).
    assert (Hrec : exists tokens', lexify_loop fuel tokens' lx1 = Exit st msg lx').
    { destruct (lxtype_eqb (tk_type tok) LX_EOF); [discriminate|].
      destruct (negb _ && negb _); eauto. }
    destruct Hrec as (tokens' & Hrec).
    destruct (IH _ _ _ _ _ _ _ Hs1 Hrec)
      as (done & c & rest' & -> & Hc & Hn & Hcur & Hs' & -> & ->).
    exists (word ++ done)%string, c, rest'.
    rewrite !string_app_assoc in *.
    split; [reflexivity|]. split; [exact Hc|]. split; [exact Hn|].
    split; [exact Hcur|]. split; [exact Hs'|]. split; reflexivity.
Qed.

Lemma column_snoc before c :
  Ascii.eqb c newline = false ->
  column (before ++ String c "") = column before + 1 /\
  newlines (before ++ String c "") = newlines before.
Proof.
  intros Hc. unfold column.
  rewrite column_from_app, newlines_app. simpl. rewrite Hc. lia.
Qed.

(** X7.  When [lex_source] stops with an error report, the report is that
    of an unidentified character: the exit status is zero, the cursor is
    on a character with which no token starts, and the line, column and
    line offset [lexerror] takes from the state are those of that
    character. *)
Theorem lexerror_position (src : string) (st : Z) (msg : string)
    (lx' : lexer) :
  lex_source src = Exit st msg lx' ->
  st = 0 /\ msg = unidentified /\
  exists before ahead,
    src = (before ++ String (lx_current lx') ahead)%string /\
    starts_token (lx_current lx') = false /\
    lx_source lx' = src /\
    located src (lx_pos lx') before.
Proof.
  unfold lex_source.
  destruct (lexer_new src) as [lx|] eqn:Hnew; [|discriminate].
  intros H. pose proof (lexer_new_source _ _ Hnew) as Hsrc.
  apply lexer_new_scanning in Hnew. unfold lexify in H.
  destruct (lexify_loop_exit _ _ _ _ _ _ _ _ Hnew H)
    as (done & c & rest & -> & Hc & Hn & Hcur & Hs' & -> & ->).
  split; [reflexivity|]. split; [reflexivity|].
  exists done, rest. rewrite Hcur.
  destruct Hs' as (Hsrc' & _ & Ho & Hl & Hcol & Hlo). simpl append in *.
  destruct (column_snoc done c Hn) as (Hcs & Hns).
  rewrite Hcs in Hcol, Hlo. rewrite Hns in Hl.
  rewrite length_app_string in Ho, Hlo. simpl in Ho, Hlo.
  split; [reflexivity|]. split; [exact Hc|].
  split; [rewrite Hsrc', string_app_assoc; reflexivity|].
  split; [exists (String c rest); reflexivity|].
  repeat split; lia.
Qed.

(* ----------------------------------------------------------------- *)
(** ** The values of the tokens *)

Lemma string_forall_cstr f s :
  string_forall f s = true -> string_forall f (cstr s) = true.
Proof.
  induction s as [|c s IH]; simpl; [reflexivity|].
  intros H. apply andb_prop in H as (Hc & Hs).
  destruct (Ascii.eqb c NUL); [reflexivity|].
  simpl. rewrite Hc, (IH Hs). reflexivity.
Qed.

Lemma token_of_well_formed next word value type pos :
  token_of next word value type ->
  skipped (lxtoken_new value type pos) = false ->
  well_formed (lxtoken_new value type pos).
Proof.
  intros Htok Hkept. unfold well_formed. simpl.
  destruct Htok as [c run Hc Hrun Hn | c run Hc Hrun Hn | body Hb
                   | | | | c Hin Hlt Hgt | c type Hp].
  - destruct (determine_nature_cases (String c run))
      as [(Hv & ->) | [(Hv & ->) | [(Hv & ->) | ((H1 & H2 & H3 & H4) & ->)]]];
      try exact Hv.
    split.
    + simpl. rewrite Hc, Hrun. reflexivity.
    + simpl. intros [H | [H | [H | [H | []]]]]; symmetry in H; contradiction.
  - split; [discriminate|]. simpl. rewrite Hc, Hrun. reflexivity.
  - apply string_forall_cstr. exact Hb.
  - reflexivity.
  - left. reflexivity.
  - left. reflexivity.
  - right. exists c. split; [reflexivity | exact Hin].
  - unfold skipped in Hkept. simpl in Hkept. revert Hp Hkept. clear.
    destruct c as [[] [] [] [] [] [] [] []]; cbv; intros H; try discriminate;
      injection H as <-; intros; try reflexivity; discriminate.
Qed.

(** X8.  Every token [lexify] returns has one of the kinds the branches of
    [lex] assign, and a value of the form of its kind: an identifier that
    is no reserved word for [LX_SYMBOL], the reserved word itself for
    [LX_BOOL], [LX_NULL] and [LX_RETURN], a non-empty run of digits for
    [LX_INTEGER], a text without double quote for [LX_STRING], one operator
    glyph or the empty string for [LX_OPERATOR], and the empty string for
    every other kind. *)
Theorem lexify_well_formed (src : string) (lx : lexer)
    (tokens : list lxtoken) (lx' : lexer) :
  lexer_new src = Some lx ->
  lexify [] lx = Ok tokens lx' ->
  Forall well_formed tokens.
Proof.
  intros Hnew H.
  apply lexer_new_scanning in Hnew. unfold lexify in H.
  destruct (lexify_loop_words _ _ _ _ _ _ _ Hnew H) as (all & Hw & ->).
  apply Forall_forall. intros tk Hin. simpl in Hin.
  apply filter_In in Hin as (Hin & Hkept).
  apply negb_true_iff in Hkept.
  destruct (words_in _ _ _ _ _ Hw Hin)
    as (start & word & next & rest & _ & Htok & _).
  destruct tk as [value type pos]. simpl in Htok.
  exact (token_of_well_formed _ _ _ _ _ Htok Hkept).
Qed.

(* ----------------------------------------------------------------- *)
(** ** Instances *)

(** X2, witness: [x <- y1 >= 2 # note]. *)
Lemma lexify_offsets_increase_witness :
  StronglySorted
    (fun a b => char_offset (tk_pos a) < char_offset (tk_pos b))
    statement_tokens /\
  Forall (fun tk => 0 <= char_offset (tk_pos tk)
                    < Z.of_nat (String.length (lx_source statement_lexer)))
         statement_tokens.
Proof.
  apply (lexify_offsets_increase (lx_source statement_lexer) statement_lexer
                                 statement_tokens statement_lexer');
    vm_compute; reflexivity.
Defined.

(** X4, witness: the token [b] of the second of two lines. *)
Lemma token_line_witness :
  exists above line c rest,
    c_buffer two_lines = (above ++ line ++ String c rest)%string /\
    (above = "" \/ exists p, above = (p ++ String newline "")%string) /\
    string_forall not_line_end line = true /\ line_end c = true /\
    line_pos (tk_pos second_line_token) = newlines above /\
    line_offset (tk_pos second_line_token) = Z.of_nat (String.length above) /\
    0 <= col_pos (tk_pos second_line_token) <= Z.of_nat (String.length line) /\
    char_offset (tk_pos second_line_token)
    = line_offset (tk_pos second_line_token)
      + col_pos (tk_pos second_line_token) /\
    (Z.of_nat (String.length line) < LINE_BUF_SIZE ->
     get_line (c_buffer two_lines) (line_offset (tk_pos second_line_token))
     = Ok line tt).
Proof.
  apply (token_line two_lines two_lines_tokens two_lines_lexer'
                    second_line_token).
  - vm_compute; reflexivity.
  - vm_compute; reflexivity.
  - do 4 right. left. reflexivity.
Defined.

(** X5, witness: [n+1]. *)
Lemma words_never_rejected_witness :
  (forall status msg lx', lex_source sum_buffer <> Exit status msg lx') /\
  (forall tokens lx',
      lex_source sum_buffer = Ok tokens lx' ->
      tokens = filter (fun tk => negb (skipped tk)) sum_words).
Proof.
  apply (words_never_rejected sum_buffer sum_words).
  - apply (words_more sum_buffer "" "n" "+" (String "1" (String NUL (String NUL "")))%string);
      [reflexivity
      |apply (word_identifier "+" "n" ""); reflexivity
      |split; [exists sum_buffer; reflexivity | repeat split]
      |discriminate|].
    apply (words_more sum_buffer "n" "+" "1" (String NUL (String NUL "")));
      [reflexivity
      |apply (word_operator "1" "+"); [simpl; tauto | discriminate | discriminate]
      |split; [eexists; reflexivity | repeat split]
      |discriminate|].
    apply (words_more sum_buffer "n+" "1" NUL (String NUL ""));
      [reflexivity
      |apply (word_integer NUL "1" ""); reflexivity
      |split; [eexists; reflexivity | repeat split]
      |discriminate|].
    apply (words_last sum_buffer "n+1" (String NUL "") NUL "");
      [reflexivity
      |apply (word_plain NUL NUL LX_EOF); reflexivity
      |split; [eexists; reflexivity | repeat split]
      |reflexivity].
  - vm_compute. discriminate.
Defined.

(** X7, witness: [x <- 1 ? 2]. *)
Lemma lexerror_position_witness :
  0 = 0 /\ unidentified = unidentified /\
  exists before ahead,
    unknown_buffer = (before ++ String (lx_current unknown_lexer') ahead)%string /\
    starts_token (lx_current unknown_lexer') = false /\
    lx_source unknown_lexer' = unknown_buffer /\
    located unknown_buffer (lx_pos unknown_lexer') before.
Proof.
  apply (lexerror_position unknown_buffer 0 unidentified unknown_lexer').
  vm_compute; reflexivity.
Defined.

(** X8, witness: [x <- y1 >= 2 # note]. *)
Lemma lexify_well_formed_witness : Forall well_formed statement_tokens.
Proof.
  apply (lexify_well_formed (lx_source statement_lexer) statement_lexer
                            statement_tokens statement_lexer');
    vm_compute; reflexivity.
Defined.

(** X3, witness: the second of the two lines. *)
Lemma get_line_returns_witness :
  get_line (("a <- 1" ++ String newline "")
            ++ ("b <- a + 2" ++ String NUL (String NUL "")))%string
           (Z.of_nat (String.length ("a <- 1" ++ String newline "")%string))
  = Ok "b <- a + 2" tt.
Proof.
  apply (proj2 (get_line_returns ("a <- 1" ++ String newline "")%string
                  ("b <- a + 2" ++ String NUL (String NUL ""))%string
                  "b <- a + 2")).
  exists NUL, (String NUL ""). repeat split.
Defined.

(* ================================================================= *)
(** * More on the parser *)

(* ----------------------------------------------------------------- *)
(** ** The cursor stays on a token *)



Lemma not_empty_peek p :
  is_empty p = false ->
  exists tk, peek p = Some tk /\ tk_type tk <> LX_EOF.
Proof.
  unfold is_empty. intros H. apply orb_false_iff in H as (_ & H).
  destruct (peek p) as [tk|]; [|discriminate].
  exists tk. split; [reflexivity|]. intros E. rewrite E in H. discriminate.
Qed.











(* ----------------------------------------------------------------- *)
(** ** Reading the cursor and the stacks *)

Lemma peek_token_inv p tk p' :
  peek_token p = Ok tk p' -> p' = p /\ peek p = Some tk.
Proof.
  unfold peek_token, deref. destruct (peek p); [|discriminate].
  intros H. injection H as <- <-. split; reflexivity.
Qed.

Lemma vector_pop_some {A : Type} (v : list A) :
  v <> [] -> exists x v', v = v' ++ [x] /\ vector_pop v = Some (x, v').
Proof.
  intros Hv. destruct (exists_last Hv) as (v' & x & ->).
  exists x, v'. split; [reflexivity | apply vector_pop_push].
Qed.

(* ----------------------------------------------------------------- *)
(** ** The cursor at an error report *)



















(* ----------------------------------------------------------------- *)
(** ** The vector is only read, from left to right *)

Lemma eat_follows p0 p r p' : eat p = Ok r p' -> follows p0 p -> follows p0 p'.
Proof.
  unfold eat, follows. destruct (negb (is_empty p)); intros H (Ht & Hs & Hp);
    injection H as <- <-; simpl; repeat split; assumption || lia.
Qed.

Lemma eat_token_follows p0 p tk p' :
  eat_token p = Ok tk p' -> follows p0 p -> follows p0 p'.
Proof.
  unfold eat_token. intros H He. apply bind_ok_inv in H as (r & p1 & H1 & H).
  apply deref_state in H. subst p1. exact (eat_follows _ _ _ _ H1 He).
Qed.

Lemma consume_follows p0 type p r p' :
  consume type p = Ok r p' -> follows p0 p -> follows p0 p'.
Proof.
  unfold consume. destruct (_ && _); [apply eat_follows|].
  intros H. exfalso. exact (parsererror_not_ok _ _ _ _ H).
Qed.

Lemma consume_token_follows p0 type p tk p' :
  consume_token type p = Ok tk p' -> follows p0 p -> follows p0 p'.
Proof.
  unfold consume_token. intros H He.
  apply bind_ok_inv in H as (r & p1 & H1 & H).
  apply deref_state in H. subst p1. exact (consume_follows _ _ _ _ _ H1 He).
Qed.

Lemma consume_optional_follows p0 type p b p' :
  consume_optional type p = Ok b p' -> follows p0 p -> follows p0 p'.
Proof.
  unfold consume_optional. destruct (_ && _).
  - intros H He. apply bind_ok_inv in H as (r & p1 & H1 & H).
    injection H as _ <-. exact (eat_follows _ _ _ _ H1 He).
  - intros H He. injection H as _ <-. exact He.
Qed.

Lemma strip_loop_follows p0 n : forall p u p',
  strip_loop n p = Ok u p' -> follows p0 p -> follows p0 p'.
Proof.
  induction n as [|n IH]; intros p u p' H He; simpl in H;
    apply bind_ok_inv in H as (b & p1 & Hc & H);
    apply (consume_optional_follows p0) in Hc; try exact He;
    destruct b; try discriminate.
  - injection H as _ <-. exact Hc.
  - exact (IH _ _ _ H Hc).
  - injection H as _ <-. exact Hc.
Qed.

Lemma strip_newlines_follows p0 p u p' :
  strip_newlines p = Ok u p' -> follows p0 p -> follows p0 p'.
Proof. apply strip_loop_follows. Qed.

Ltac follows_primitive H :=
  first
    [ eapply eat_token_follows in H; [|eassumption]
    | eapply consume_token_follows in H; [|eassumption]
    | eapply consume_follows in H; [|eassumption]
    | eapply consume_optional_follows in H; [|eassumption]
    | eapply eat_follows in H; [|eassumption]
    | eapply strip_newlines_follows in H; [|eassumption]
    | apply peek_token_state in H; subst
    | apply lookahead_token_state in H; subst
    | apply deref_state in H; subst
    | apply precedence_state in H; subst
    | apply shunting_yard_state in H; subst
    | apply apply_remaining_state in H; subst
    | apply link_chain_state in H; subst
    | exfalso; exact (parsererror_not_ok _ _ _ _ H) ].

Ltac follows_step IH :=
  match goal with
  | H : bind _ _ _ = Ok _ _ |- _ =>
      let a := fresh "a" in let q := fresh "q" in
      let Hm := fresh "Hm" in
      apply bind_ok_inv in H as (a & q & Hm & H)
  | H : ret _ _ = Ok _ _ |- _ => injection H as ? ?; subst
  | H : Ok _ _ = Ok _ _ |- _ => injection H as ? ?; subst
  | H : parse_rec _ _ _ = Ok _ _ |- _ => eapply IH in H; [|eassumption]
  | H : (if ?b then _ else _) _ = Ok _ _ |- _ => destruct b
  | H : (if ?b then _ else _) = Ok _ _ |- _ => destruct b
  | H : (match ?x with _ => _ end) _ = Ok _ _ |- _ => destruct x
  | H : (match ?x with _ => _ end) = Ok _ _ |- _ => destruct x
  | H : _ = Ok _ _ |- _ => follows_primitive H
  end.

Lemma parse_rec_follows fuel : forall c p0 p n p',
  parse_rec fuel c p = Ok n p' -> follows p0 p -> follows p0 p'.
Proof.
  induction fuel as [|fuel IH]; intros c p0 p n p' H He; [discriminate|].
  change (parse_body (parse_rec fuel) c p = Ok n p') in H.
  destruct c; unfold parse_body, braced_block, table_key in H;
    repeat follows_step IH; assumption.
Qed.

Lemma block_loop_end fuel : forall terminal block p n p',
  parse_rec fuel (BlockLoop terminal block) p = Ok n p' ->
  is_empty p' = true \/ peek_is terminal p' = true.
Proof.
  induction fuel as [|fuel IH]; intros terminal block p n p' H; [discriminate|].
  simpl in H.
  destruct (negb (is_empty p) && negb (peek_is terminal p)) eqn:E.
  - apply bind_ok_inv in H as (st & p1 & _ & H).
    apply bind_ok_inv in H as (u & p2 & _ & H).
    exact (IH _ _ _ _ _ H).
  - injection H as _ <-. apply andb_false_iff in E as [E | E];
      apply negb_false_iff in E; [left | right]; exact E.
Qed.

Lemma block_end fuel terminal p n p' :
  parse_rec fuel (Block terminal) p = Ok n p' ->
  is_empty p' = true \/ peek_is terminal p' = true.
Proof.
  destruct fuel as [|fuel]; [discriminate|]. simpl. intros H.
  apply bind_ok_inv in H as (tk & p1 & _ & H).
  apply bind_ok_inv in H as (u & p2 & _ & H).
  exact (block_loop_end _ _ _ _ _ _ H).
Qed.

Lemma peek_is_eof p : peek_is LX_EOF p = true -> is_empty p = true.
Proof.
  unfold peek_is, is_empty. destruct (peek p); [|discriminate].
  intros ->. apply orb_true_r.
Qed.

(** X9.  A call of [parse] that returns has read the whole input: it
    returns a block node, the cursor is at the end of the vector or on an
    [LX_EOF] token, and the vector and the source are those it was given. *)
Theorem parse_reads_all (fuel : nat) (p : parser) (tree : astnode)
    (p' : parser) :
  parse fuel p = Ok tree p' ->
  is_block tree /\ is_empty p' = true /\
  tokens p' = tokens p /\ p_source p' = p_source p /\
  (position p <= position p')%nat.
Proof.
  unfold parse, parse_block. intros H.
  split; [exact (block_is_block _ _ _ _ _ H)|].
  split.
  - destruct (block_end _ _ _ _ _ H) as [E | E];
      [exact E | exact (peek_is_eof _ E)].
  - apply (parse_rec_follows _ _ p) in H; [exact H|].
    repeat split. lia.
Qed.

(** X9, witness: the two assignments. *)
Lemma parse_reads_all_witness :
  is_block two_lines_tree /\ is_empty two_lines_parser' = true /\
  tokens two_lines_parser' = tokens two_lines_parser /\
  p_source two_lines_parser' = p_source two_lines_parser /\
  (position two_lines_parser <= position two_lines_parser')%nat.
Proof.
  apply (parse_reads_all 80 two_lines_parser two_lines_tree two_lines_parser').
  vm_compute; reflexivity.
Defined.


(* ----------------------------------------------------------------- *)
(** ** Chains of binary operators *)

Lemma apply_remaining_one op acc a p :
  apply_remaining 1 [acc; a] [op] p = Ok (binary op acc a) p.
Proof.
  simpl. unfold bind at 1.
  change (reduce_top [acc; a] [op] p)
    with (reduce_top ([] ++ [acc; a]) ([] ++ [op]) p).
  rewrite reduce_top_push. reflexivity.
Qed.

Lemma loop_left rest : forall p p' op l acc a,
  operands p rest p' -> falling l rest -> level op l ->
  parses (ExpressionLoop [acc; a] [op]) p
         (left_fold (binary op acc a) rest) p'.
Proof.
  intros p p' op l acc a Hops. revert op l acc a.
  induction Hops as [p Hend | p op' l' a' p1 rest p' Hp Ht Hl' [fa Ha] _ IH];
    intros op l acc a Hfall Hl.
  - exists 1%nat. rewrite (expression_loop_end _ _ _ _ Hend).
    apply apply_remaining_one.
  - destruct Hfall as (Hle & Hfall).
    destruct (IH op' l' (binary op acc a) a' Hfall Hl') as [fr Hr].
    set (F := Nat.max fa fr).
    apply (parse_rec_more _ F) in Ha; [|lia].
    apply (parse_rec_more _ F) in Hr; [|lia].
    exists (S F). rewrite (expression_loop_step _ _ _ _ _ Hp Ht).
    simpl List.length. unfold bind at 1.
    rewrite (shunting_yard_second op op' l l' acc a _ Hl Hl').
    apply Z.leb_le in Hle. rewrite Hle. simpl fst. simpl snd.
    unfold bind. rewrite Ha. exact Hr.
Qed.

(** X12.  Operators that follow each other with equal or falling
    precedence group to the left: for operands [first], [a1], ..., [an]
    separated by operators [op1], ..., [opn] none of which has a higher
    level than the one before it, [parse_expression] returns
    [((first op1 a1) op2 a2) ... opn an]. *)
Theorem expression_groups_left (p0 p1 p' : parser) (first : astnode)
    (rest : list (lxtoken * Z * astnode)) :
  parses Primary p0 first p1 ->
  operands p1 rest p' ->
  levels_fall rest ->
  parses Expression p0 (left_fold first rest) p'.
Proof.
  intros [ff Hf] Hops Hfall.
  destruct Hops as [p Hend | p op l a p2 rest p' Hp Ht Hl [fa Ha] Hops].
  - exists (S (S ff)). rewrite expression_unfold. unfold bind.
    rewrite (parse_rec_more _ (S ff) _ _ _ _ Hf) by lia.
    rewrite (expression_loop_end _ _ _ _ Hend). reflexivity.
  - destruct (loop_left rest p2 p' op l first a Hops Hfall Hl) as [fr Hr].
    set (F := Nat.max ff (Nat.max fa fr)).
    apply (parse_rec_more _ (S (S F))) in Hf; [|lia].
    apply (parse_rec_more _ (S F)) in Ha; [|lia].
    apply (parse_rec_more _ (S F)) in Hr; [|lia].
    exists (S (S (S F))). rewrite expression_unfold. unfold bind at 1.
    rewrite Hf. rewrite (expression_loop_step _ _ _ _ _ Hp Ht).
    unfold bind at 1. cbn [List.length shunting_yard ret fst snd].
    unfold bind at 1. rewrite Ha. exact Hr.
Qed.

Lemma right_fold_last stack : forall a0 o1 l1 x o2 l2 y,
  right_fold a0 (stack ++ [(o1, l1, x); (o2, l2, y)])
  = right_fold a0 (stack ++ [(o1, l1, binary o2 x y)]).
Proof.
  induction stack as [|item stack IH]; intros a0 o1 l1 x o2 l2 y.
  - reflexivity.
  - simpl. rewrite IH. reflexivity.
Qed.

(** The last loop of [parse_expression] on stacks nothing was taken from. *)
Lemma apply_remaining_right n : forall stack a0 p,
  List.length stack = n ->
  apply_remaining n (a0 :: map chain_operand stack) (map chain_operator stack) p
  = Ok (right_fold a0 stack) p.
Proof.
  induction n as [|n IH]; intros stack a0 p Hn.
  - destruct stack; [reflexivity | discriminate].
  - assert (Hne : stack <> []) by (intros ->; discriminate).
    destruct (exists_last Hne) as (st & [[o2 l2] y] & ->).
    rewrite length_app in Hn. simpl in Hn.
    destruct st as [|item st].
    + simpl in Hn. assert (n = O) by lia. subst n.
      apply apply_remaining_one.
    + assert (Hne' : item :: st <> []) by discriminate.
      destruct (exists_last Hne') as (st' & [[o1 l1] x] & Heq).
      rewrite Heq in *. clear Heq Hne Hne'.
      assert (Hprims : a0 :: map chain_operand
                               ((st' ++ [(o1, l1, x)]) ++ [(o2, l2, y)])
                       = (a0 :: map chain_operand st') ++ [x; y]).
      { rewrite !map_app, <- app_assoc. reflexivity. }
      assert (Hops : map chain_operator
                         ((st' ++ [(o1, l1, x)]) ++ [(o2, l2, y)])
                     = (map chain_operator st' ++ [o1]) ++ [o2]).
      { rewrite !map_app. reflexivity. }
      rewrite Hprims, Hops. cbn [apply_remaining]. unfold bind at 1.
      rewrite reduce_top_push. cbn [fst snd].
      rewrite <- app_assoc. simpl app at 3. rewrite right_fold_last.
      rewrite <- (IH (st' ++ [(o1, l1, binary o2 x y)]) a0 p)
        by (rewrite !length_app in *; simpl in *; lia).
      rewrite !map_app. reflexivity.
Qed.

Lemma shunting_yard_higher n op l top l' primaries operators p :
  level op l -> level top l' -> l' < l ->
  shunting_yard (S n) op primaries (operators ++ [top]) p
  = Ok (primaries, operators ++ [top]) p.
Proof.
  intros Hl Hl' Hlt. simpl. unfold bind at 1, deref.
  rewrite vector_top_push.
  unfold bind at 1. rewrite (Hl p).
  unfold bind at 1. rewrite (Hl' p).
  apply Z.leb_gt in Hlt. rewrite Hlt. reflexivity.
Qed.

Lemma loop_right rest : forall p p' a0 pending op l a,
  operands p rest p' -> rising l rest -> level op l ->
  parses (ExpressionLoop (a0 :: map chain_operand (pending ++ [(op, l, a)]))
                         (map chain_operator (pending ++ [(op, l, a)])))
         p (right_fold a0 ((pending ++ [(op, l, a)]) ++ rest)) p'.
Proof.
  intros p p' a0 pending op l a Hops. revert a0 pending op l a.
  induction Hops as [p Hend | p op' l' a' p1 rest p' Hp Ht Hl' [fa Ha] _ IH];
    intros a0 pending op l a Hrise Hl.
  - exists 1%nat. rewrite (expression_loop_end _ _ _ _ Hend).
    rewrite app_nil_r. rewrite length_map. apply apply_remaining_right.
    reflexivity.
  - destruct Hrise as (Hlt & Hrise).
    destruct (IH a0 (pending ++ [(op, l, a)]) op' l' a' Hrise Hl') as [fr Hr].
    set (F := Nat.max fa fr).
    apply (parse_rec_more _ F) in Ha; [|lia].
    apply (parse_rec_more _ F) in Hr; [|lia].
    exists (S F). rewrite (expression_loop_step _ _ _ _ _ Hp Ht).
    set (prims := a0 :: map chain_operand (pending ++ [(op, l, a)])).
    set (ops := map chain_operator (pending ++ [(op, l, a)])).
    assert (Hsy : shunting_yard (List.length ops) op' prims ops (advance p)
                  = Ok (prims, ops) (advance p)).
    { subst ops. rewrite map_app, length_app. simpl List.length.
      rewrite Nat.add_1_r.
      exact (shunting_yard_higher _ op' l' op l _ _ _ Hl' Hl Hlt). }
    unfold bind at 1. rewrite Hsy. cbn [fst snd].
    unfold bind at 1. rewrite Ha. subst prims ops.
    assert (E1 : vector_push (a0 :: map chain_operand (pending ++ [(op, l, a)])) a'
                 = a0 :: map chain_operand
                           ((pending ++ [(op, l, a)]) ++ [(op', l', a')])).
    { unfold vector_push. rewrite (map_app _ (pending ++ [(op, l, a)])).
      reflexivity. }
    assert (E2 : vector_push (map chain_operator (pending ++ [(op, l, a)])) op'
                 = map chain_operator
                     ((pending ++ [(op, l, a)]) ++ [(op', l', a')])).
    { unfold vector_push. rewrite (map_app _ (pending ++ [(op, l, a)])).
      reflexivity. }
    assert (E3 : (pending ++ [(op, l, a)]) ++ (op', l', a') :: rest
                 = ((pending ++ [(op, l, a)]) ++ [(op', l', a')]) ++ rest).
    { rewrite <- (app_assoc _ [(op', l', a')]). reflexivity. }
    rewrite E1, E2, E3. exact Hr.
Qed.

(** X13.  Operators that follow each other with rising precedence group to
    the right: for operands [first], [a1], ..., [an] separated by operators
    [op1], ..., [opn] each of which has a higher level than the one before
    it, [parse_expression] returns [first op1 (a1 op2 (a2 ... opn an))]. *)
Theorem expression_groups_right (p0 p1 p' : parser) (first : astnode)
    (rest : list (lxtoken * Z * astnode)) :
  parses Primary p0 first p1 ->
  operands p1 rest p' ->
  levels_rise rest ->
  parses Expression p0 (right_fold first rest) p'.
Proof.
  intros [ff Hf] Hops Hrise.
  destruct Hops as [p Hend | p op l a p2 rest p' Hp Ht Hl [fa Ha] Hops].
  - exists (S (S ff)). rewrite expression_unfold. unfold bind.
    rewrite (parse_rec_more _ (S ff) _ _ _ _ Hf) by lia.
    rewrite (expression_loop_end _ _ _ _ Hend). reflexivity.
  - destruct (loop_right rest p2 p' first [] op l a Hops Hrise Hl) as [fr Hr].
    set (F := Nat.max ff (Nat.max fa fr)).
    apply (parse_rec_more _ (S (S F))) in Hf; [|lia].
    apply (parse_rec_more _ (S F)) in Ha; [|lia].
    apply (parse_rec_more _ (S F)) in Hr; [|lia].
    exists (S (S (S F))). rewrite expression_unfold. unfold bind at 1.
    rewrite Hf. rewrite (expression_loop_step _ _ _ _ _ Hp Ht).
    unfold bind at 1. cbn [List.length shunting_yard ret fst snd].
    unfold bind at 1. rewrite Ha. exact Hr.
Qed.

Ltac chain_link tokens k :=
  apply (operands_more (parser_at k tokens) _ _ _ (parser_at (S (S k)) tokens));
  [ reflexivity | reflexivity | intros ?; reflexivity
  | exists 2%nat; reflexivity | ].

(** X12, witness: [8 - 4 + 2 - 1]. *)
Lemma expression_groups_left_witness :
  parses Expression (parser_at 0 falling_tokens)
         (left_fold (integer "8") falling_chain)
         (parser_at 7 falling_tokens).
Proof.
  apply (expression_groups_left (parser_at 0 falling_tokens)
                                (parser_at 1 falling_tokens)
                                (parser_at 7 falling_tokens)
                                (integer "8") falling_chain).
  - exists 2%nat. reflexivity.
  - unfold falling_chain.
    chain_link falling_tokens 1%nat.
    chain_link falling_tokens 3%nat.
    chain_link falling_tokens 5%nat.
    apply operands_end. reflexivity.
  - simpl. lia.
Defined.

(** X13, witness: [1 | 2 + 3 * 4]. *)
Lemma expression_groups_right_witness :
  parses Expression (parser_at 0 rising_tokens)
         (right_fold (integer "1") rising_chain)
         (parser_at 7 rising_tokens).
Proof.
  apply (expression_groups_right (parser_at 0 rising_tokens)
                                 (parser_at 1 rising_tokens)
                                 (parser_at 7 rising_tokens)
                                 (integer "1") rising_chain).
  - exists 2%nat. reflexivity.
  - unfold rising_chain.
    chain_link rising_tokens 1%nat.
    chain_link rising_tokens 3%nat.
    chain_link rising_tokens 5%nat.
    apply operands_end. reflexivity.
  - simpl. lia.
Defined.

(* ----------------------------------------------------------------- *)
(** ** Newlines between statements *)

Lemma strip_loop_skips n : forall p,
  (remaining p <= n)%nat ->
  exists k,
    strip_loop n p = Ok tt (moved_by k p) /\
    (forall i, (i < k)%nat ->
               exists tk, vector_get (tokens p) (position p + i) = Some tk /\
                          tk_type tk = LX_NEWLINE) /\
    negb (is_empty (moved_by k p)) && peek_is LX_NEWLINE (moved_by k p) = false.
Proof.
  induction n as [|n IH]; intros p Hn.
  - exists O. unfold moved_by. rewrite Nat.add_0_r.
    assert (Hp : {| position := position p; p_source := p_source p;
                    tokens := tokens p |} = p) by (destruct p; reflexivity).
    rewrite Hp.
    assert (He : is_empty p = true).
    { unfold is_empty. unfold remaining in Hn.
      assert (H : (List.length (tokens p) <=? position p)%nat = true)
        by (apply Nat.leb_le; lia).
      rewrite H. reflexivity. }
    simpl. unfold bind, consume_optional. rewrite He. simpl.
    split; [reflexivity|]. split; [intros i Hi; lia | reflexivity].
  - destruct (negb (is_empty p) && peek_is LX_NEWLINE p) eqn:E.
    + pose proof E as E'. apply andb_prop in E' as (Hne & Hnl).
      apply negb_true_iff in Hne.
      destruct (not_empty_peek _ Hne) as (tk & Hpeek & Hty).
      assert (Hlt : (position p < List.length (tokens p))%nat).
      { apply nth_error_Some. unfold peek, vector_get in Hpeek.
        rewrite Hpeek. discriminate. }
      destruct (IH (advance p)) as (k & Hk & Hall & Hend).
      { unfold remaining in *. simpl. lia. }
      exists (S k).
      assert (Hm : moved_by (S k) p = moved_by k (advance p)).
      { unfold moved_by, advance. simpl. f_equal. lia. }
      rewrite Hm. split; [|split; [|exact Hend]].
      * simpl strip_loop. unfold bind at 1, consume_optional. rewrite E.
        unfold bind at 1, eat. rewrite Hne. simpl negb. cbv iota.
        unfold ret. fold (advance p). exact Hk.
      * intros [|i] Hi.
        { exists tk. rewrite Nat.add_0_r. split; [exact Hpeek|].
          unfold peek_is in Hnl. rewrite Hpeek in Hnl.
          apply lxtype_eqb_eq. exact Hnl. }
        { destruct (Hall i) as (tk' & Htk & Hty'); [lia|].
          exists tk'. split; [|exact Hty'].
          simpl in Htk. rewrite Nat.add_succ_r. exact Htk. }
    + exists O. unfold moved_by. rewrite Nat.add_0_r.
      assert (Hp : {| position := position p; p_source := p_source p;
                      tokens := tokens p |} = p) by (destruct p; reflexivity).
      rewrite Hp. simpl strip_loop. unfold bind, consume_optional. rewrite E.
      split; [reflexivity|]. split; [intros i Hi; lia | reflexivity].
Qed.

(** X14.  [strip_newlines] always returns; it moves the cursor over the
    [LX_NEWLINE] tokens under it and over nothing else, and leaves it on a
    token that is not an [LX_NEWLINE] or at the end of the input. *)
Theorem strip_newlines_skips (p : parser) :
  exists k,
    strip_newlines p = Ok tt (moved_by k p) /\
    (forall i, (i < k)%nat ->
               exists tk, vector_get (tokens p) (position p + i) = Some tk /\
                          tk_type tk = LX_NEWLINE) /\
    negb (is_empty (moved_by k p)) && peek_is LX_NEWLINE (moved_by k p) = false.
Proof.
  unfold strip_newlines. apply strip_loop_skips. unfold remaining. lia.
Qed.

(* ----------------------------------------------------------------- *)
(** ** Calls *)

Lemma eat_at p :
  is_empty p = false -> eat p = Ok (peek p) (advance p).
Proof. intros H. unfold eat. rewrite H. reflexivity. Qed.

Lemma consume_iff type p r p' :
  consume type p = Ok r p' <->
  at_token type p = true /\ r = peek p /\ p' = advance p.
Proof.
  unfold consume, at_token.
  destruct (negb (is_empty p) && peek_is type p) eqn:E.
  - apply andb_prop in E as (E & _). apply negb_true_iff in E.
    rewrite (eat_at _ E). split.
    + intros H. injection H as <- <-. repeat split.
    + intros (_ & -> & ->). reflexivity.
  - split.
    + intros H. exfalso. exact (parsererror_not_ok _ _ _ _ H).
    + intros (H & _). discriminate.
Qed.

Lemma consume_optional_eq type p :
  consume_optional type p
  = Ok (at_token type p) (if at_token type p then advance p else p).
Proof.
  unfold consume_optional, at_token.
  destruct (negb (is_empty p) && peek_is type p) eqn:E; [|reflexivity].
  apply andb_prop in E as (E & _). apply negb_true_iff in E.
  unfold bind. rewrite (eat_at _ E). reflexivity.
Qed.

Lemma push_children args : forall value type pos children,
  fold_left push_child args (astnode_new value type pos children)
  = astnode_new value type pos (children ++ args).
Proof.
  induction args as [|a args IH]; intros value type pos children; simpl.
  - rewrite app_nil_r. reflexivity.
  - unfold vector_push. rewrite IH, <- app_assoc. reflexivity.
Qed.

Lemma call_arguments_inv fuel : forall fcall p n p',
  parse_rec fuel (CallArguments fcall) p = Ok n p' ->
  exists args, arguments p args p' /\ n = fold_left push_child args fcall.
Proof.
  induction fuel as [|fuel IH]; intros fcall p n p' H; [discriminate|].
  simpl in H. apply bind_ok_inv in H as (a & p1 & Ha & H).
  apply bind_ok_inv in H as (more & p2 & Hmore & H).
  rewrite consume_optional_eq in Hmore. injection Hmore as <- <-.
  destruct (at_token LX_SEPARATOR p1) eqn:E.
  - apply IH in H as (args & Hargs & ->).
    exists (a :: args). split; [|reflexivity].
    exact (arguments_more _ _ _ _ _ (ex_intro _ fuel Ha) E Hargs).
  - injection H as <- <-. exists [a]. split; [|reflexivity].
    exact (arguments_last _ _ _ (ex_intro _ fuel Ha) E).
Qed.

Lemma call_arguments_parsed p args p' :
  arguments p args p' ->
  exists fuel0,
    forall fuel fcall,
      (fuel0 <= fuel)%nat ->
      parse_rec fuel (CallArguments fcall) p
      = Ok (fold_left push_child args fcall) p'.
Proof.
  induction 1 as [p a p1 [fa Ha] Hsep | p a p1 rest p' [fa Ha] Hsep _ (fr & IH)].
  - exists (S fa). intros [|fuel] fcall Hle; [lia|]. simpl.
    rewrite (bind_ok _ _ _ _ _ (parse_rec_more _ fuel _ _ _ _ Ha ltac:(lia))).
    rewrite (bind_ok _ _ _ _ _ (consume_optional_eq _ _)).
    rewrite Hsep. reflexivity.
  - exists (S (Nat.max fa fr)). intros [|fuel] fcall Hle; [lia|]. simpl.
    rewrite (bind_ok _ _ _ _ _ (parse_rec_more _ fuel _ _ _ _ Ha ltac:(lia))).
    rewrite (bind_ok _ _ _ _ _ (consume_optional_eq _ _)).
    rewrite Hsep. apply IH. lia.
Qed.

(** X15.  [parse_function_call] accepts exactly the calls
    [@ callee ( a1 , ... , an )], with or without arguments, and returns for
    them the [AST_CALL] node that carries the value and position of the
    first token of the callee and has as children the node of the callee
    followed by the nodes of the arguments in their order. *)
Theorem parse_function_call_syntax (p : parser) (n : astnode) (p' : parser) :
  parses FunctionCall p n p' <-> call_syntax p n p'.
Proof.
  split.
  - intros [[|fuel] H]; [discriminate|]. simpl in H.
    apply bind_ok_inv in H as (r & q & Hcall & H).
    apply consume_iff in Hcall as (Hat & _ & ->).
    apply bind_ok_inv in H as (name & q & Hname & H).
    apply peek_token_inv in Hname as (-> & Hname).
    apply bind_ok_inv in H as (callee & p1 & Hcallee & H).
    apply bind_ok_inv in H as (r1 & q & Hlp & H).
    apply consume_iff in Hlp as (Hlp & _ & ->).
    apply bind_ok_inv in H as (fcall & p2 & Hargs & H).
    apply bind_ok_inv in H as (r2 & q & Hrp & H).
    apply consume_iff in Hrp as (Hrp & _ & ->).
    injection H as <- <-.
    destruct (negb (is_empty (advance p1))
              && negb (peek_is LX_RIGHT_PAREN (advance p1))) eqn:E.
    + apply call_arguments_inv in Hargs as (args & Hargs & ->).
      exists name, callee, p1, args, p2.
      do 4 (split; [assumption || exact (ex_intro _ fuel Hcallee)|]).
      split; [right; split; [exact E | exact Hargs]|].
      split; [exact Hrp|]. split; [reflexivity|].
      simpl. unfold vector_push. apply (push_children args _ _ _ [callee]).
    + injection Hargs as <- <-.
      exists name, callee, p1, [], (advance p1).
      do 4 (split; [assumption || exact (ex_intro _ fuel Hcallee)|]).
      split; [left; repeat split; exact E|].
      split; [exact Hrp|]. split; reflexivity.
  - intros (name & callee & p1 & args & p2 & Hat & Hname & [fc Hcallee]
            & Hlp & Hargs & Hrp & -> & ->).
    assert (Hloop : exists fuel0, forall fuel, (fuel0 <= fuel)%nat ->
               (if negb (is_empty (advance p1))
                   && negb (peek_is LX_RIGHT_PAREN (advance p1))
                then parse_rec fuel
                       (CallArguments
                          (push_child
                             (astnode_new (tk_value name) AST_CALL
                                          (clone_pos (tk_pos name)) [])
                             callee)) (advance p1)
                else Ok (push_child
                           (astnode_new (tk_value name) AST_CALL
                                        (clone_pos (tk_pos name)) [])
                           callee) (advance p1))
               = Ok (astnode_new (tk_value name) AST_CALL
                                 (clone_pos (tk_pos name)) (callee :: args))
                    p2).
    { destruct Hargs as [(E & -> & ->) | (E & Hargs)]; rewrite E.
      - exists O. intros fuel _. reflexivity.
      - destruct (call_arguments_parsed _ _ _ Hargs) as (fr & Hr).
        exists fr. intros fuel Hle. rewrite (Hr fuel _ Hle).
        simpl. unfold vector_push.
        rewrite (push_children args _ _ _ [callee]). reflexivity. }
    destruct Hloop as (fr & Hloop).
    exists (S (Nat.max fc fr)).
    change (parse_rec (S (Nat.max fc fr)) FunctionCall p)
      with (parse_body (parse_rec (Nat.max fc fr)) FunctionCall p).
    unfold parse_body.
    rewrite (bind_ok _ _ _ _ _ (proj2 (consume_iff _ _ _ _)
                                 (conj Hat (conj eq_refl eq_refl)))).
    unfold bind at 1, peek_token, deref. rewrite Hname.
    rewrite (bind_ok _ _ _ _ _
               (parse_rec_more _ (Nat.max fc fr) _ _ _ _ Hcallee ltac:(lia))).
    rewrite (bind_ok _ _ _ _ _ (proj2 (consume_iff _ _ _ _)
                                 (conj Hlp (conj eq_refl eq_refl)))).
    unfold bind at 1. rewrite (Hloop (Nat.max fc fr) ltac:(lia)).
    rewrite (bind_ok _ _ _ _ _ (proj2 (consume_iff _ _ _ _)
                                 (conj Hrp (conj eq_refl eq_refl)))).
    reflexivity.
Qed.

(* ----------------------------------------------------------------- *)
(** ** Function definitions and loops *)

Lemma consume_token_iff type p tk p' :
  consume_token type p = Ok tk p' <->
  at_token type p = true /\ peek p = Some tk /\ p' = advance p.
Proof.
  unfold consume_token. split.
  - intros H. apply bind_ok_inv in H as (r & q & Hc & H).
    apply consume_iff in Hc as (Hat & -> & ->).
    unfold deref in H. destruct (peek p); [|discriminate].
    injection H as <- <-. repeat split. exact Hat.
  - intros (Hat & Hp & ->).
    rewrite (bind_ok _ _ _ _ _ (proj2 (consume_iff _ _ _ _)
                                 (conj Hat (conj eq_refl eq_refl)))).
    rewrite Hp. reflexivity.
Qed.

Lemma braced_block_braced fuel node p n p' :
  braced_block (parse_rec fuel) node p = Ok n p' ->
  exists block, braced p block p' /\ n = push_child node block.
Proof.
  unfold braced_block. intros H.
  apply bind_ok_inv in H as ([] & p1 & Hs & H).
  apply bind_ok_inv in H as (r1 & q & Hlb & H).
  apply consume_iff in Hlb as (Hlb & _ & ->).
  apply bind_ok_inv in H as (block & p2 & Hb & H).
  apply bind_ok_inv in H as (r2 & q & Hrb & H).
  apply consume_iff in Hrb as (Hrb & _ & ->).
  injection H as <- <-.
  exists block. split; [|reflexivity].
  exists p1, p2. repeat split; try assumption. exists fuel. exact Hb.
Qed.

Lemma braced_parsed p block p' :
  braced p block p' ->
  exists fuel0,
    forall fuel node,
      (fuel0 <= fuel)%nat ->
      braced_block (parse_rec fuel) node p = Ok (push_child node block) p'.
Proof.
  intros (p1 & p2 & Hs & Hlb & [fb Hb] & Hrb & ->).
  exists fb. intros fuel node Hle. unfold braced_block.
  rewrite (bind_ok _ _ _ _ _ Hs).
  rewrite (bind_ok _ _ _ _ _ (proj2 (consume_iff _ _ _ _)
                               (conj Hlb (conj eq_refl eq_refl)))).
  rewrite (bind_ok _ _ _ _ _ (parse_rec_more _ _ _ _ _ _ Hb Hle)).
  rewrite (bind_ok _ _ _ _ _ (proj2 (consume_iff _ _ _ _)
                               (conj Hrb (conj eq_refl eq_refl)))).
  reflexivity.
Qed.

Lemma parameters_inv fuel : forall params p n p',
  parse_rec fuel (Parameters params) p = Ok n p' ->
  exists symbols,
    parameters p symbols p' /\
    n = fold_left push_child (map parameter_node symbols) params.
Proof.
  induction fuel as [|fuel IH]; intros params p n p' H; [discriminate|].
  simpl in H. apply bind_ok_inv in H as (tk & q & Htk & H).
  apply consume_token_iff in Htk as (Hat & Hp & ->).
  apply bind_ok_inv in H as (more & p2 & Hmore & H).
  rewrite consume_optional_eq in Hmore. injection Hmore as <- <-.
  destruct (at_token LX_SEPARATOR (advance p)) eqn:E.
  - apply IH in H as (symbols & Hs & ->).
    exists (tk :: symbols). split; [|reflexivity].
    exact (parameters_more _ _ _ _ Hat Hp E Hs).
  - injection H as <- <-. exists [tk]. split; [|reflexivity].
    exact (parameters_last _ _ Hat Hp E).
Qed.

Lemma parameters_parsed p symbols p' :
  parameters p symbols p' ->
  forall fuel params,
    (List.length symbols <= fuel)%nat ->
    parse_rec fuel (Parameters params) p
    = Ok (fold_left push_child (map parameter_node symbols) params) p'.
Proof.
  induction 1 as [p tk Hat Hp Hsep | p tk rest p' Hat Hp Hsep _ IH];
    intros [|fuel] params Hle; try (simpl in Hle; lia).
  - simpl.
    rewrite (bind_ok _ _ _ _ _ (proj2 (consume_token_iff _ _ _ _)
                                 (conj Hat (conj Hp eq_refl)))).
    rewrite (bind_ok _ _ _ _ _ (consume_optional_eq _ _)).
    rewrite Hsep. reflexivity.
  - simpl.
    rewrite (bind_ok _ _ _ _ _ (proj2 (consume_token_iff _ _ _ _)
                                 (conj Hat (conj Hp eq_refl)))).
    rewrite (bind_ok _ _ _ _ _ (consume_optional_eq _ _)).
    rewrite Hsep. apply IH. simpl in Hle. lia.
Qed.

(** X16.  [parse_function_definition] accepts exactly the definitions
    [$ ( s1 , ... , sn ) { block }], with or without parameters and with
    newlines allowed before the brace, and returns for them the
    [AST_FUNCTION] node [code] whose two children are the [AST_PARAMS] node
    [args], holding one [AST_PARAM] node for each symbol in its order, and
    the block of the body. *)
Theorem parse_function_definition_syntax (p : parser) (n : astnode)
    (p' : parser) :
  parses FunctionDefinition p n p' <-> definition_syntax p n p'.
Proof.
  split.
  - intros [[|fuel] H]; [discriminate|]. simpl in H.
    apply bind_ok_inv in H as (fn & q & Hfn & H).
    apply consume_token_iff in Hfn as (Hat & Hfn & ->).
    apply bind_ok_inv in H as (lp & q & Hlp & H).
    apply consume_token_iff in Hlp as (Hlpat & Hlp & ->).
    apply bind_ok_inv in H as (tk & q & Htk & H).
    apply peek_token_inv in Htk as (-> & Htk).
    apply bind_ok_inv in H as (params & p2 & Hparams & H).
    apply bind_ok_inv in H as (r & q & Hrp & H).
    apply consume_iff in Hrp as (Hrp & _ & ->).
    apply braced_block_braced in H as (block & Hbody & ->).
    destruct (lxtype_eqb (tk_type tk) LX_RIGHT_PAREN) eqn:E.
    + injection Hparams as <- <-. apply lxtype_eqb_eq in E.
      exists fn, lp, tk, [], (advance (advance p)), block.
      do 5 (split; [assumption|]).
      split; [left; repeat split; exact E|].
      split; [exact Hrp|]. split; [exact Hbody | reflexivity].
    + simpl in Hparams.
      apply parameters_inv in Hparams as (symbols & Hs & ->).
      exists fn, lp, tk, symbols, p2, block.
      do 5 (split; [assumption|]).
      split.
      { right. split; [|exact Hs]. intros Heq. rewrite Heq in E. discriminate. }
      split; [exact Hrp|]. split; [exact Hbody|].
      rewrite (push_children _ _ _ _ []). reflexivity.
  - intros (fn & lp & tk & params & p2 & block & Hat & Hfn & Hlpat & Hlp & Htk
            & Hparams & Hrp & Hbody & ->).
    destruct (braced_parsed _ _ _ Hbody) as (fb & Hb).
    exists (S (Nat.max fb (List.length params))).
    set (fuel := Nat.max fb (List.length params)).
    change (parse_rec (S fuel) FunctionDefinition p)
      with (parse_body (parse_rec fuel) FunctionDefinition p).
    unfold parse_body.
    rewrite (bind_ok _ _ _ _ _ (proj2 (consume_token_iff _ _ _ _)
                                 (conj Hat (conj Hfn eq_refl)))).
    rewrite (bind_ok _ _ _ _ _ (proj2 (consume_token_iff _ _ _ _)
                                 (conj Hlpat (conj Hlp eq_refl)))).
    unfold bind at 1, peek_token, deref. rewrite Htk.
    destruct Hparams as [(E & -> & ->) | (E & Hs)].
    + rewrite (proj2 (lxtype_eqb_eq _ _) E). simpl negb. cbv iota.
      unfold bind at 1, ret at 1.
      rewrite (bind_ok _ _ _ _ _ (proj2 (consume_iff _ _ _ _)
                                   (conj Hrp (conj eq_refl eq_refl)))).
      rewrite (Hb fuel _ ltac:(lia)). reflexivity.
    + assert (E' : lxtype_eqb (tk_type tk) LX_RIGHT_PAREN = false).
      { destruct (lxtype_eqb (tk_type tk) LX_RIGHT_PAREN) eqn:E'; [|reflexivity].
        apply lxtype_eqb_eq in E'. contradiction. }
      rewrite E'. simpl negb. cbv iota.
      rewrite (bind_ok _ _ _ _ _
                 (parameters_parsed _ _ _ Hs fuel _ ltac:(lia))).
      rewrite (bind_ok _ _ _ _ _ (proj2 (consume_iff _ _ _ _)
                                   (conj Hrp (conj eq_refl eq_refl)))).
      rewrite (Hb fuel _ ltac:(lia)).
      rewrite (push_children _ _ _ _ []). reflexivity.
Qed.

(** X17.  [parse_loop] accepts exactly [loop condition { block }], with
    newlines allowed before the brace, and returns the [AST_LOOP] node
    [loop] whose children are the condition and the block. *)
Theorem parse_loop_syntax (p : parser) (n : astnode) (p' : parser) :
  parses Loop p n p' <-> loop_syntax p n p'.
Proof.
  split.
  - intros [[|fuel] H]; [discriminate|]. simpl in H.
    apply bind_ok_inv in H as (kw & q & Hkw & H).
    apply consume_token_iff in Hkw as (Hat & Hkw & ->).
    apply bind_ok_inv in H as (condition & p1 & Hc & H).
    apply braced_block_braced in H as (block & Hbody & ->).
    exists kw, condition, p1, block.
    repeat split; try assumption. exists fuel. exact Hc.
  - intros (kw & condition & p1 & block & Hat & Hkw & [fc Hc] & Hbody & ->).
    destruct (braced_parsed _ _ _ Hbody) as (fb & Hb).
    exists (S (Nat.max fc fb)).
    change (parse_rec (S (Nat.max fc fb)) Loop p)
      with (parse_body (parse_rec (Nat.max fc fb)) Loop p).
    unfold parse_body.
    rewrite (bind_ok _ _ _ _ _ (proj2 (consume_token_iff _ _ _ _)
                                 (conj Hat (conj Hkw eq_refl)))).
    rewrite (bind_ok _ _ _ _ _
               (parse_rec_more _ (Nat.max fc fb) _ _ _ _ Hc ltac:(lia))).
    rewrite (Hb (Nat.max fc fb) _ ltac:(lia)). reflexivity.
Qed.

(* ----------------------------------------------------------------- *)
(** ** Blocks *)

Lemma block_loop_inv fuel : forall terminal block p n p',
  parse_rec fuel (BlockLoop terminal block) p = Ok n p' ->
  exists sts,
    statements terminal p sts p' /\ n = fold_left push_child sts block.
Proof.
  induction fuel as [|fuel IH]; intros terminal block p n p' H; [discriminate|].
  simpl in H.
  destruct (negb (is_empty p) && negb (peek_is terminal p)) eqn:E.
  - apply bind_ok_inv in H as (st & p1 & Hst & H).
    apply bind_ok_inv in H as ([] & p2 & Hs & H).
    apply IH in H as (sts & Hsts & ->).
    exists (st :: sts). split; [|reflexivity].
    exact (statements_more _ _ _ _ _ _ _ E (ex_intro _ fuel Hst) Hs Hsts).
  - injection H as <- <-. exists []. split; [|reflexivity].
    exact (statements_end _ _ E).
Qed.

Lemma block_loop_parsed terminal p sts p' :
  statements terminal p sts p' ->
  exists fuel0,
    forall fuel block,
      (fuel0 <= fuel)%nat ->
      parse_rec fuel (BlockLoop terminal block) p
      = Ok (fold_left push_child sts block) p'.
Proof.
  induction 1 as [p E | p st p1 p2 rest p' E [fs Hst] Hs _ (fr & IH)].
  - exists 1%nat. intros [|fuel] block Hle; [lia|]. simpl. rewrite E.
    reflexivity.
  - exists (S (Nat.max fs fr)). intros [|fuel] block Hle; [lia|]. simpl.
    rewrite E.
    rewrite (bind_ok _ _ _ _ _ (parse_rec_more _ fuel _ _ _ _ Hst ltac:(lia))).
    rewrite (bind_ok _ _ _ _ _ Hs). apply IH. lia.
Qed.

(** X18.  [parse_block] accepts exactly a run of statements, each followed
    by any number of newlines, up to the terminal token or the end of the
    input, and returns the block node that carries the position of the
    token it started on and has the nodes of the statements as children,
    in their order. *)
Theorem parse_block_syntax (terminal : lxtype) (p : parser) (n : astnode)
    (p' : parser) :
  parses (Block terminal) p n p' <-> block_syntax terminal p n p'.
Proof.
  split.
  - intros [[|fuel] H]; [discriminate|]. simpl in H.
    apply bind_ok_inv in H as (tk & q & Htk & H).
    apply peek_token_inv in Htk as (-> & Htk).
    apply bind_ok_inv in H as ([] & p1 & Hs & H).
    apply block_loop_inv in H as (sts & Hsts & ->).
    exists tk, p1, sts. repeat split; try assumption.
    apply (push_children sts _ _ _ []).
  - intros (tk & p1 & sts & Htk & Hs & Hsts & ->).
    destruct (block_loop_parsed _ _ _ _ Hsts) as (fr & Hr).
    exists (S fr). simpl.
    unfold bind at 1, peek_token, deref. rewrite Htk.
    rewrite (bind_ok _ _ _ _ _ Hs). rewrite (Hr fr _ (le_n _)).
    rewrite (push_children sts _ _ _ []). reflexivity.
Qed.

(* ----------------------------------------------------------------- *)
(** ** Table access *)

Lemma table_key_inv fuel node p n p' :
  table_key (parse_rec fuel) node p = Ok n p' ->
  exists key, key_syntax p key p' /\ n = fold_left push_child key node.
Proof.
  unfold table_key. intros H.
  apply bind_ok_inv in H as (square & q & Hsq & H).
  rewrite consume_optional_eq in Hsq. injection Hsq as <- <-.
  destruct (at_token LX_LEFT_SQUARE p) eqn:E1.
  - apply bind_ok_inv in H as (e & p1 & He & H).
    apply bind_ok_inv in H as (r & q & Hrs & H).
    apply consume_iff in Hrs as (Hrs & _ & ->). injection H as <- <-.
    exists [e]. split; [|reflexivity].
    left. exists e, p1. repeat split; try assumption. exists fuel. exact He.
  - apply bind_ok_inv in H as (dot & q & Hdot & H).
    rewrite consume_optional_eq in Hdot. injection Hdot as <- <-.
    destruct (at_token LX_DOT p) eqn:E2.
    + apply bind_ok_inv in H as (tk & q & Htk & H).
      apply consume_token_iff in Htk as (Hat & Htk & ->).
      injection H as <- <-.
      exists [astnode_new (tk_value tk) AST_STRING (clone_pos (tk_pos tk)) []].
      split; [|reflexivity].
      right; left. exists tk. repeat split; assumption.
    + injection H as <- <-. exists []. split; [|reflexivity].
      right; right. repeat split; assumption.
Qed.

Lemma table_key_parsed p key p' :
  key_syntax p key p' ->
  exists fuel0,
    forall fuel node,
      (fuel0 <= fuel)%nat ->
      table_key (parse_rec fuel) node p = Ok (fold_left push_child key node) p'.
Proof.
  intros [(e & p1 & E1 & [fe He] & Hrs & -> & ->)
         | [(tk & E1 & E2 & Hat & Htk & -> & ->) | (E1 & E2 & -> & ->)]].
  - exists fe. intros fuel node Hle. unfold table_key.
    rewrite (bind_ok _ _ _ _ _ (consume_optional_eq _ _)). rewrite E1.
    rewrite (bind_ok _ _ _ _ _ (parse_rec_more _ fuel _ _ _ _ He Hle)).
    rewrite (bind_ok _ _ _ _ _ (proj2 (consume_iff _ _ _ _)
                                 (conj Hrs (conj eq_refl eq_refl)))).
    reflexivity.
  - exists O. intros fuel node _. unfold table_key.
    rewrite (bind_ok _ _ _ _ _ (consume_optional_eq _ _)). rewrite E1.
    rewrite (bind_ok _ _ _ _ _ (consume_optional_eq _ _)). rewrite E2.
    rewrite (bind_ok _ _ _ _ _ (proj2 (consume_token_iff _ _ _ _)
                                 (conj Hat (conj Htk eq_refl)))).
    reflexivity.
  - exists O. intros fuel node _. unfold table_key.
    rewrite (bind_ok _ _ _ _ _ (consume_optional_eq _ _)). rewrite E1.
    rewrite (bind_ok _ _ _ _ _ (consume_optional_eq _ _)). rewrite E2.
    reflexivity.
Qed.

(** X19.  [parse_table_get] accepts exactly a symbol followed by an index in
    square brackets, by a dot and a symbol, or by neither, and
    [parse_table_put] the same followed by [<-] and an expression.  The
    node carries the name and position of the symbol; its children are the
    key, if any, and for a put the assigned expression.  The key of
    [name . field] is an [AST_STRING] node with the value of [field], as
    for [name [ string ]]. *)
Theorem parse_table_access_syntax (p : parser) (n : astnode) (p' : parser) :
  (parses TableGet p n p' <-> get_syntax p n p') /\
  (parses TablePut p n p' <-> put_syntax p n p').
Proof.
  split; split.
  - intros [[|fuel] H]; [discriminate|]. simpl in H.
    apply bind_ok_inv in H as (var & q & Hvar & H).
    apply consume_token_iff in Hvar as (Hat & Hvar & ->).
    apply table_key_inv in H as (key & Hkey & ->).
    exists var, key. repeat split; try assumption.
    apply (push_children key _ _ _ []).
  - intros (var & key & Hat & Hvar & Hkey & ->).
    destruct (table_key_parsed _ _ _ Hkey) as (fk & Hk).
    exists (S fk).
    change (parse_rec (S fk) TableGet p)
      with (parse_body (parse_rec fk) TableGet p).
    unfold parse_body.
    rewrite (bind_ok _ _ _ _ _ (proj2 (consume_token_iff _ _ _ _)
                                 (conj Hat (conj Hvar eq_refl)))).
    rewrite (Hk fk _ (le_n _)). rewrite (push_children key _ _ _ []).
    reflexivity.
  - intros [[|fuel] H]; [discriminate|]. simpl in H.
    apply bind_ok_inv in H as (var & q & Hvar & H).
    apply consume_token_iff in Hvar as (Hat & Hvar & ->).
    apply bind_ok_inv in H as (put & p1 & Hput & H).
    apply table_key_inv in Hput as (key & Hkey & ->).
    apply bind_ok_inv in H as (r & q & Has & H).
    apply consume_iff in Has as (Has & _ & ->).
    apply bind_ok_inv in H as (e & p2 & He & H). injection H as <- <-.
    exists var, key, p1, e. repeat split; try assumption.
    + exists fuel. exact He.
    + rewrite (push_children key _ _ _ []). reflexivity.
  - intros (var & key & p1 & e & Hat & Hvar & Hkey & Has & [fe He] & ->).
    destruct (table_key_parsed _ _ _ Hkey) as (fk & Hk).
    exists (S (Nat.max fk fe)).
    set (fuel := Nat.max fk fe).
    change (parse_rec (S fuel) TablePut p)
      with (parse_body (parse_rec fuel) TablePut p).
    unfold parse_body.
    rewrite (bind_ok _ _ _ _ _ (proj2 (consume_token_iff _ _ _ _)
                                 (conj Hat (conj Hvar eq_refl)))).
    rewrite (bind_ok _ _ _ _ _ (Hk fuel _ ltac:(lia))).
    rewrite (bind_ok _ _ _ _ _ (proj2 (consume_iff _ _ _ _)
                                 (conj Has (conj eq_refl eq_refl)))).
    rewrite (bind_ok _ _ _ _ _ (parse_rec_more _ fuel _ _ _ _ He ltac:(lia))).
    rewrite (push_children key _ _ _ []). reflexivity.
Qed.

(* ----------------------------------------------------------------- *)
(** ** Table literals *)

Lemma table_entries_inv fuel : forall table p n p',
  parse_rec fuel (TableEntries table) p = Ok n p' ->
  exists elements,
    entries p elements p' /\ n = fold_left push_child elements table.
Proof.
  induction fuel as [|fuel IH]; intros table p n p' H; [discriminate|].
  simpl in H.
  apply bind_ok_inv in H as ([] & p1 & Hs1 & H).
  apply bind_ok_inv in H as (tk & q & Htk & H).
  apply peek_token_inv in Htk as (-> & Htk).
  apply bind_ok_inv in H as (key & p2 & Hkey & H).
  apply bind_ok_inv in H as (r & q & Hcolon & H).
  apply consume_iff in Hcolon as (Hcolon & _ & ->).
  apply bind_ok_inv in H as (val & p3 & Hval & H).
  apply bind_ok_inv in H as ([] & p4 & Hs2 & H).
  apply bind_ok_inv in H as (more & q & Hmore & H).
  rewrite consume_optional_eq in Hmore. injection Hmore as <- <-.
  assert (Hentry : entry_syntax p
            (astnode_new "pair" AST_KV_PAIR (clone_pos (tk_pos tk)) [key; val])
            p4).
  { exists p1, tk, key, p2, val, p3.
    repeat split; try assumption; exists fuel; assumption. }
  destruct (at_token LX_SEPARATOR p4) eqn:E.
  - apply IH in H as (elements & Hrest & ->).
    eexists (_ :: elements). split; [|reflexivity].
    exact (entries_more _ _ _ _ _ Hentry E Hrest).
  - injection H as <- <-. eexists [_]. split; [|reflexivity].
    exact (entries_last _ _ _ Hentry E).
Qed.

Lemma entry_parsed p element p' :
  entry_syntax p element p' ->
  exists fuel0,
    forall fuel table,
      (fuel0 <= fuel)%nat ->
      parse_rec (S fuel) (TableEntries table) p
      = (more <- consume_optional LX_SEPARATOR ;;
         if more
         then parse_rec fuel (TableEntries (push_child table element))
         else ret (push_child table element)) p'.
Proof.
  intros (p1 & tk & key & p2 & val & p3 & Hs1 & Htk & [fk Hkey] & Hcolon
          & [fv Hval] & Hs2 & ->).
  exists (Nat.max fk fv). intros fuel table Hle.
  change (parse_rec (S fuel) (TableEntries table) p)
    with (parse_body (parse_rec fuel) (TableEntries table) p).
  unfold parse_body.
  rewrite (bind_ok _ _ _ _ _ Hs1).
  unfold bind at 1, peek_token, deref. rewrite Htk.
  rewrite (bind_ok _ _ _ _ _ (parse_rec_more _ fuel _ _ _ _ Hkey ltac:(lia))).
  rewrite (bind_ok _ _ _ _ _ (proj2 (consume_iff _ _ _ _)
                               (conj Hcolon (conj eq_refl eq_refl)))).
  rewrite (bind_ok _ _ _ _ _ (parse_rec_more _ fuel _ _ _ _ Hval ltac:(lia))).
  rewrite (bind_ok _ _ _ _ _ Hs2). reflexivity.
Qed.

Lemma table_entries_parsed p elements p' :
  entries p elements p' ->
  exists fuel0,
    forall fuel table,
      (fuel0 <= fuel)%nat ->
      parse_rec fuel (TableEntries table) p
      = Ok (fold_left push_child elements table) p'.
Proof.
  induction 1 as [p element p1 Hentry E
                 | p element p1 rest p' Hentry E _ (fr & IH)];
    destruct (entry_parsed _ _ _ Hentry) as (fe & He).
  - exists (S fe). intros [|fuel] table Hle; [lia|].
    rewrite (He fuel table ltac:(lia)).
    rewrite (bind_ok _ _ _ _ _ (consume_optional_eq _ _)). rewrite E.
    reflexivity.
  - exists (S (Nat.max fe fr)). intros [|fuel] table Hle; [lia|].
    rewrite (He fuel table ltac:(lia)).
    rewrite (bind_ok _ _ _ _ _ (consume_optional_eq _ _)). rewrite E.
    apply IH. lia.
Qed.

(** X20.  [parse_table_instance] accepts exactly the table literals
    [{ k1 : v1 , ... , kn : vn }], empty or not, with newlines allowed
    around every entry, and returns the [AST_TABLE] node [table] whose
    children are one [AST_KV_PAIR] node for each entry, in their order,
    each holding the nodes of its key and of its value. *)
Theorem parse_table_instance_syntax (p : parser) (n : astnode) (p' : parser) :
  parses TableInstance p n p' <-> table_syntax p n p'.
Proof.
  split.
  - intros [[|fuel] H]; [discriminate|]. simpl in H.
    apply bind_ok_inv in H as (lb & q & Hlb & H).
    apply consume_token_iff in Hlb as (Hat & Hlb & ->).
    apply bind_ok_inv in H as ([] & p1 & Hs & H).
    apply bind_ok_inv in H as (tk & q & Htk & H).
    apply peek_token_inv in Htk as (-> & Htk).
    apply bind_ok_inv in H as (table & p2 & Htable & H).
    apply bind_ok_inv in H as (r & q & Hrb & H).
    apply consume_iff in Hrb as (Hrb & _ & ->). injection H as <- <-.
    destruct (lxtype_eqb (tk_type tk) LX_RIGHT_BRACE) eqn:E.
    + injection Htable as <- <-. apply lxtype_eqb_eq in E.
      exists lb, p1, tk, [], p1.
      do 4 (split; [assumption|]).
      split; [left; repeat split; exact E|].
      split; [exact Hrb|]. split; reflexivity.
    + simpl in Htable.
      apply table_entries_inv in Htable as (elements & He & ->).
      exists lb, p1, tk, elements, p2.
      do 4 (split; [assumption|]).
      split.
      { right. split; [|exact He]. intros Heq. rewrite Heq in E. discriminate. }
      split; [exact Hrb|]. split; [reflexivity|].
      apply (push_children elements _ _ _ []).
  - intros (lb & p1 & tk & elements & p2 & Hat & Hlb & Hs & Htk & Hel & Hrb
            & -> & ->).
    assert (Hloop : exists fuel,
               (if negb (lxtype_eqb (tk_type tk) LX_RIGHT_BRACE)
                then parse_rec fuel
                       (TableEntries
                          (astnode_new "table" AST_TABLE
                                       (clone_pos (tk_pos lb)) []))
                else ret (astnode_new "table" AST_TABLE
                                      (clone_pos (tk_pos lb)) [])) p1
               = Ok (astnode_new "table" AST_TABLE (clone_pos (tk_pos lb))
                                 elements) p2).
    { destruct Hel as [(E & -> & ->) | (E & Hel)].
      - exists O. rewrite (proj2 (lxtype_eqb_eq _ _) E). reflexivity.
      - destruct (table_entries_parsed _ _ _ Hel) as (fr & Hr).
        exists fr.
        assert (E' : lxtype_eqb (tk_type tk) LX_RIGHT_BRACE = false).
        { destruct (lxtype_eqb (tk_type tk) LX_RIGHT_BRACE) eqn:E';
            [|reflexivity].
          apply lxtype_eqb_eq in E'. contradiction. }
        rewrite E'. change (negb false) with true. cbv iota.
        rewrite (Hr fr _ (le_n _)).
        rewrite (push_children elements _ _ _ []). reflexivity. }
    destruct Hloop as (fuel & Hloop).
    exists (S fuel).
    change (parse_rec (S fuel) TableInstance p)
      with (parse_body (parse_rec fuel) TableInstance p).
    unfold parse_body.
    rewrite (bind_ok _ _ _ _ _ (proj2 (consume_token_iff _ _ _ _)
                                 (conj Hat (conj Hlb eq_refl)))).
    rewrite (bind_ok _ _ _ _ _ Hs).
    unfold bind at 1, peek_token, deref. rewrite Htk.
    unfold bind at 1. rewrite Hloop.
    rewrite (bind_ok _ _ _ _ _ (proj2 (consume_iff _ _ _ _)
                                 (conj Hrb (conj eq_refl eq_refl)))).
    reflexivity.
Qed.

(* ================================================================= *)
(** * [strhash] *)

Lemma hash_step_mod size_bits char_signed h c :
  hash_step size_bits char_signed (h mod 2 ^ Z.of_nat size_bits) c
  = (h * 33 + char_to_int char_signed c) mod 2 ^ Z.of_nat size_bits.
Proof.
  unfold hash_step, to_size.
  set (m := 2 ^ Z.of_nat size_bits).
  set (x := char_to_int char_signed c).
  assert (Hm : 0 < m) by (apply Z.pow_pos_nonneg; lia).
  rewrite Z.shiftl_mul_pow2 by lia.
  rewrite <- Z.add_mod by lia.
  rewrite <- Z.add_assoc.
  rewrite Z.add_mod_idemp_l by lia.
  replace (h mod m * 2 ^ 5 + (h mod m + x)) with (h mod m * 33 + x)
    by (change (2 ^ 5) with 32; lia).
  rewrite <- Z.add_mod_idemp_l by lia.
  rewrite Z.mul_mod_idemp_l by lia.
  rewrite Z.add_mod_idemp_l by lia.
  reflexivity.
Qed.

Lemma strhash_loop_fold size_bits char_signed text : forall tail h,
  string_forall not_nul text = true ->
  strhash_loop size_bits char_signed (text ++ String NUL tail)
               (h mod 2 ^ Z.of_nat size_bits) tt
  = Ok (fold_left (fun hash c => hash * 33 + char_to_int char_signed c)
                  (list_ascii_of_string text) h
        mod 2 ^ Z.of_nat size_bits) tt.
Proof.
  induction text as [|c text IH]; intros tail h Hnul.
  - reflexivity.
  - simpl in Hnul. apply andb_prop in Hnul as (Hc & Hnul).
    unfold not_nul in Hc. apply negb_true_iff in Hc.
    simpl. rewrite Hc, hash_step_mod. apply IH. exact Hnul.
Qed.

(** X21.  [strhash] is the hash of Bernstein: on a C string it returns
    [hash * 33 + c] taken over the characters before the terminator,
    starting from 5381, reduced to the width of [size_t]; the bytes after
    the terminator do not matter. *)
Theorem strhash_djb2 (size_bits : nat) (char_signed : bool)
    (text tail : string) :
  string_forall not_nul text = true ->
  strhash size_bits char_signed (text ++ String NUL tail)
  = Ok (djb2 char_signed text mod 2 ^ Z.of_nat size_bits) tt /\
  0 <= djb2 char_signed text mod 2 ^ Z.of_nat size_bits
    < 2 ^ Z.of_nat size_bits.
Proof.
  intros Hnul. split.
  - unfold strhash, djb2, to_size. apply strhash_loop_fold. exact Hnul.
  - apply Z.mod_pos_bound. apply Z.pow_pos_nonneg; lia.
Qed.

(** X21, witness: the hash of [ab] with 64 bits. *)
Lemma strhash_djb2_witness :
  strhash 64 true ("ab" ++ String NUL "rest") = Ok (djb2 true "ab" mod 2 ^ Z.of_nat 64) tt /\
  0 <= djb2 true "ab" mod 2 ^ Z.of_nat 64 < 2 ^ Z.of_nat 64.
Proof.
  apply (strhash_djb2 64 true "ab" "rest"). reflexivity.
Defined.

(* ================================================================= *)
(** * Instances of the syntax *)

(** X15, witness: [@f(1, x)] is a call. *)
Lemma parse_function_call_syntax_witness :
  call_syntax (parser_on call_tokens) call_tree (parser_at 7 call_tokens).
Proof.
  apply (proj1 (parse_function_call_syntax
                  (parser_on call_tokens) call_tree (parser_at 7 call_tokens))).
  exists 20%nat. vm_compute. reflexivity.
Defined.

(** X16, witness: [$(a, b) { }] is a function definition. *)
Lemma parse_function_definition_syntax_witness :
  definition_syntax (parser_on definition_tokens) definition_tree
                    (parser_at 8 definition_tokens).
Proof.
  apply (proj1 (parse_function_definition_syntax
                  (parser_on definition_tokens) definition_tree
                  (parser_at 8 definition_tokens))).
  exists 20%nat. vm_compute. reflexivity.
Defined.

(** X17, witness: [loop x { }] is a loop. *)
Lemma parse_loop_syntax_witness :
  loop_syntax (parser_on loop_tokens) loop_tree (parser_at 4 loop_tokens).
Proof.
  apply (proj1 (parse_loop_syntax
                  (parser_on loop_tokens) loop_tree (parser_at 4 loop_tokens))).
  exists 20%nat. vm_compute. reflexivity.
Defined.

(** X18, witness: the two assignments are a block. *)
Lemma parse_block_syntax_witness :
  block_syntax LX_EOF two_lines_parser two_lines_tree two_lines_parser'.
Proof.
  apply (proj1 (parse_block_syntax LX_EOF two_lines_parser two_lines_tree
                                   two_lines_parser')).
  exists 80%nat. vm_compute. reflexivity.
Defined.

(** X19, witness: [t.k] is a table access. *)
Lemma parse_table_access_syntax_witness :
  get_syntax (parser_on field_tokens) field_tree (parser_at 3 field_tokens).
Proof.
  apply (proj1 (proj1 (parse_table_access_syntax
                         (parser_on field_tokens) field_tree
                         (parser_at 3 field_tokens)))).
  exists 20%nat. vm_compute. reflexivity.
Defined.

(** X20, witness: [{ 1 : 2 }] is a table. *)
Lemma parse_table_instance_syntax_witness :
  table_syntax (parser_on table_tokens) table_tree (parser_at 5 table_tokens).
Proof.
  apply (proj1 (parse_table_instance_syntax
                  (parser_on table_tokens) table_tree
                  (parser_at 5 table_tokens))).
  exists 20%nat. vm_compute. reflexivity.
Defined.

(* ================================================================= *)
(** * Precedence in expressions of any length *)

Lemma stack_joined s op l t top :
  stack_first s (Joined op l t top) = stack_first s t /\
  stack_chain s (Joined op l t top)
  = stack_chain s t ++ (op, l, first_operand top) :: chain_of top.
Proof.
  destruct s as [|[[t' op'] l'] s]; simpl; [split; reflexivity|].
  split; [reflexivity|]. rewrite <- app_assoc. reflexivity.
Qed.

Lemma close_reading s : forall top,
  first_operand (close s top) = stack_first s top /\
  chain_of (close s top) = stack_chain s top.
Proof.
  induction s as [|[[t op] l] s IH]; intros top; simpl; [split; reflexivity|].
  destruct (IH (Joined op l t top)) as (Hf & Hc).
  destruct (stack_joined s op l t top) as (Hf' & Hc').
  rewrite Hf, Hc, Hf', Hc'. split; reflexivity.
Qed.

Lemma stacked_grouped s top : stacked s top -> grouped top.
Proof. destruct s as [|[[t op] l] s]; simpl; tauto. Qed.

Lemma above_at_least l t : above l t -> at_least l t.
Proof.
  unfold above, at_least. apply Forall_impl. intros item H. lia.
Qed.

Lemma above_lower l l' t : l' < l -> above l t -> above l' t.
Proof.
  unfold above. intros Hl. apply Forall_impl. intros item H. lia.
Qed.

Lemma at_least_lower l l' t : l' <= l -> at_least l t -> at_least l' t.
Proof.
  unfold at_least. intros Hl. apply Forall_impl. intros item H. lia.
Qed.

Lemma at_least_above l l' t : l' < l -> at_least l t -> above l' t.
Proof.
  unfold at_least, above. intros Hl. apply Forall_impl. intros item H. lia.
Qed.

(** Joining the two top operands keeps the stacks in order. *)
Lemma stacked_join t op lo s top :
  stacked ((t, op, lo) :: s) top -> stacked s (Joined op lo t top).
Proof.
  simpl. intros (Hl & Hg & Ha & Hal & Hs & Hst).
  assert (Hgt : grouped t) by exact (stacked_grouped _ _ Hst).
  destruct s as [|[[t' op'] l'] s].
  - simpl. repeat split; assumption.
  - simpl in Hst. destruct Hst as (Hl' & _ & Ha' & Hal' & Hs' & Hst').
    simpl. repeat split; try assumption.
    unfold above in *. simpl. apply Forall_app. split; [exact Ha'|].
    constructor; [unfold chain_level; simpl; lia|].
    exact (above_lower _ _ _ Hs Ha).
Qed.

Lemma close_grouped s : forall top, stacked s top -> grouped (close s top).
Proof.
  induction s as [|[[t op] l] s IH]; intros top H; simpl; [exact H|].
  apply IH. apply stacked_join. exact H.
Qed.

(** The stacks after the inner loop has run for an operator of level [l]. *)
Lemma pop_while_stacked l s : forall top,
  stacked s top -> at_least l top ->
  stacked (fst (pop_while l s top)) (snd (pop_while l s top)) /\
  at_least l (snd (pop_while l s top)) /\
  match fst (pop_while l s top) with
  | [] => True
  | (_, _, l') :: _ => l' < l
  end /\
  stack_first (fst (pop_while l s top)) (snd (pop_while l s top))
  = stack_first s top /\
  stack_chain (fst (pop_while l s top)) (snd (pop_while l s top))
  = stack_chain s top.
Proof.
  induction s as [|[[t op] lo] s IH]; intros top Hst Htop.
  - simpl. repeat split; assumption.
  - cbn [pop_while]. destruct (l <=? lo) eqn:E.
    + apply Z.leb_le in E.
      assert (Hj : stacked s (Joined op lo t top)) by exact (stacked_join _ _ _ _ _ Hst).
      assert (Hal : at_least l (Joined op lo t top)).
      { simpl in Hst. destruct Hst as (_ & _ & _ & Hal & _).
        unfold at_least in *. simpl. apply Forall_app. split.
        - exact (at_least_lower _ _ _ E Hal).
        - constructor; [unfold chain_level; simpl; lia | exact Htop]. }
      destruct (IH _ Hj Hal) as (H1 & H2 & H3 & H4 & H5).
      destruct (stack_joined s op lo t top) as (Hf & Hc).
      rewrite H4, H5, Hf, Hc. repeat split; assumption.
    + apply Z.leb_gt in E. cbn [fst snd].
      split; [exact Hst|]. split; [exact Htop|]. split; [exact E|].
      split; reflexivity.
Qed.

Lemma stack_operands_cons t op lo s top :
  stack_operands ((t, op, lo) :: s) top
  = map (fun e => grouping_node (fst (fst e))) (rev s)
    ++ [grouping_node t; grouping_node top].
Proof.
  unfold stack_operands. simpl. rewrite map_app, <- app_assoc. reflexivity.
Qed.

Lemma stack_operators_cons (t : grouping) op (lo : Z) s :
  stack_operators ((t, op, lo) :: s) = stack_operators s ++ [op].
Proof. unfold stack_operators. simpl. rewrite map_app. reflexivity. Qed.

Lemma reduce_top_stack t op lo s top p :
  reduce_top (stack_operands ((t, op, lo) :: s) top)
             (stack_operators ((t, op, lo) :: s)) p
  = Ok (stack_operands s (Joined op lo t top), stack_operators s) p.
Proof.
  rewrite stack_operands_cons, stack_operators_cons.
  apply reduce_top_push.
Qed.

Lemma stack_operators_length s :
  List.length (stack_operators s) = List.length s.
Proof. unfold stack_operators. rewrite length_map, length_rev. reflexivity. Qed.

(** The inner loop of [parse_expression] on stacks in order. *)
Lemma shunting_yard_pops op l p s : forall top,
  level op l -> stacked s top ->
  shunting_yard (List.length s) op (stack_operands s top) (stack_operators s) p
  = Ok (stack_operands (fst (pop_while l s top)) (snd (pop_while l s top)),
        stack_operators (fst (pop_while l s top))) p.
Proof.
  induction s as [|[[t o] lo] s IH]; intros top Hl Hst; [reflexivity|].
  pose proof Hst as (Hlo & _). simpl pop_while. simpl List.length.
  assert (Htop : vector_top (stack_operators ((t, o, lo) :: s)) = Some o)
    by (rewrite stack_operators_cons; apply vector_top_push).
  cbn [shunting_yard]. unfold bind at 1, deref. rewrite Htop.
  unfold bind at 1. rewrite (Hl p). unfold bind at 1. rewrite (Hlo p).
  destruct (l <=? lo) eqn:E; [|reflexivity].
  unfold bind at 1. rewrite reduce_top_stack. cbn [fst snd].
  apply IH; [exact Hl | exact (stacked_join _ _ _ _ _ Hst)].
Qed.

(** The last loop of [parse_expression] on stacks in order. *)
Lemma apply_remaining_closes p s : forall top,
  apply_remaining (List.length s) (stack_operands s top) (stack_operators s) p
  = Ok (grouping_node (close s top)) p.
Proof.
  induction s as [|[[t o] lo] s IH]; intros top.
  - reflexivity.
  - simpl List.length. cbn [apply_remaining]. unfold bind at 1.
    rewrite reduce_top_stack. cbn [fst snd close]. apply IH.
Qed.

Lemma loop_grouping rest : forall p p' s a,
  operands p rest p' -> stacked s (Operand a) ->
  exists t,
    parses (ExpressionLoop (stack_operands s (Operand a)) (stack_operators s))
           p (grouping_node t) p' /\
    first_operand t = stack_first s (Operand a) /\
    chain_of t = stack_chain s (Operand a) ++ rest /\
    grouped t.
Proof.
  intros p p' s a Hops. revert s a.
  induction Hops as [p Hend | p op l a' p1 rest p' Hp Ht Hl [fa Ha] _ IH];
    intros s a Hst.
  - exists (close s (Operand a)).
    destruct (close_reading s (Operand a)) as (Hf & Hc).
    split; [|split; [exact Hf|split; [rewrite app_nil_r; exact Hc|]]].
    + exists 1%nat. rewrite (expression_loop_end _ _ _ _ Hend).
      rewrite stack_operators_length. apply apply_remaining_closes.
    + exact (close_grouped _ _ Hst).
  - assert (Hleaf : at_least l (Operand a)) by constructor.
    destruct (pop_while_stacked l s (Operand a) Hst Hleaf)
      as (Hst' & Hal' & Hlow & Hf' & Hc').
    set (s' := fst (pop_while l s (Operand a))) in *.
    set (top' := snd (pop_while l s (Operand a))) in *.
    assert (Hnew : stacked ((top', op, l) :: s') (Operand a')).
    { simpl. split; [exact Hl|]. split; [exact I|].
      split; [constructor|]. split; [exact Hal'|].
      split; [|exact Hst'].
      destruct s' as [|[[t2 o2] l2] s2]; [exact I | exact Hlow]. }
    destruct (IH _ _ Hnew) as (t & [fr Hr] & Hft & Hct & Hgt).
    exists t. split; [|split; [|split; [|exact Hgt]]].
    + set (F := Nat.max fa fr).
      apply (parse_rec_more _ F) in Ha; [|lia].
      apply (parse_rec_more _ F) in Hr; [|lia].
      exists (S F). rewrite (expression_loop_step _ _ _ _ _ Hp Ht).
      rewrite stack_operators_length. unfold bind at 1.
      rewrite (shunting_yard_pops op l _ s (Operand a) Hl Hst).
      cbn [fst snd]. fold s' top'. unfold bind. rewrite Ha.
      rewrite stack_operands_cons, stack_operators_cons in Hr.
      unfold vector_push, stack_operands. rewrite <- app_assoc. exact Hr.
    + rewrite Hft. simpl. exact Hf'.
    + rewrite Hct. simpl. rewrite Hc', <- app_assoc. reflexivity.
Qed.

(** Two places of one chain. *)
Lemma chain_split (A : Type) (xs xs' ys ys' : list A) (a b : A) :
  xs ++ a :: ys = xs' ++ b :: ys' ->
  (xs = xs' /\ a = b /\ ys = ys') \/
  (In b ys /\ In a xs') \/
  (In a ys' /\ In b xs).
Proof.
  intros H. apply app_eq_app in H. destruct H as (zs & [(H1 & H2) | (H1 & H2)]).
  - destruct zs as [|c zs]; simpl in H2; inversion H2; subst.
    + left. rewrite app_nil_r. repeat split; reflexivity.
    + right. right. split; apply in_or_app; right; left; reflexivity.
  - destruct zs as [|c zs]; simpl in H2; inversion H2; subst.
    + left. rewrite app_nil_r. repeat split; reflexivity.
    + right. left. split; apply in_or_app; right; left; reflexivity.
Qed.

(** Precedence leaves one grouping for a chain. *)
Lemma grouped_unique t1 : forall t2,
  grouped t1 -> grouped t2 ->
  first_operand t1 = first_operand t2 -> chain_of t1 = chain_of t2 ->
  t1 = t2.
Proof.
  induction t1 as [a1 | o1 l1 L1 IHL R1 IHR]; intros [a2 | o2 l2 L2 R2];
    simpl; intros G1 G2 Hf Hc.
  - congruence.
  - destruct (chain_of L2); discriminate.
  - destruct (chain_of L1); discriminate.
  - destruct G1 as (GL1 & GR1 & AL1 & AR1).
    destruct G2 as (GL2 & GR2 & AL2 & AR2).
    unfold at_least, above in *. rewrite Forall_forall in *.
    apply chain_split in Hc.
    destruct Hc as [(HL & Hm & HR) | [(Hb & Ha) | (Ha & Hb)]].
    + inversion Hm; subst.
      rewrite (IHL L2 GL1 GL2 Hf HL), (IHR R2 GR1 GR2 H2 HR). reflexivity.
    + apply AR1 in Hb. apply AL2 in Ha. unfold chain_level in *. simpl in *. lia.
    + apply AR2 in Ha. apply AL1 in Hb. unfold chain_level in *. simpl in *. lia.
Qed.

(** X22.  [parse_expression] respects precedence in expressions of any
    length: for operands [first], [a1], ..., [an] separated by operators of
    any levels it returns the tree of a grouping that reads, from left to
    right, as these operands and operators, and in which under every
    operator the operators of the right operand have a higher level and
    those of the left operand a level at least as high.  There is one such
    grouping only. *)
Theorem expression_grouping (p0 p1 p' : parser) (first : astnode)
    (rest : list (lxtoken * Z * astnode)) :
  parses Primary p0 first p1 ->
  operands p1 rest p' ->
  exists t,
    parses Expression p0 (grouping_node t) p' /\
    first_operand t = first /\ chain_of t = rest /\ grouped t /\
    forall t', grouped t' -> first_operand t' = first ->
               chain_of t' = rest -> t' = t.
Proof.
  intros [ff Hf] Hops.
  destruct (loop_grouping rest p1 p' [] first Hops I)
    as (t & [fr Hr] & Hft & Hct & Hgt).
  exists t. split; [|split; [exact Hft | split; [exact Hct | split; [exact Hgt|]]]].
  - set (F := Nat.max ff fr).
    apply (parse_rec_more _ F) in Hf; [|lia].
    apply (parse_rec_more _ F) in Hr; [|lia].
    exists (S F). rewrite expression_unfold. unfold bind. rewrite Hf. exact Hr.
  - intros t' Hg' Hf' Hc'. apply grouped_unique; try assumption.
    + rewrite Hf'. symmetry. exact Hft.
    + rewrite Hc'. symmetry. exact Hct.
Qed.

(** X22, witness: [1 + 2 * 3 - 4 | 5]. *)
Lemma expression_grouping_witness :
  exists t,
    parses Expression (parser_at 0 mixed_tokens) (grouping_node t)
           (parser_at 9 mixed_tokens) /\
    first_operand t = integer "1" /\ chain_of t = mixed_chain /\ grouped t /\
    forall t', grouped t' -> first_operand t' = integer "1" ->
               chain_of t' = mixed_chain -> t' = t.
Proof.
  apply (expression_grouping (parser_at 0 mixed_tokens)
                             (parser_at 1 mixed_tokens)
                             (parser_at 9 mixed_tokens)
                             (integer "1") mixed_chain).
  - exists 2%nat. reflexivity.
  - unfold mixed_chain.
    chain_link mixed_tokens 1%nat.
    chain_link mixed_tokens 3%nat.
    chain_link mixed_tokens 5%nat.
    chain_link mixed_tokens 7%nat.
    apply operands_end. reflexivity.
Defined.

(* ================================================================= *)
(** * Trees in shape *)

Lemma is_block_type_eq t : is_block_type t = true -> t = AST_of_lxtype LX_BLOCK.
Proof.
  destruct t as [| | | | | | | | | | | | | | | | | | | | | |k];
    try discriminate. destruct k; try discriminate. reflexivity.
Qed.

Lemma is_AST_CALL_eq t : is_AST_CALL t = true -> t = AST_CALL.
Proof. destruct t; try discriminate. reflexivity. Qed.

Lemma is_AST_PARAMS_eq t : is_AST_PARAMS t = true -> t = AST_PARAMS.
Proof. destruct t; try discriminate. reflexivity. Qed.

Lemma is_AST_TABLE_eq t : is_AST_TABLE t = true -> t = AST_TABLE.
Proof. destruct t; try discriminate. reflexivity. Qed.

Lemma is_AST_BRANCHES_eq t : is_AST_BRANCHES t = true -> t = AST_BRANCHES.
Proof. destruct t; try discriminate. reflexivity. Qed.

Ltac split_andb :=
  repeat match goal with
         | H : _ /\ _ |- _ => destruct H as [? ?]
         | H : _ && _ = true |- _ => apply andb_prop in H as [? ?]
         end.

Ltac rewrite_facts :=
  repeat match goal with
         | H : _ = true |- _ => rewrite H
         end.

(** A statement more in a block, an argument more in a call, a parameter
    more in a list of parameters, an entry more in a table. *)
Lemma push_statement block st :
  shaped block = true -> is_block_type (node_type block) = true ->
  shaped st = true -> is_statement (node_type st) = true ->
  shaped (push_child block st) = true /\
  is_block_type (node_type (push_child block st)) = true.
Proof.
  destruct block as [v t pos c]. simpl. intros Hs Ht H1 H2.
  apply is_block_type_eq in Ht. subst t. simpl in *. split_andb.
  unfold vector_push. rewrite map_app, !forallb_app. simpl.
  rewrite_facts. split; reflexivity.
Qed.

Lemma push_argument fcall argument :
  shaped fcall = true -> is_AST_CALL (node_type fcall) = true ->
  shaped argument = true -> is_expression (node_type argument) = true ->
  shaped (push_child fcall argument) = true /\
  is_AST_CALL (node_type (push_child fcall argument)) = true.
Proof.
  destruct fcall as [v t pos c]. simpl. intros Hs Ht H1 H2.
  apply is_AST_CALL_eq in Ht. subst t.
  destruct c as [|callee c]; [simpl in Hs; discriminate|].
  change (shape v AST_CALL (map node_type (callee :: c)))
    with (forallb is_expression (map node_type (callee :: c))) in Hs.
  split_andb. unfold vector_push. rewrite forallb_app.
  change (shape v AST_CALL (map node_type ((callee :: c) ++ [argument])))
    with (forallb is_expression (map node_type ((callee :: c) ++ [argument]))).
  rewrite map_app, forallb_app. simpl forallb at 2 4.
  rewrite_facts. split; reflexivity.
Qed.

Lemma push_parameter params value pos :
  shaped params = true -> is_AST_PARAMS (node_type params) = true ->
  shaped (push_child params (astnode_new value AST_PARAM pos [])) = true /\
  is_AST_PARAMS
    (node_type (push_child params (astnode_new value AST_PARAM pos []))) = true.
Proof.
  destruct params as [v t pos' c]. simpl. intros Hs Ht.
  apply is_AST_PARAMS_eq in Ht. subst t. simpl in *. split_andb.
  unfold vector_push. rewrite map_app, !forallb_app. simpl.
  rewrite_facts. split; reflexivity.
Qed.

Lemma push_entry table value pos key val :
  shaped table = true -> is_AST_TABLE (node_type table) = true ->
  shaped key = true -> is_expression (node_type key) = true ->
  shaped val = true -> is_expression (node_type val) = true ->
  shaped (push_child table (astnode_new value AST_KV_PAIR pos [key; val])) = true /\
  is_AST_TABLE
    (node_type
       (push_child table (astnode_new value AST_KV_PAIR pos [key; val]))) = true.
Proof.
  destruct table as [v t pos' c]. simpl. intros Hs Ht Hk1 Hk2 Hv1 Hv2.
  apply is_AST_TABLE_eq in Ht. subst t. simpl in *. split_andb.
  unfold vector_push. rewrite map_app, !forallb_app. simpl.
  rewrite_facts. split; reflexivity.
Qed.

(** The operand stack of [parse_expression] holds expressions in shape. *)
Lemma vector_pop_inv {A : Type} (v : list A) x v' :
  vector_pop v = Some (x, v') -> v = v' ++ [x].
Proof.
  intros H. destruct v as [|y w]; [discriminate|].
  destruct (vector_pop_some (y :: w)) as (x0 & v0 & Hv & Hp); [discriminate|].
  rewrite Hp in H. injection H as <- <-. exact Hv.
Qed.

Lemma reduce_top_shaped primaries operators p r p' :
  forallb (fun n => shaped n && is_expression (node_type n)) primaries = true ->
  reduce_top primaries operators p = Ok r p' ->
  forallb (fun n => shaped n && is_expression (node_type n)) (fst r) = true.
Proof.
  intros Hg H. unfold reduce_top in H.
  apply bind_ok_inv in H as (a & q & Hm & H).
  unfold deref in Hm. destruct (apply_op primaries operators) as [e|] eqn:E;
    [|discriminate].
  injection Hm as <- <-. unfold apply_op in E.
  destruct (vector_pop operators) as [[op operators']|]; [|discriminate].
  destruct (vector_pop primaries) as [[v1 operands1]|] eqn:E1; [|discriminate].
  destruct (vector_pop operands1) as [[v0 operands0]|] eqn:E0; [|discriminate].
  injection E as <-. injection H as <- <-.
  apply vector_pop_inv in E1, E0. subst primaries operands1.
  rewrite !forallb_app in Hg. simpl in Hg. split_andb.
  cbn [fst]. unfold vector_push. rewrite forallb_app. simpl.
  rewrite_facts. reflexivity.
Qed.

Lemma shunting_yard_shaped size : forall op primaries operators p r p',
  forallb (fun n => shaped n && is_expression (node_type n)) primaries = true ->
  shunting_yard size op primaries operators p = Ok r p' ->
  forallb (fun n => shaped n && is_expression (node_type n)) (fst r) = true.
Proof.
  induction size as [|size IH]; intros op primaries operators p r p' Hg H;
    simpl in H.
  - injection H as <- <-. exact Hg.
  - apply bind_ok_inv in H as (top & p1 & _ & H).
    apply bind_ok_inv in H as (a & p2 & _ & H).
    apply bind_ok_inv in H as (b & p3 & _ & H).
    destruct (a <=? b).
    + apply bind_ok_inv in H as (r1 & p4 & Hr & H).
      apply (IH _ _ _ _ _ _ (reduce_top_shaped _ _ _ _ _ Hg Hr) H).
    + injection H as <- <-. exact Hg.
Qed.

Lemma apply_remaining_shaped size : forall primaries operators p n p',
  forallb (fun n => shaped n && is_expression (node_type n)) primaries = true ->
  apply_remaining size primaries operators p = Ok n p' ->
  shaped n = true /\ is_expression (node_type n) = true.
Proof.
  induction size as [|size IH]; intros primaries operators p n p' Hg H;
    simpl in H.
  - apply bind_ok_inv in H as (r & q & Hm & H). injection H as <- <-.
    unfold deref in Hm.
    destruct (vector_pop primaries) as [[x v]|] eqn:E; [|discriminate].
    injection Hm as <- <-. apply vector_pop_inv in E. subst primaries.
    rewrite forallb_app in Hg. simpl in Hg. split_andb. split; assumption.
  - apply bind_ok_inv in H as (r1 & p4 & Hr & H).
    apply (IH _ _ _ _ _ (reduce_top_shaped _ _ _ _ _ Hg Hr) H).
Qed.

(** The branches of an [if] statement, linked. *)
Lemma link_branches_shaped chain : forall branch0 final,
  open_branch branch0 = true -> forallb open_branch chain = true ->
  shaped final = true -> is_AST_BRANCHES (node_type final) = true ->
  shaped (link_branches branch0 (chain ++ [final])) = true /\
  is_AST_BRANCHES (node_type (link_branches branch0 (chain ++ [final]))) = true.
Proof.
  assert (Hpush : forall b x,
            open_branch b = true -> shaped x = true ->
            is_AST_BRANCHES (node_type x) = true ->
            shaped (push_child b x) = true /\
            is_AST_BRANCHES (node_type (push_child b x)) = true).
  { intros [v t pos c] x Hb Hx Ht. unfold open_branch in Hb. simpl in Hb.
    apply andb_prop in Hb as [Hb Hl]. apply andb_prop in Hb as [Hs Hb].
    apply is_AST_BRANCHES_eq in Hb. subst t.
    destruct c as [|e [|b [|y c]]]; try discriminate.
    simpl in *. split_andb. rewrite_facts. split; reflexivity. }
  induction chain as [|b1 chain IH]; intros branch0 final H0 Hc Hf Ht; simpl.
  - apply Hpush; assumption.
  - simpl in Hc. apply andb_prop in Hc as [Hb1 Hc].
    destruct (IH b1 final Hb1 Hc Hf Ht) as (Hs1 & Ht1).
    apply Hpush; assumption.
Qed.

Lemma open_branch_shaped b :
  open_branch b = true ->
  shaped b = true /\ is_AST_BRANCHES (node_type b) = true.
Proof. unfold open_branch. intros H. split_andb. split; assumption. Qed.

Lemma link_chain_closed chain final p n p' :
  forallb open_branch chain = true ->
  shaped final = true -> is_AST_BRANCHES (node_type final) = true ->
  link_chain (vector_push chain final) p = Ok n p' ->
  shaped n = true /\ is_AST_BRANCHES (node_type n) = true.
Proof.
  intros Hc Hf Ht H. unfold vector_push in H.
  destruct chain as [|b0 chain]; simpl in H; injection H as <- <-.
  - split; assumption.
  - simpl in Hc. apply andb_prop in Hc as [Hb0 Hc].
    apply link_branches_shaped; assumption.
Qed.

Lemma link_chain_open chain p n p' :
  forallb open_branch chain = true ->
  link_chain chain p = Ok n p' ->
  shaped n = true /\ is_AST_BRANCHES (node_type n) = true.
Proof.
  intros Hc H. destruct chain as [|b0 chain]; [discriminate|].
  destruct (exists_last (l := b0 :: chain)) as (front & final & E);
    [discriminate|].
  rewrite E in *. rewrite forallb_app in Hc. simpl in Hc.
  apply andb_prop in Hc as [Hfront Hfinal].
  apply andb_prop in Hfinal as [Hfinal _].
  destruct (open_branch_shaped _ Hfinal) as (Hs & Ht).
  exact (link_chain_closed _ _ _ _ _ Hfront Hs Ht H).
Qed.

(** The index of [parse_table_put] and [parse_table_get]. *)
Lemma lookahead_token_inv p la p' :
  lookahead_token p = Ok la p' -> p' = p /\ lookahead p = Some la.
Proof.
  unfold lookahead_token, deref. destruct (lookahead p); [|discriminate].
  intros H. injection H as <- <-. split; reflexivity.
Qed.

Lemma indexed_at p :
  indexed p = true ->
  at_token LX_LEFT_SQUARE (advance p) || at_token LX_DOT (advance p) = true.
Proof.
  unfold indexed, lookahead. rewrite Nat.add_1_r.
  destruct (S (position p) <? List.length (tokens p))%nat eqn:E; [|discriminate].
  apply Nat.ltb_lt in E.
  destruct (vector_get (tokens p) (S (position p))) as [la|] eqn:Ela;
    [|discriminate].
  intros H. unfold at_token, is_empty, peek_is, peek, advance.
  cbn [position tokens]. rewrite Ela.
  replace (List.length (tokens p) <=? S (position p))%nat with false
    by (symmetry; apply Nat.leb_gt; lia).
  destruct (tk_type la); simpl in *; try discriminate; reflexivity.
Qed.

Lemma table_key_shaped fuel node p var p1 n p' :
  (forall c p n p',
     parse_rec fuel c p = Ok n p' -> entered c p ->
     shaped n = true /\ returns c (node_type n) = true) ->
  indexed p = true ->
  consume_token LX_SYMBOL p = Ok var p1 ->
  table_key (parse_rec fuel) node p1 = Ok n p' ->
  exists key,
    n = push_child node key /\
    shaped key = true /\ is_expression (node_type key) = true.
Proof.
  intros IH Hi Hv H. apply consume_token_iff in Hv as (_ & _ & ->).
  apply indexed_at in Hi. unfold table_key in H.
  apply bind_ok_inv in H as (square & q & Hsq & H).
  rewrite consume_optional_eq in Hsq. injection Hsq as <- <-.
  destruct (at_token LX_LEFT_SQUARE (advance p)).
  - apply bind_ok_inv in H as (e & q1 & He & H).
    apply bind_ok_inv in H as (r & q2 & _ & H). injection H as <- <-.
    apply IH in He; [|exact I]. exists e. split; [reflexivity | exact He].
  - apply bind_ok_inv in H as (dot & q & Hdot & H).
    rewrite consume_optional_eq in Hdot. injection Hdot as <- <-.
    destruct (at_token LX_DOT (advance p)); [|discriminate].
    apply bind_ok_inv in H as (tk & q1 & _ & H). injection H as <- <-.
    eexists. split; [reflexivity|]. split; reflexivity.
Qed.

Ltac entered_solver :=
  solve
    [ exact I
    | simpl in *; split_andb;
      first
        [ apply push_statement; assumption
        | apply push_argument; assumption
        | apply push_parameter; assumption
        | apply push_entry; assumption
        | unfold indexed;
          match goal with H : lookahead _ = Some _ |- _ => rewrite H end;
          assumption
        | rewrite_facts; split; reflexivity
        | unfold vector_push; try rewrite forallb_app; rewrite_facts;
          unfold open_branch; simpl; rewrite_facts; reflexivity ] ].

Ltac shape_step IH :=
  match goal with
  | E : streq _ _ = _ |- _ => simpl in E; discriminate E
  | H : parse_rec _ _ _ = Ok _ _ |- _ =>
      apply IH in H; [destruct H as [? ?]; cbn [returns] in * | entered_solver]
  | H : shunting_yard _ _ _ _ _ = Ok _ _ |- _ =>
      apply shunting_yard_shaped in H; [|assumption]
  | H : apply_remaining _ _ _ _ = Ok _ _ |- _ =>
      apply apply_remaining_shaped in H; [|assumption]
  | H : link_chain (vector_push _ _) _ = Ok _ _ |- _ =>
      apply link_chain_closed in H;
        [ | assumption
          | simpl; rewrite_facts; reflexivity
          | simpl; rewrite_facts; reflexivity ]
  | H : link_chain _ _ = Ok _ _ |- _ =>
      apply link_chain_open in H; [|assumption]
  | H : bind _ _ _ = Ok _ _ |- _ =>
      let a := fresh "a" in let q := fresh "q" in
      let Hm := fresh "Hm" in
      apply bind_ok_inv in H as (a & q & Hm & H)
  | H : ret _ _ = Ok _ _ |- _ => injection H as ? ?; subst
  | H : Ok _ _ = Ok _ _ |- _ => injection H as ? ?; subst
  | H : parsererror _ _ = Ok _ _ |- _ =>
      exfalso; exact (parsererror_not_ok _ _ _ _ H)
  | H : peek_token _ = Ok _ _ |- _ => apply peek_token_state in H; subst
  | H : lookahead_token _ = Ok _ _ |- _ =>
      apply lookahead_token_inv in H as [? ?]; subst
  | H : eat_token _ = Ok _ _ |- _ => clear H
  | H : eat _ = Ok _ _ |- _ => clear H
  | H : consume_token _ _ = Ok _ _ |- _ => clear H
  | H : consume _ _ = Ok _ _ |- _ => clear H
  | H : consume_optional _ _ = Ok _ _ |- _ => clear H
  | H : strip_newlines _ = Ok _ _ |- _ => clear H
  | H : (if ?b then _ else _) _ = Ok _ _ |- _ => destruct b eqn:?
  | H : (if ?b then _ else _) = Ok _ _ |- _ => destruct b eqn:?
  | H : (match ?x with _ => _ end) _ = Ok _ _ |- _ => destruct x eqn:?
  | H : (match ?x with _ => _ end) = Ok _ _ |- _ => destruct x eqn:?
  end.

Ltac shape_solver :=
  simpl in *; split_andb;
  repeat match goal with
         | H : negb _ = false |- _ => apply negb_false_iff in H
         end;
  first
    [ split; assumption
    | apply push_statement; assumption
    | apply push_argument; assumption
    | apply push_parameter; assumption
    | apply push_entry; assumption
    | rewrite_facts; split; reflexivity
    | split; [assumption|];
      match goal with
      | |- _ (node_type ?n) = true =>
          destruct (node_type n); try discriminate; reflexivity
      end ].

Lemma parse_rec_shaped fuel : forall c p n p',
  parse_rec fuel c p = Ok n p' -> entered c p ->
  shaped n = true /\ returns c (node_type n) = true.
Proof.
  induction fuel as [|fuel IH]; intros c p n p' H He; [discriminate|].
  change (parse_body (parse_rec fuel) c p = Ok n p') in H.
  destruct c; unfold parse_body, braced_block in H; cbn [entered] in He.
  16: { apply bind_ok_inv in H as (var & p1 & Hv & H).
        apply bind_ok_inv in H as (put & p2 & Hk & H).
        apply (table_key_shaped _ _ _ _ _ _ _ IH He Hv) in Hk
          as (key & -> & Hk1 & Hk2).
        repeat shape_step IH. shape_solver. }
  16: { apply bind_ok_inv in H as (var & p1 & Hv & H).
        apply (table_key_shaped _ _ _ _ _ _ _ IH He Hv) in H
          as (key & -> & Hk1 & Hk2).
        shape_solver. }
  all: repeat shape_step IH.
  all: shape_solver.
Qed.

(** X23.  Every tree a parsing function returns is in shape: each node has
    the children of its type — none under a literal, a reference or a
    parameter, one expression under a unary operator, an assignment, a
    return and a table access, a string under an include, two expressions
    under a binary operator, a table entry and a table assignment, the
    callee and the arguments under a call, the parameter list and the body
    block under a function, the condition and the body block under a loop,
    statements under a block — and the root has a type of the function that
    was called.  For a loop of a function, entered with the node it fills
    or the operands it has stacked, these have to be in shape. *)
Theorem parsed_tree_shaped (c : call) (p : parser) (n : astnode) (p' : parser) :
  entered c p -> parses c p n p' ->
  shaped n = true /\ returns c (node_type n) = true.
Proof.
  intros He [fuel H]. exact (parse_rec_shaped fuel c p n p' H He).
Qed.

(** X23, witness: [x <- $(a) { ret @f(a) + 1 }]. *)
Lemma parsed_tree_shaped_witness :
  shaped function_program_tree = true /\
  returns (Block LX_EOF) (node_type function_program_tree) = true.
Proof.
  apply (parsed_tree_shaped (Block LX_EOF) (parser_on function_program)
                            function_program_tree
                            (parser_at 16 function_program)).
  - exact I.
  - exists 40%nat. vm_compute. reflexivity.
Defined.
